(** * The table-migration engine of db_migrator_function

    A shallow embedding of the JavaScript migrator and a development of its
    specification.

    - [Orderer]  : [DatabaseMigrator.getMigrationOrder] with its inner
      [visit], from the iteration of the migrator that orders the working set
      by foreign keys.
    - [Migrator] : [getTableSchema], [disableForeignKeyChecks],
      [enableForeignKeyChecks], [backupTable] of dbUtils.js, and
      [DatabaseMigrator.migrateTable] / [migrateTables] of helper/migrator.js.
    - [Config]   : [getDbConfig] of dbConfig.js, the constructor of
      [DatabaseMigrator], and the options [runMigration] of index.js reads
      from the environment.

    JavaScript exceptions are an explicit outcome; [async]/[await] is
    sequenced.  The recursion of [visit] is bounded by the call stack: it
    takes the depth the stack has room for and throws a RangeError beyond
    it.  The [while (true)] of the transfer loop takes a fuel argument, with
    [None] for "fuel exhausted", and the theorems give the fuel that is
    enough. *)

From stdpp Require Import gmap strings list fin_maps pretty sorting.

#[local] Set Warnings "-clear-no-such-hyp,-abstract-large-number".


(** A JavaScript [Error]: the code only ever reads [error.message]. *)
Record Error := mkError { message : string }.

(* ===================================================================== *)
(** * getMigrationOrder                                                   *)
(* ===================================================================== *)

Module Orderer.

(** One row of INFORMATION_SCHEMA.KEY_COLUMN_USAGE as selected by
    [getForeignKeyDependencies]: [TABLE_NAME] is the referencing (child)
    table, [REFERENCED_TABLE_NAME] the referenced (parent) one. *)
Record KeyColumnUsage := mkFK {
  TABLE_NAME : string;
  COLUMN_NAME : string;
  REFERENCED_TABLE_NAME : string;
  REFERENCED_COLUMN_NAME : string
}.

(** [Set.prototype.add] on a set kept in insertion order. *)
Definition set_add (x : string) (s : list string) : list string :=
  if decide (x ∈ s) then s else s ++ [x].

(** [visited] is a [Set] used through [has] and [add] only; [order] is the
    array built by [unshift]. *)
Record VisitState := mkVisit {
  visited : gset string;
  order : list string
}.

(** [for (const x of xs) body(x)] over a threaded state, leaving at the first
    exception. *)
Fixpoint for_of {S : Type} (body : string → S → Error + S)
    (xs : list string) (st : S) : Error + S :=
  match xs with
  | [] => inr st
  | x :: rest =>
      match body x st with
      | inr st' => for_of body rest st'
      | inl e => inl e
      end
  end.

(** Iterating [undefined] is a TypeError. *)
Definition not_iterable : Error :=
  mkError "dependencyGraph.get(...) is not iterable".

Definition not_an_object : Error :=
  mkError "Cannot read properties of undefined (reading 'add')".

(** The RangeError of a call made when the call stack is full. *)
Definition stack_overflow : Error :=
  mkError "Maximum call stack size exceeded".

(** The inner function [visit(table)].  It calls itself from inside its
    loop, so every table on the way down holds a frame of the call stack:
    [depth] is the number of nested calls the stack still has room for, and
    a call made when none is left throws. *)
Fixpoint visit (depth : nat) (dependencyGraph : gmap string (list string))
    (table : string) (st : VisitState) : Error + VisitState :=
  match depth with
  | O => inl stack_overflow
  | S depth' =>
      if decide (table ∈ visited st) then inr st
      else
        let st1 := mkVisit ({[table]} ∪ visited st) (order st) in
        match dependencyGraph !! table with
        | None => inl not_iterable
        | Some deps =>
            match for_of (visit depth' dependencyGraph) deps st1 with
            | inr st2 => inr (mkVisit (visited st2) (table :: order st2))
            | inl e => inl e
            end
        end
  end.

(** First loop: [dependencyGraph.set(table, new Set())]. *)
Definition init_graph (tables : list string) : gmap string (list string) :=
  foldl (λ g table, <[table := []]> g) ∅ tables.

(** [if (tables.includes(fk.TABLE_NAME))
       dependencyGraph.get(fk.TABLE_NAME).add(table)]. *)
Definition add_dependency (tables : list string) (table : string)
    (fk : KeyColumnUsage) (g : gmap string (list string))
    : Error + gmap string (list string) :=
  if decide (TABLE_NAME fk ∈ tables) then
    match g !! TABLE_NAME fk with
    | Some s => inr (<[TABLE_NAME fk := set_add table s]> g)
    | None => inl not_an_object
    end
  else inr g.

Fixpoint add_dependencies (tables : list string) (table : string)
    (foreignKeys : list KeyColumnUsage) (g : gmap string (list string))
    : Error + gmap string (list string) :=
  match foreignKeys with
  | [] => inr g
  | fk :: rest =>
      match add_dependency tables table fk g with
      | inr g' => add_dependencies tables table rest g'
      | inl e => inl e
      end
  end.

Section WithConnection.

(** [getForeignKeyDependencies(connection, tableName)]: the rows of the
    key-usage catalogue whose REFERENCED_TABLE_NAME is [tableName], or the
    driver's error. *)
Variable getForeignKeyDependencies : string → Error + list KeyColumnUsage.

(** Second loop of [getMigrationOrder]. *)
Fixpoint build_graph (tables todo : list string)
    (g : gmap string (list string)) : Error + gmap string (list string) :=
  match todo with
  | [] => inr g
  | table :: rest =>
      match getForeignKeyDependencies table with
      | inl e => inl e
      | inr foreignKeys =>
          match add_dependencies tables table foreignKeys g with
          | inr g' => build_graph tables rest g'
          | inl e => inl e
          end
      end
  end.

(** [depth]: the room the call stack has for [visit] when the last loop
    starts. *)
Definition getMigrationOrder (depth : nat) (tables : list string)
    : Error + list string :=
  match build_graph tables tables (init_graph tables) with
  | inl e => inl e
  | inr dependencyGraph =>
      match for_of (visit depth dependencyGraph) tables (mkVisit ∅ []) with
      | inr st => inr (order st)
      | inl e => inl e
      end
  end.

End WithConnection.

(** A catalogue given as a list of foreign keys, queried like the SQL does:
    [WHERE REFERENCED_TABLE_NAME = tableName]. *)
Definition catalogue (fks : list KeyColumnUsage) (tableName : string)
    : Error + list KeyColumnUsage :=
  inr (filter (λ fk, REFERENCED_TABLE_NAME fk = tableName) fks).

(** [references child parent]: a foreign key of [child] to [parent]. *)
Definition references (child parent : string) : KeyColumnUsage :=
  mkFK child "parent_id" parent "id".

(** [x] occurs before [y] in [l]. *)
Definition before (x y : string) (l : list string) : Prop :=
  ∃ l1 l2 l3, l = l1 ++ x :: l2 ++ y :: l3.

(** The graph [getMigrationOrder] builds has a cycle through [t]: a
    non-empty path of stored edges from [t] back to [t]. *)
Inductive path (g : gmap string (list string)) : string → string → Prop :=
| path_edge x y deps : g !! x = Some deps → y ∈ deps → path g x y
| path_step x y z deps :
    g !! x = Some deps → y ∈ deps → path g y z → path g x z.

Definition cyclic (g : gmap string (list string)) : Prop :=
  ∃ t, path g t t.

(** The graph stores that [child] references [parent]. *)
Definition edge (g : gmap string (list string)) (child parent : string) : Prop :=
  ∃ deps, g !! child = Some deps ∧ parent ∈ deps.

(** Every stored dependency is itself a key of the graph. *)
Definition closed (g : gmap string (list string)) : Prop :=
  ∀ t deps d, g !! t = Some deps → d ∈ deps → d ∈ dom g.

(** [st'] is [st] after the tables of [new] were visited for the first time
    and unshifted, the last one finished standing first. *)
Definition grows (g : gmap string (list string)) (st st' : VisitState)
    (new : list string) : Prop :=
  visited st' = visited st ∪ list_to_set new ∧
  order st' = new ++ order st ∧
  NoDup new ∧
  ∀ x, x ∈ new → (x ∉ visited st) ∧ x ∈ dom g.

(** Every table whose visit is still running reaches [t] in the graph. *)
Definition stack_reaches (g : gmap string (list string)) (st : VisitState)
    (t : string) : Prop :=
  ∀ a, a ∈ visited st → a ∉ order st → path g a t.

(** Every table of [new] stands, in [new ++ old], before each table it
    references. *)
Definition children_first (g : gmap string (list string)) (new old : list string)
    : Prop :=
  ∀ x deps d, x ∈ new → g !! x = Some deps → d ∈ deps → before x d (new ++ old).

(** What a visit that started in [st] and newly finished [new] guarantees
    when the graph has no cycle: the new tables stand before the tables they
    reference. *)
Definition orders_children_first (g : gmap string (list string))
    (st : VisitState) (targets : list string) (new : list string) : Prop :=
  ¬ cyclic g →
  (∀ x, x ∈ order st → x ∈ visited st) →
  (∀ t, t ∈ targets → stack_reaches g st t) →
  children_first g new (order st).

(** The graph is over the working set: its keys are the tables, and it is
    closed. *)
Definition graph_over (tbls : list string) (g : gmap string (list string)) : Prop :=
  dom g = list_to_set tbls ∧ closed g.

(** The chain of the specification's example: B references A, C references B. *)
Definition chain : list KeyColumnUsage :=
  [references "B" "A"; references "C" "B"].

(** Two tables referencing each other. *)
Definition mutual : list KeyColumnUsage :=
  [references "A" "B"; references "B" "A"].

(** The position of a table in the chain. *)
Definition chain_rank (t : string) : nat :=
  if decide (t = "C") then 2 else if decide (t = "B") then 1 else 0.

(** A foreign key between two tables of the working set. *)
Definition inside (tbls : list string) (fk : KeyColumnUsage) : Prop :=
  TABLE_NAME fk ∈ tbls ∧ REFERENCED_TABLE_NAME fk ∈ tbls.

(** A chain as long as one likes: table [i + 1] references table [i], and
    the working set lists the tables from the last one down. *)
Definition link (i : nat) : string := "t" +:+ pretty i.

Definition deep_chain (n : nat) : list KeyColumnUsage :=
  (λ i, references (link (S i)) (link i)) <$> seq 0 n.

Definition deep_tables (n : nat) : list string :=
  link <$> reverse (seq 0 (S n)).

End Orderer.

(* ===================================================================== *)
(** * The per-table engine: dbUtils.js and helper/migrator.js             *)
(* ===================================================================== *)

Module Migrator.

(** ** The two databases

    The driver (mysql2) is outside the repository.  It is modelled by two
    finite databases, a trace of the statements issued, and a fault plan: the
    n-th statement executed fails with the n-th entry of [faults] when that
    entry is [Some msg] (a lost connection, a constraint violation, ...), and
    otherwise does what the statement says, which can fail on its own
    (missing table).  Statements are kept as syntax trees instead of the SQL
    text the code interpolates. *)

(** [this.sourcePool] and [this.targetPool]. *)
Inductive pool := Source | Target.

Definition value := string.

(** A row of a table or of a result set: column name to value, in the order
    of the columns. *)
Definition row := list (string * value).

(** One row of the answer to DESCRIBE. *)
Record ColumnInfo := mkColumnInfo {
  Field : string;
  Type_ : string;
  Null : string;
  Default : option string;
  Key : string
}.

Inductive statement :=
| SET_FOREIGN_KEY_CHECKS (on : bool)
| DESCRIBE (t : string)
| CREATE_TABLE_LIKE (new old : string)
| INSERT_SELECT (into from : string)
| TRUNCATE_TABLE (t : string)
| SELECT_LIMIT (cols : list string) (t : string) (offset count : nat)
| INSERT_VALUES (t : string) (cols : list string) (vals : list (option value)).

Inductive result_set :=
| Fields (l : list ColumnInfo)
| Rows (l : list row)
| OkPacket.

Record Table := mkTable {
  columns : list ColumnInfo;
  rows : list row
}.

Record Database := mkDatabase {
  tables : gmap string Table;
  foreign_key_checks : bool
}.

(** ** Plain objects

    The own properties of an object are kept as the list JavaScript
    enumerates: the names that are array indices first, in ascending order,
    then the other names in the order they were created. *)

(** Read of an own property. *)
Fixpoint obj_get {V : Type} (k : string) (o : list (string * V)) : option V :=
  match o with
  | [] => None
  | (k', v) :: rest => if decide (k = k') then Some v else obj_get k rest
  end.

Definition digit_of (a : Ascii.ascii) : option N :=
  let n := Ascii.N_of_ascii a in
  if decide (48 ≤ n ≤ 57)%N then Some (n - 48)%N else None.

Fixpoint decimal (s : string) (acc : N) : option N :=
  match s with
  | EmptyString => Some acc
  | String a rest =>
      match digit_of a with
      | Some d => decimal rest (10 * acc + d)%N
      | None => None
      end
  end.

(** The array index a property name denotes: the name is the canonical
    decimal text (no leading zero) of a number below 2^32 - 1. *)
Definition array_index (k : string) : option N :=
  match k with
  | EmptyString => None
  | String a rest =>
      if decide (Ascii.N_of_ascii a = 48%N ∧ rest ≠ EmptyString) then None
      else
        match decimal k 0 with
        | Some n => if decide (n < 4294967295)%N then Some n else None
        | None => None
        end
  end.

(** A new property [k] is enumerated before the existing property [k']. *)
Definition listed_before (k k' : string) : bool :=
  match array_index k, array_index k' with
  | Some n, Some n' => bool_decide (n < n')%N
  | Some _, None => true
  | None, _ => false
  end.

(** A property that the object does not have yet takes its place. *)
Fixpoint add_key {V : Type} (k : string) (v : V) (o : list (string * V))
    : list (string * V) :=
  match o with
  | [] => [(k, v)]
  | (k', v') :: rest =>
      if listed_before k k' then (k, v) :: (k', v') :: rest
      else (k', v') :: add_key k v rest
  end.

(** A property that the object has keeps its place. *)
Fixpoint replace_value {V : Type} (k : string) (v : V) (o : list (string * V))
    : list (string * V) :=
  match o with
  | [] => []
  | (k', v') :: rest =>
      if decide (k = k') then (k, v) :: rest
      else (k', v') :: replace_value k v rest
  end.

(** The definition of an own data property. *)
Definition define_own {V : Type} (k : string) (v : V) (o : list (string * V))
    : list (string * V) :=
  if decide (is_Some (obj_get k o)) then replace_value k v o else add_key k v o.

(** The assignment [o[k] = v] of a value that is not an object (a text, a
    number): under the name "__proto__" it reaches the setter of
    [Object.prototype], which ignores such a value. *)
Definition obj_set {V : Type} (k : string) (v : V) (o : list (string * V))
    : list (string * V) :=
  if decide (k = "__proto__") then o else define_own k v o.

(** An object whose properties hold objects: its own properties, and the
    object that an assignment to "__proto__" made its prototype ([None]:
    the prototype is still [Object.prototype]). *)
Record Obj (V : Type) := mkObj {
  own : list (string * V);
  proto : option V
}.
Arguments mkObj {V} own proto.
Arguments own {V} o.
Arguments proto {V} o.

(** [{}]. *)
#[global] Instance Obj_empty {V : Type} : Empty (Obj V) := mkObj [] None.

(** The assignment [o[k] = v] of an object [v]. *)
Definition assign {V : Type} (k : string) (v : V) (o : Obj V) : Obj V :=
  if decide (k = "__proto__") then mkObj (own o) (Some v)
  else mkObj (define_own k v (own o)) (proto o).

(** [o !! k]: what an assignment [o[k] = v] left to be read back under [k]. *)
#[global] Instance Obj_lookup {V : Type} : Lookup string V (Obj V) :=
  λ k o, if decide (k = "__proto__") then proto o else obj_get k (own o).

Definition Object_keys {V : Type} (o : Obj V) : list string :=
  (own o).*1.

(** The order in which JavaScript enumerates own names: no name stands
    after a name it is listed before. *)
Definition enumerated (ks : list string) : Prop :=
  StronglySorted (λ k k', listed_before k' k = false) ks.

(** The properties every object inherits from [Object.prototype]; each reads
    as a function or, for "__proto__", as the prototype. *)
Definition Object_prototype : list string :=
  ["constructor"; "__defineGetter__"; "__defineSetter__"; "hasOwnProperty";
   "__lookupGetter__"; "__lookupSetter__"; "isPrototypeOf";
   "propertyIsEnumerable"; "toString"; "valueOf"; "__proto__";
   "toLocaleString"].

(** SELECT c1, ..., cn: the listed columns of a stored row. *)
Definition project (cols : list string) (r : row) : row :=
  omap (λ c, fmap (pair c) (obj_get c r)) cols.

Definition set_tables (db : Database) (ts : gmap string Table) : Database :=
  mkDatabase ts (foreign_key_checks db).

Definition no_such_table (t : string) : string :=
  "Table '" +:+ t +:+ "' doesn't exist".

Definition run_statement (q : statement) (db : Database)
    : string + result_set * Database :=
  match q with
  | SET_FOREIGN_KEY_CHECKS on => inr (OkPacket, mkDatabase (tables db) on)
  | DESCRIBE t =>
      match tables db !! t with
      | Some T => inr (Fields (columns T), db)
      | None => inl (no_such_table t)
      end
  | CREATE_TABLE_LIKE new old =>
      match tables db !! old, tables db !! new with
      | None, _ => inl (no_such_table old)
      | Some _, Some _ => inl ("Table '" +:+ new +:+ "' already exists")
      | Some T, None =>
          inr (OkPacket, set_tables db (<[new := mkTable (columns T) []]> (tables db)))
      end
  | INSERT_SELECT into from =>
      match tables db !! into, tables db !! from with
      | Some Ti, Some Tf =>
          inr (OkPacket,
               set_tables db (<[into := mkTable (columns Ti) (rows Ti ++ rows Tf)]> (tables db)))
      | None, _ => inl (no_such_table into)
      | _, None => inl (no_such_table from)
      end
  | TRUNCATE_TABLE t =>
      match tables db !! t with
      | Some T => inr (OkPacket, set_tables db (<[t := mkTable (columns T) []]> (tables db)))
      | None => inl (no_such_table t)
      end
  | SELECT_LIMIT cols t offset count =>
      match tables db !! t with
      | Some T => inr (Rows (project cols <$> take count (drop offset (rows T))), db)
      | None => inl (no_such_table t)
      end
  | INSERT_VALUES t cols vals =>
      match mapM id vals with
      | None => inl "Bind parameters must not contain undefined"
      | Some vs =>
          match tables db !! t with
          | Some T =>
              inr (OkPacket,
                   set_tables db (<[t := mkTable (columns T) (rows T ++ [zip cols vs])]> (tables db)))
          | None => inl (no_such_table t)
          end
      end
  end.

(** One statement handed to a pool, with how it ended. *)
Record Event := mkEvent {
  ev_pool : pool;
  ev_statement : statement;
  ev_error : option string
}.

Inductive Level := LOG | ERROR.

Record World := mkWorld {
  source : Database;
  target : Database;
  faults : list (option string);
  trace : list Event;
  console : list (Level * string);
  clock : string
}.

Definition database_of (p : pool) (w : World) : Database :=
  match p with Source => source w | Target => target w end.

(** The world after statement [q] on pool [p] ended with [err], the pool's
    database now being [db]. *)
Definition after_statement (p : pool) (q : statement) (err : option string)
    (db : Database) (w : World) : World :=
  mkWorld (match p with Source => db | Target => source w end)
          (match p with Source => target w | Target => db end)
          (tail (faults w))
          (trace w ++ [mkEvent p q err])
          (console w)
          (clock w).

(** ** Result, options and the activation state of [migrateTable] *)

Record MigrationResult := mkResult {
  table : string;
  success : bool;
  rowsMigrated : nat;
  errors : list string
}.

Record MigrationOptions := mkOptions {
  truncateTarget : bool;
  chunkSize : nat;
  ignoreColumns : list string;
  foreignKeyStrategy : string;
  dryRun : bool
}.

(** The world together with the local [result] object of the running
    [migrateTable]. *)
Record State := mkState {
  world : World;
  result : MigrationResult
}.

Inductive Outcome (A : Type) :=
| Return (a : A)
| Throw (e : Error).
Arguments Return {A} a.
Arguments Throw {A} e.

(** An [async] computation: [None] when the fuel of a loop ran out. *)
Definition M (A : Type) : Type := State → option (Outcome A * State).

Definition ret {A : Type} (a : A) : M A := λ s, Some (Return a, s).

Definition throw {A : Type} (e : Error) : M A := λ s, Some (Throw e, s).

Definition out_of_fuel {A : Type} : M A := λ _, None.

Definition bind {A B : Type} (c : M A) (k : A → M B) : M B :=
  λ s, match c s with
       | Some (Return a, s') => k a s'
       | Some (Throw e, s') => Some (Throw e, s')
       | None => None
       end.

(** [try { body } catch (error) { handler }]. *)
Definition try_catch {A : Type} (body : M A) (handler : Error → M A) : M A :=
  λ s, match body s with
       | Some (Throw e, s') => handler e s'
       | other => other
       end.

(** [try { body } finally { fin }]: [fin] runs on both exits; what it throws
    replaces the outcome of [body]. *)
Definition try_finally {A : Type} (body : M A) (fin : M unit) : M A :=
  λ s, match body s with
       | Some (out, s') =>
           match fin s' with
           | Some (Return _, s'') => Some (out, s'')
           | Some (Throw e, s'') => Some (Throw e, s'')
           | None => None
           end
       | None => None
       end.

Declare Scope async_scope.
Delimit Scope async_scope with async.
Bind Scope async_scope with M.
Notation "'await' x := c 'in' k" := (bind c (λ x, k))
  (at level 10, x name, c at level 100, k at level 200) : async_scope.
Notation "c ';;;' k" := (bind c (λ _, k))
  (at level 100, k at level 200, right associativity) : async_scope.
Open Scope async_scope.

(** [pool.execute(sql, params)]. *)
Definition execute (p : pool) (q : statement) : M result_set :=
  λ s,
    let w := world s in
    let db := database_of p w in
    match head (faults w) with
    | Some (Some msg) =>
        Some (Throw (mkError msg),
              mkState (after_statement p q (Some msg) db w) (result s))
    | _ =>
        match run_statement q db with
        | inl msg =>
            Some (Throw (mkError msg),
                  mkState (after_statement p q (Some msg) db w) (result s))
        | inr (rs, db') =>
            Some (Return rs, mkState (after_statement p q None db' w) (result s))
        end
    end.

(** logger.js: [console.log] and [console.error]. *)
Definition print (l : Level) (msg : string) (w : World) : World :=
  mkWorld (source w) (target w) (faults w) (trace w)
          (console w ++ [(l, msg)]) (clock w).

Definition logger_log (msg : string) : M unit :=
  λ s, Some (Return tt, mkState (print LOG msg (world s)) (result s)).

Definition logger_error (msg : string) : M unit :=
  λ s, Some (Return tt, mkState (print ERROR msg (world s)) (result s)).

(** [new Date().toISOString().replace(/[-:]/g, "").split(".")[0]]. *)
Definition timestamp : M string :=
  λ s, Some (Return (clock (world s)), s).

(** Reads and writes of the local [result] object. *)
Definition get_rowsMigrated : M nat :=
  λ s, Some (Return (rowsMigrated (result s)), s).

Definition set_success (b : bool) : M unit :=
  λ s, let r := result s in
       Some (Return tt,
             mkState (world s) (mkResult (table r) b (rowsMigrated r) (errors r))).

Definition add_rowsMigrated (n : nat) : M unit :=
  λ s, let r := result s in
       Some (Return tt,
             mkState (world s)
                     (mkResult (table r) (success r) (rowsMigrated r + n) (errors r))).

Definition push_error (msg : string) : M unit :=
  λ s, let r := result s in
       Some (Return tt,
             mkState (world s)
                     (mkResult (table r) (success r) (rowsMigrated r) (errors r ++ [msg]))).

(** [await Promise.all(ps)]: every promise of [ps] was already started by the
    [map] that built the list, so all of them run; the rejection is that of
    the first one that fails. *)
Fixpoint Promise_all {A : Type} (ps : list (M A)) : M (list A) :=
  match ps with
  | [] => ret []
  | p :: rest =>
      λ s, match p s with
           | Some (Return a, s') =>
               (await l := Promise_all rest in ret (a :: l)) s'
           | Some (Throw e, s') =>
               match Promise_all rest s' with
               | Some (_, s'') => Some (Throw e, s'')
               | None => None
               end
           | None => None
           end
  end.

(** ** dbUtils.js *)

Record ColumnDescriptor := mkColumn {
  type : string;
  nullable : bool;
  default : option string;
  key : string
}.

(** The reducer of [getTableSchema]: [acc[row.Field] = {...}; return acc]. *)
Definition describe_row (acc : Obj ColumnDescriptor) (r : ColumnInfo)
    : Obj ColumnDescriptor :=
  assign (Field r)
         (mkColumn (Type_ r) (bool_decide (Null r = "YES")) (Default r) (Key r))
         acc.

Definition getTableSchema (connection : pool) (tableName : string)
    : M (Obj ColumnDescriptor) :=
  try_catch
    (await rs := execute connection (DESCRIBE tableName) in
     match rs with
     | Fields l => ret (foldl describe_row ∅ l)
     | _ => throw (mkError "rows.reduce is not a function")
     end)
    (λ error,
       throw (mkError ("Error getting schema for table " +:+ tableName
                       +:+ ": " +:+ message error))).

Definition disableForeignKeyChecks (connection : pool) : M unit :=
  execute connection (SET_FOREIGN_KEY_CHECKS false) ;;; ret tt.

Definition enableForeignKeyChecks (connection : pool) : M unit :=
  execute connection (SET_FOREIGN_KEY_CHECKS true) ;;; ret tt.

Definition backup_name (tableName ts : string) : string :=
  tableName +:+ "_backup_" +:+ ts.

Definition backupTable (connection : pool) (tableName : string) : M string :=
  await ts := timestamp in
  let backupTableName := backup_name tableName ts in
  try_catch
    (execute connection (CREATE_TABLE_LIKE backupTableName tableName) ;;;
     execute connection (INSERT_SELECT backupTableName tableName) ;;;
     logger_log ("Created backup table: " +:+ backupTableName) ;;;
     ret backupTableName)
    (λ error,
       throw (mkError ("Error creating backup for table " +:+ tableName
                       +:+ ": " +:+ message error))).

(** ** helper/migrator.js *)

(** A text used as a condition. *)
Definition nonempty (s : string) : bool := bool_decide (s ≠ "").

(** [schema[col]] used as a condition.  An own property holds a descriptor,
    which counts as true.  Any other name is looked up along the prototype
    chain: in the descriptor that a column named "__proto__" left there, if
    any, whose four properties hold texts, a boolean or [null], and then in
    [Object.prototype]. *)
Definition defined (schema : Obj ColumnDescriptor) (col : string) : bool :=
  match obj_get col (own schema), proto schema with
  | Some _, _ => true
  | None, Some d =>
      if decide (col = "type") then nonempty (type d)
      else if decide (col = "nullable") then nullable d
      else if decide (col = "default") then from_option nonempty false (default d)
      else if decide (col = "key") then nonempty (key d)
      else bool_decide (col ∈ Object_prototype)
  | None, None => bool_decide (col ∈ Object_prototype)
  end.

(** [Object.keys(sourceSchema).filter(
       (col) => targetSchema[col] && !ignoreColumns.includes(col))]. *)
Definition commonColumns (sourceSchema targetSchema : Obj ColumnDescriptor)
    (ignore : list string) : list string :=
  filter (λ col, defined targetSchema col = true ∧ col ∉ ignore)
         (Object_keys sourceSchema).

(** [foreignKeyStrategy === "disable" && !dryRun]. *)
Definition toggles (o : MigrationOptions) : bool :=
  bool_decide (foreignKeyStrategy o = "disable") && negb (dryRun o).

(** The guarded call that opens the [try] block. *)
Definition disable_step (o : MigrationOptions) : M unit :=
  if toggles o then disableForeignKeyChecks Target else ret tt.

(** The body of the [finally] block. *)
Definition restore_step (o : MigrationOptions) : M unit :=
  if toggles o then
    try_catch (enableForeignKeyChecks Target)
              (λ err, logger_error ("Error re-enabling foreign key checks: "
                                    +:+ message err))
  else ret tt.

Definition backup_step (tableName : string) (o : MigrationOptions) : M unit :=
  if negb (dryRun o) then backupTable Target tableName ;;; ret tt else ret tt.

Definition truncate_step (tableName : string) (o : MigrationOptions) : M unit :=
  if truncateTarget o && negb (dryRun o) then
    execute Target (TRUNCATE_TABLE tableName) ;;;
    logger_log ("Truncated target table: " +:+ tableName)
  else ret tt.

(** The rows of a SELECT. *)
Definition select (p : pool) (q : statement) : M (list row) :=
  await rs := execute p q in
  match rs with
  | Rows l => ret l
  | _ => throw (mkError "rows is not iterable")
  end.

(** [if (dryRun) { log } else { await Promise.all(rows.map(insert)) }]. *)
Definition write_chunk (tableName : string) (o : MigrationOptions)
    (insertColumns : list string) (rws : list row) : M unit :=
  if dryRun o then
    logger_log ("[Dry Run] Would migrate " +:+ pretty (length rws)
                +:+ " rows for table " +:+ tableName)
  else
    Promise_all
      ((λ r, execute Target
               (INSERT_VALUES tableName insertColumns
                  ((λ col, obj_get col r) <$> insertColumns)))
         <$> rws) ;;;
    ret tt.

(** The rest of one iteration of the [while (true)] loop, after the
    [if (rows.length === 0) break]: the writes of the chunk (or the dry-run
    line), then the count, then the progress line. *)
Definition migrate_chunk (tableName : string) (o : MigrationOptions)
    (insertColumns : list string) (rws : list row) : M unit :=
  write_chunk tableName o insertColumns rws ;;;
  add_rowsMigrated (length rws) ;;;
  await n := get_rowsMigrated in
  logger_log ("Migrated " +:+ pretty n +:+ " rows for table " +:+ tableName).

(** The [while (true)] loop, from [offset]. *)
Fixpoint transfer (fuel : nat) (tableName : string) (o : MigrationOptions)
    (insertColumns : list string) (offset : nat) : M unit :=
  match fuel with
  | O => out_of_fuel
  | S fuel' =>
      await rws := select Source
                     (SELECT_LIMIT insertColumns tableName offset (chunkSize o)) in
      if decide (length rws = 0) then ret tt
      else
        migrate_chunk tableName o insertColumns rws ;;;
        transfer fuel' tableName o insertColumns (offset + chunkSize o)
  end.

Definition no_common_columns (tableName : string) : Error :=
  mkError ("No common columns found for table " +:+ tableName).

(** The [try] block of [migrateTable]. *)
Definition migrateTable_try (fuel : nat) (tableName : string)
    (o : MigrationOptions) : M unit :=
  disable_step o ;;;
  await sourceSchema := getTableSchema Source tableName in
  await targetSchema := getTableSchema Target tableName in
  let cols := commonColumns sourceSchema targetSchema (ignoreColumns o) in
  if decide (length cols = 0) then throw (no_common_columns tableName)
  else
    backup_step tableName o ;;;
    truncate_step tableName o ;;;
    transfer fuel tableName o cols 0 ;;;
    set_success true ;;;
    await n := get_rowsMigrated in
    logger_log ("Successfully migrated " +:+ pretty n
                +:+ " rows for table " +:+ tableName).

(** The [catch (error)] block. *)
Definition migrateTable_catch (tableName : string) (error : Error) : M unit :=
  set_success false ;;;
  push_error (message error) ;;;
  logger_error ("Migration failed for table " +:+ tableName +:+ ": "
                +:+ message error).

(** [const result = { table: tableName, success: false, rowsMigrated: 0,
                      errors: [] }]. *)
Definition new_result (tableName : string) : MigrationResult :=
  mkResult tableName false 0 [].

(** [try { ... } catch (error) { ... }], before the [finally]. *)
Definition migrateTable_guarded (fuel : nat) (tableName : string)
    (o : MigrationOptions) : M unit :=
  try_catch (migrateTable_try fuel tableName o) (migrateTable_catch tableName).

Definition migrateTable (fuel : nat) (tableName : string) (o : MigrationOptions)
    (w : World) : option (Outcome MigrationResult * World) :=
  match
    try_finally (migrateTable_guarded fuel tableName o) (restore_step o)
      (mkState w (new_result tableName))
  with
  | Some (Return _, s) => Some (Return (result s), world s)
  | Some (Throw e, s) => Some (Throw e, world s)
  | None => None
  end.

(** The world a run of [migrateTable] leaves behind. *)
Definition world_left (fuel : nat) (tableName : string) (o : MigrationOptions)
    (w : World) : World :=
  match migrateTable fuel tableName o w with
  | Some (_, w') => w'
  | None => w
  end.

(** [for (const table of tables) results[table] = await this.migrateTable(...)].
    The two pools are created before the loop and ended after it; the pool
    objects themselves are not modelled. *)
Fixpoint migrateTables_from (fuel : nat) (tbls : list string) (o : MigrationOptions)
    (results : Obj MigrationResult) (w : World)
    : option (Outcome (Obj MigrationResult) * World) :=
  match tbls with
  | [] => Some (Return results, w)
  | t :: rest =>
      match migrateTable fuel t o w with
      | Some (Return r, w') => migrateTables_from fuel rest o (assign t r results) w'
      | Some (Throw e, w') => Some (Throw e, w')
      | None => None
      end
  end.

Definition migrateTables (fuel : nat) (tbls : list string) (o : MigrationOptions)
    (w : World) : option (Outcome (Obj MigrationResult) * World) :=
  migrateTables_from fuel tbls o ∅ w.

(** ** Vocabulary of the statements about runs *)

(** The stage of the engine a statement belongs to. *)
Inductive stage := FkToggle | SchemaFetch | Backup | Truncate | ChunkRead | RowWrite.

Definition stage_of (q : statement) : stage :=
  match q with
  | SET_FOREIGN_KEY_CHECKS _ => FkToggle
  | DESCRIBE _ => SchemaFetch
  | CREATE_TABLE_LIKE _ _ | INSERT_SELECT _ _ => Backup
  | TRUNCATE_TABLE _ => Truncate
  | SELECT_LIMIT _ _ _ _ => ChunkRead
  | INSERT_VALUES _ _ _ => RowWrite
  end.


(** The rows of table [t] in a database ([[]] when it has no such table). *)
Definition rows_of (db : Database) (t : string) : list row :=
  match tables db !! t with
  | Some T => rows T
  | None => []
  end.

(** An upper bound on the rows of any one table of the database. *)
Definition row_bound (db : Database) : nat :=
  sum_list ((λ kv, length (rows kv.2)) <$> map_to_list (tables db)).

(** The statements a migration of table [t] under options [o] may hand to
    each pool. *)
Definition issued (t : string) (o : MigrationOptions) (p : pool) (q : statement)
    : Prop :=
  match p, q with
  | Target, SET_FOREIGN_KEY_CHECKS _ => toggles o = true
  | _, DESCRIBE t' => t' = t
  | Target, CREATE_TABLE_LIKE new old =>
      dryRun o = false ∧ old = t ∧ ∃ ts, new = backup_name t ts
  | Target, INSERT_SELECT into from =>
      dryRun o = false ∧ from = t ∧ ∃ ts, into = backup_name t ts
  | Target, TRUNCATE_TABLE t' =>
      t' = t ∧ truncateTarget o = true ∧ dryRun o = false
  | Source, SELECT_LIMIT _ t' _ n => t' = t ∧ n = chunkSize o
  | Target, INSERT_VALUES t' _ _ => t' = t ∧ dryRun o = false
  | _, _ => False
  end.

(** One observable step of the world: a statement that failed, a statement
    that was carried out, or a line on the console. *)
Inductive step (ok : pool → statement → Prop) : World → World → Prop :=
| step_failed p q msg w :
    ok p q →
    step ok w (after_statement p q (Some msg) (database_of p w) w)
| step_done p q rs db' w :
    ok p q →
    run_statement q (database_of p w) = inr (rs, db') →
    step ok w (after_statement p q None db' w)
| step_print l msg w :
    step ok w (print l msg w).

(** [c] returns from state [s]: it does not run out of fuel. *)
Definition returns {A : Type} (c : M A) (s : State) : Prop :=
  ∃ out s', c s = Some (out, s').

Definition total {A : Type} (c : M A) : Prop := ∀ s, returns c s.

(** Statements that only toggle the foreign-key checks or fetch a schema. *)
Definition inspects (p : pool) (q : statement) : Prop :=
  stage_of q = FkToggle ∨ stage_of q = SchemaFetch.

(** Statements up to the backup stage that do not write table [t]. *)
Definition spares (t : string) (p : pool) (q : statement) : Prop :=
  match q with
  | SET_FOREIGN_KEY_CHECKS _ | DESCRIBE _ => True
  | CREATE_TABLE_LIKE new _ => new ≠ t
  | INSERT_SELECT into _ => into ≠ t
  | _ => False
  end.

(** Every run of [c] relates its start and end states by [R]. *)
Definition respects {A : Type} (R : relation State) (c : M A) : Prop :=
  ∀ s out s', c s = Some (out, s') → R s s'.

(** The world moved by steps over statements of [ok]. *)
Definition by_steps (ok : pool → statement → Prop) : relation State :=
  λ s s', rtc (step ok) (world s) (world s').

(** The [result] object was not touched. *)
Definition same_result : relation State :=
  λ s s', result s' = result s.

(** Only [rowsMigrated] and [success] of the [result] object may have been
    written. *)
Definition same_errors : relation State :=
  λ s s', table (result s') = table (result s) ∧
          errors (result s') = errors (result s).

(** The state the [catch] block leaves. *)
Definition caught (t : string) (e : Error) (s : State) : State :=
  mkState
    (print ERROR ("Migration failed for table " +:+ t +:+ ": " +:+ message e)
           (world s))
    (mkResult (table (result s)) false (rowsMigrated (result s))
              (errors (result s) ++ [message e])).

(** The inspection that opens the [try] block, as a run: the guarded
    disabling of the checks and the two schema fetches. *)
Definition inspected (t : string) (o : MigrationOptions) (w : World)
    (S T : Obj ColumnDescriptor) (s3 : State) : Prop :=
  ∃ s1 s2,
    disable_step o (mkState w (new_result t)) = Some (Return (), s1) ∧
    getTableSchema Source t s1 = Some (Return S, s2) ∧
    getTableSchema Target t s2 = Some (Return T, s3).

(** A small world for the examples: a source table [users] of five rows and a
    target table of the same columns holding one row. *)
Definition user_columns : list ColumnInfo :=
  [mkColumnInfo "id" "int" "NO" None "PRI";
   mkColumnInfo "name" "varchar(20)" "YES" None ""].

Definition user (i n : string) : row := [("id", i); ("name", n)].

Definition source_db : Database :=
  mkDatabase {[ "users" := mkTable user_columns
                  [user "1" "a"; user "2" "b"; user "3" "c"; user "4" "d"; user "5" "e"] ]}
             true.

Definition target_db : Database :=
  mkDatabase {[ "users" := mkTable user_columns [user "9" "z"] ]} true.

Definition world_with (plan : list (option string)) : World :=
  mkWorld source_db target_db plan [] [] "20240101T000000".

Definition options (strategy : string) (dry : bool) : MigrationOptions :=
  mkOptions true 2 [] strategy dry.

(** The same options with every column of [users] ignored. *)
Definition options_ignoring_all : MigrationOptions :=
  mkOptions true 2 ["id"; "name"] "disable" false.

(** The schema [getTableSchema] builds for [users]. *)
Definition user_schema : Obj ColumnDescriptor :=
  foldl describe_row ∅ user_columns.

(** The state a computation leaves behind. *)
Definition state_after {A : Type} (c : M A) (s : State) : State :=
  match c s with
  | Some (_, s') => s'
  | None => s
  end.

(** The state of a migration of [users] once the schemas are fetched. *)
Definition users_inspected (o : MigrationOptions) (plan : list (option string))
    : State :=
  state_after
    (disable_step o ;;; getTableSchema Source "users" ;;; getTableSchema Target "users")
    (mkState (world_with plan) (new_result "users")).

(** Three tables of one row each on the source, empty on the target. *)
Definition one_column : list ColumnInfo := [mkColumnInfo "id" "int" "NO" None "PRI"].

Definition three_tables (rws : list row) : Database :=
  mkDatabase {[ "a" := mkTable one_column rws;
                "b" := mkTable one_column rws;
                "c" := mkTable one_column rws ]} true.

(** The statement that fails is the row INSERT of the second table: eight
    statements for the first table, six for the second before its write. *)
Definition second_table_fails : World :=
  mkWorld (three_tables [[("id", "1")]]) (three_tables [])
          (replicate 14 None ++ [Some "Connection lost"]) [] [] "20240101T000000".

Definition preserving : MigrationOptions := mkOptions true 2 [] "preserve" false.

(** The results a run of [migrateTables] returned (none if it did not). *)
Definition results_of (run : option (Outcome (Obj MigrationResult) * World))
    : Obj MigrationResult :=
  match run with
  | Some (Return results, _) => results
  | _ => ∅
  end.

(** ** Vocabulary of the properties of whole runs *)

(** The two [users] tables of the example world. *)
Definition users_source : Table :=
  mkTable user_columns
    [user "1" "a"; user "2" "b"; user "3" "c"; user "4" "d"; user "5" "e"].

Definition users_target : Table := mkTable user_columns [user "9" "z"].

(** The world a run of [migrateTables] leaves behind. *)
Definition worlds_left (fuel : nat) (tbls : list string) (o : MigrationOptions)
    (w : World) : World :=
  match migrateTables fuel tbls o w with
  | Some (_, w') => w'
  | None => w
  end.

(** The same world at another reading of the clock. *)
Definition at_time (ts : string) (w : World) : World :=
  mkWorld (source w) (target w) (faults w) (trace w) (console w) ts.


(** No statement fails for a reason outside the databases. *)
Definition fault_free (w : World) : Prop :=
  Forall (λ f, f = None) (faults w).

(** Row [r] has a value for every column of [cols]. *)
Definition has_columns (cols : list string) (r : row) : Prop :=
  Forall (λ c, is_Some (obj_get c r)) cols.

(** The schema [getTableSchema] answers for a stored table. *)
Definition schema_of (T : Table) : Obj ColumnDescriptor :=
  foldl describe_row ∅ (columns T).

(** A source table with a column named like a member of [Object.prototype]
    and no row, a target table that shares the column [id] with it and holds
    one row, and options that ignore [id]. *)
Definition audit_columns : list ColumnInfo :=
  [mkColumnInfo "id" "int" "NO" None "PRI";
   mkColumnInfo "constructor" "varchar(40)" "YES" None ""].

Definition audit_source : Table := mkTable audit_columns [].

Definition audit_target : Table := mkTable one_column [[("id", "7")]].

Definition audit_world : World :=
  mkWorld (mkDatabase {[ "audit" := audit_source ]} true)
          (mkDatabase {[ "audit" := audit_target ]} true)
          [] [] [] "20240101T000000".

Definition ignoring_id : MigrationOptions := mkOptions true 2 ["id"] "disable" false.

(** The stages of the statements of a trace. *)
Definition stages (evs : list Event) : list stage :=
  (λ ev, stage_of (ev_statement ev)) <$> evs.

End Migrator.

(* ===================================================================== *)
(** * The connection settings: dbConfig.js                                *)
(* ===================================================================== *)

Module Config.
Import Migrator.

(** [process.env]: the variables that are set, each with its text.  The
    names read here all end in [_DB_<NAME>], so none is a member of
    [Object.prototype]. *)
Definition Env := gmap string string.

(** The values of a settings object.  [ParseInt s] stands for the number
    [parseInt(s, 10)], which the code hands to the driver unexamined. *)
Inductive setting :=
| Text (s : string)
| ParseInt (s : string)
| Number (n : Z)
| Boolean (b : bool).

Definition lower_ascii (a : Ascii.ascii) : Ascii.ascii :=
  let n := Ascii.N_of_ascii a in
  if decide (65 ≤ n ≤ 90)%N then Ascii.ascii_of_N (n + 32) else a.

(** [String.prototype.toLowerCase], on the ASCII names it is applied to. *)
Fixpoint toLowerCase (s : string) : string :=
  match s with
  | EmptyString => EmptyString
  | String a rest => String (lower_ascii a) (toLowerCase rest)
  end.

(** [xs.forEach(f)] for a callback that updates [acc] and may throw. *)
Fixpoint forEach {S : Type} (f : string → S → Error + S) (xs : list string)
    (acc : S) : Error + S :=
  match xs with
  | [] => inr acc
  | x :: rest =>
      match f x acc with
      | inl e => inl e
      | inr acc' => forEach f rest acc'
      end
  end.

Definition requiredVars : list string :=
  ["HOST"; "USER"; "PASSWORD"; "DATABASE"; "PORT"].

Definition envVar (prefix varName : string) : string :=
  prefix +:+ "_DB_" +:+ varName.

Definition missing_variable (name : string) : Error :=
  mkError ("Missing required environment variable: " +:+ name).

(** The callback of [getDbConfig]; [!value] holds of [undefined] and of the
    empty text. *)
Definition read_variable (env : Env) (prefix varName : string)
    (config : list (string * setting)) : Error + list (string * setting) :=
  match env !! envVar prefix varName with
  | None => inl (missing_variable (envVar prefix varName))
  | Some value =>
      if decide (value = "") then inl (missing_variable (envVar prefix varName))
      else inr (obj_set (toLowerCase varName)
                  (if decide (varName = "PORT") then ParseInt value else Text value)
                  config)
  end.

(** [{ ...src }] inside an object literal that holds [dst] so far. *)
Definition spread {V : Type} (src dst : list (string * V)) : list (string * V) :=
  foldl (λ o kv, define_own kv.1 kv.2 o) dst src.

Definition getDbConfig (env : Env) (prefix : string)
    : Error + list (string * setting) :=
  match forEach (read_variable env prefix) requiredVars [] with
  | inl e => inl e
  | inr config =>
      inr (define_own "queueLimit" (Number 0)
          (define_own "waitForConnections" (Boolean true)
          (define_own "connectTimeout" (Number 10000)
          (define_own "connectionLimit" (Number 10)
          (spread config [])))))
  end.

(** The constructor of [DatabaseMigrator]: the two settings objects. *)
Definition DatabaseMigrator_new (env : Env)
    : Error + (list (string * setting) * list (string * setting)) :=
  match getDbConfig env "SOURCE" with
  | inl e => inl e
  | inr sourceConfig =>
      match getDbConfig env "TARGET" with
      | inl e => inl e
      | inr targetConfig => inr (sourceConfig, targetConfig)
      end
  end.

(** ** The options of a run: index.js *)

(** A value of [process.env] used as a condition: a text that is not empty. *)
Definition truthy (value : option string) : bool :=
  match value with
  | Some s => bool_decide (s ≠ "")
  | None => false
  end.

(** [value || fallback]. *)
Definition or_default (value : option string) (fallback : string) : string :=
  match value with
  | Some s => if decide (s = "") then fallback else s
  | None => fallback
  end.

(** The options object [runMigration] hands to [migrateTables].  [chunkSize]
    and [ignoreColumns] are taken as the values of the [parseInt] and
    [split]/[trim] expressions of the source; the three other fields are
    read from the environment as the source reads them.  [dryRun] is the
    text of DRY_RUN itself, which [migrateTable] uses as a condition. *)
Definition migration_options (env : Env) (chunkSize : nat)
    (ignoreColumns : list string) : MigrationOptions :=
  mkOptions (bool_decide (env !! "TRUNCATE_TARGET" = Some "true"))
            chunkSize ignoreColumns
            (or_default (env !! "FOREIGN_KEY_STRATEGY") "disable")
            (truthy (env !! "DRY_RUN")).

(** Variable [<prefix>_DB_<varName>] is set to a text that is not empty. *)
Definition provided (env : Env) (prefix varName : string) : Prop :=
  ∃ value, env !! envVar prefix varName = Some value ∧ value ≠ "".

(** An environment for the examples. *)
Definition source_env : Env :=
  list_to_map [("SOURCE_DB_HOST", "db.internal"); ("SOURCE_DB_USER", "app");
               ("SOURCE_DB_PASSWORD", "s3cret"); ("SOURCE_DB_DATABASE", "shop");
               ("SOURCE_DB_PORT", "3306"); ("TARGET_DB_HOST", "localhost");
               ("TARGET_DB_USER", ""); ("TARGET_DB_PORT", "3307")].

(** Environments with a flag spelt in a way the source does not expect. *)
Definition dry_run_false : Env := {[ "DRY_RUN" := "false" ]}.

Definition truncate_upper : Env := {[ "TRUNCATE_TARGET" := "TRUE" ]}.

End Config.

(* ===================================================================== *)
(** * Properties of the orderer                                           *)
(* ===================================================================== *)

Section OrdererFacts.
Import Orderer.

Implicit Types (g : gmap string (list string)) (st : VisitState).

Lemma grows_refl g st : grows g st st [].
Proof.
  unfold grows. split_and!; [set_solver | done | constructor | set_solver].
Qed.

Lemma grows_trans g st1 st2 st3 n1 n2 :
  grows g st1 st2 n1 → grows g st2 st3 n2 → grows g st1 st3 (n2 ++ n1).
Proof.
  intros (Hv1 & Ho1 & Hn1 & Hf1) (Hv2 & Ho2 & Hn2 & Hf2).
  unfold grows. split_and!.
  - rewrite Hv2, Hv1, list_to_set_app_L. set_solver.
  - rewrite Ho2, Ho1. by rewrite app_assoc.
  - apply NoDup_app. split_and!; [done | | done].
    intros x Hx2 Hx1. destruct (Hf2 x Hx2) as [Hnot _].
    apply Hnot. rewrite Hv1. set_solver.
  - intros x Hx. apply elem_of_app in Hx as [Hx | Hx].
    + destruct (Hf2 x Hx) as [Hnot Hd]. split; [| done].
      rewrite Hv1 in Hnot. set_solver.
    + by apply Hf1.
Qed.

(** The number of tables not yet visited: what the recursion consumes. *)
Lemma unvisited_shrinks g (V : gset string) t :
  t ∈ dom g → t ∉ V →
  size (dom g ∖ ({[t]} ∪ V)) < size (dom g ∖ V).
Proof.
  intros Hin Hnot. apply subset_size. set_solver.
Qed.

Lemma unvisited_mono g (V V' : gset string) :
  V ⊆ V' → size (dom g ∖ V') ≤ size (dom g ∖ V).
Proof.
  intros HV. apply subseteq_size. set_solver.
Qed.

Lemma before_app_l x y l0 l : before x y l → before x y (l0 ++ l).
Proof.
  intros (l1 & l2 & l3 & ->). exists (l0 ++ l1), l2, l3. by rewrite app_assoc.
Qed.

Lemma before_head x y l : y ∈ l → before x y (x :: l).
Proof.
  intros Hy. apply list_elem_of_split in Hy as (l2 & l3 & ->).
  by exists [], l2, l3.
Qed.

Lemma path_snoc g a t deps d :
  path g a t → g !! t = Some deps → d ∈ deps → path g a d.
Proof.
  intros Hp Hl Hd.
  induction Hp as [x y deps' Hx Hy | x y z deps' Hx Hy _ IH].
  - eapply path_step; [exact Hx | exact Hy |]. by eapply path_edge.
  - eapply path_step; [exact Hx | exact Hy |]. by apply IH.
Qed.

(** The loop over a list of tables, given what one call of the body does. *)
Lemma for_of_visit_grows depth g :
  (∀ t st, t ∈ dom g → size (dom g ∖ visited st) < depth →
     ∃ st' new, visit depth g t st = inr st' ∧ grows g st st' new
                ∧ t ∈ visited st' ∧ orders_children_first g st [t] new) →
  ∀ xs st, (∀ x, x ∈ xs → x ∈ dom g) →
    size (dom g ∖ visited st) < depth →
    ∃ st' new, for_of (visit depth g) xs st = inr st' ∧ grows g st st' new
               ∧ (∀ x, x ∈ xs → x ∈ visited st')
               ∧ orders_children_first g st xs new.
Proof.
  intros Hbody xs. induction xs as [| x xs IH]; intros st Hxs Hsz.
  - exists st, []. split_and!; [done | apply grows_refl | set_solver |].
    intros _ _ _ y deps d Hy. by apply elem_of_nil in Hy.
  - destruct (Hbody x st) as (st1 & n1 & Hrun & Hg1 & Hx & Hc1); [set_solver | done |].
    assert (Hsub : visited st ⊆ visited st1).
    { destruct Hg1 as (-> & _). set_solver. }
    destruct (IH st1) as (st2 & n2 & Hrest & Hg2 & Hall & Hc2).
    { set_solver. }
    { pose proof (unvisited_mono g _ _ Hsub). lia. }
    exists st2, (n2 ++ n1). simpl. rewrite Hrun. split_and!.
    + done.
    + by eapply grows_trans.
    + intros y Hy. apply elem_of_cons in Hy as [-> | Hy]; [| by apply Hall].
      destruct Hg2 as (-> & _). set_solver.
    + intros Hacyc Hfin Hstack.
      destruct Hg1 as (Hv1 & Ho1 & _ & _).
      assert (Hfirst : children_first g n1 (order st)).
      { apply Hc1; [done | done |]. intros t Ht.
        apply list_elem_of_singleton in Ht as ->. apply Hstack. set_solver. }
      assert (Hsecond : children_first g n2 (order st1)).
      { apply Hc2; [done | |].
        - intros y Hy. rewrite Ho1 in Hy. rewrite Hv1. set_solver.
        - intros t Ht a Ha Hna. apply Hstack; [set_solver | |].
          + rewrite Hv1 in Ha. rewrite Ho1 in Hna. set_solver.
          + rewrite Ho1 in Hna. set_solver. }
      intros y deps d Hy Hl Hd. rewrite <- app_assoc.
      apply elem_of_app in Hy as [Hy | Hy].
      * rewrite <- Ho1. by eapply Hsecond.
      * apply before_app_l. by eapply Hfirst.
Qed.

(** One call of [visit] returns, marks its table, and finishes every table it
    newly reached. *)
Lemma visit_grows depth g :
  closed g →
  ∀ t st, t ∈ dom g → size (dom g ∖ visited st) < depth →
    ∃ st' new, visit depth g t st = inr st' ∧ grows g st st' new
               ∧ t ∈ visited st' ∧ orders_children_first g st [t] new.
Proof.
  intros Hclosed. induction depth as [| depth IH]; intros t st Hin Hsz; [lia |].
  simpl. destruct (decide (t ∈ visited st)) as [Hv | Hv].
  - exists st, []. split_and!; [done | apply grows_refl | done |].
    intros _ _ _ y deps d Hy. by apply elem_of_nil in Hy.
  - apply elem_of_dom in Hin as Hsome. destruct Hsome as [deps Hdeps].
    rewrite Hdeps.
    set (st1 := mkVisit ({[t]} ∪ visited st) (order st)).
    destruct (for_of_visit_grows depth g IH deps st1)
      as (st2 & new & Hrun & (Hv2 & Ho2 & Hn2 & Hf2) & Hall & Hc).
    { intros d Hd. by eapply Hclosed. }
    { pose proof (unvisited_shrinks g (visited st) t Hin Hv). simpl. lia. }
    rewrite Hrun. eexists _, (t :: new). split_and!; [done | | |].
    + simpl in *. unfold grows. simpl. split_and!.
      * rewrite Hv2. set_solver.
      * by rewrite Ho2.
      * constructor; [| done]. intros Hx. destruct (Hf2 t Hx). set_solver.
      * intros x Hx. apply elem_of_cons in Hx as [-> | Hx]; [done |].
        destruct (Hf2 x Hx) as [Hnot Hd]. split; [set_solver | done].
    + simpl. rewrite Hv2. simpl. set_solver.
    + intros Hacyc Hfin Hstack. simpl in *.
      assert (Hnew : children_first g new (order st)).
      { apply Hc; [done | |].
        - intros y Hy. simpl. set_solver.
        - intros d Hd a Ha Hna. simpl in Ha, Hna.
          apply elem_of_union in Ha as [Ha | Ha].
          + apply elem_of_singleton in Ha as ->. by eapply path_edge.
          + eapply path_snoc; [| exact Hdeps | exact Hd].
            apply Hstack; [set_solver | done | done]. }
      intros x deps' d Hx Hl Hd.
      apply elem_of_cons in Hx as [-> | Hx].
      * rewrite Hdeps in Hl. injection Hl as <-. simpl.
        apply before_head.
        specialize (Hall d Hd). rewrite Hv2 in Hall. simpl in Hall.
        apply elem_of_union in Hall as [Hd' | Hd']; [| set_solver].
        apply elem_of_union in Hd' as [Hd' | Hd'].
        -- apply elem_of_singleton in Hd' as ->. destruct Hacyc.
           exists t. by eapply path_edge.
        -- destruct (decide (d ∈ order st)) as [Ho | Ho]; [set_solver |].
           destruct Hacyc. exists t.
           eapply path_step; [exact Hdeps | exact Hd |].
           apply Hstack; [set_solver | done | done].
      * change ((t :: new) ++ order st) with ([t] ++ (new ++ order st)).
        apply before_app_l. by eapply Hnew.
Qed.

Lemma init_graph_from tbls : ∀ g0,
  closed g0 →
  dom (foldl (λ g t, <[t := []]> g) g0 tbls) = dom g0 ∪ list_to_set tbls ∧
  closed (foldl (λ g t, <[t := []]> g) g0 tbls).
Proof.
  induction tbls as [| t tbls IH]; intros g0 Hc; simpl.
  - split; [set_solver | done].
  - destruct (IH (<[t := []]> g0)) as [Hdom Hclosed].
    + intros t' deps d Hl Hd. rewrite dom_insert_L.
      destruct (decide (t = t')) as [<- | Hne].
      * rewrite lookup_insert_eq in Hl. set_solver.
      * rewrite lookup_insert_ne in Hl by done.
        apply elem_of_union_r. by eapply Hc.
    + split; [| done]. rewrite Hdom, dom_insert_L. set_solver.
Qed.

Lemma init_graph_over tbls : graph_over tbls (init_graph tbls).
Proof.
  destruct (init_graph_from tbls ∅) as [Hdom Hclosed].
  - intros t deps d Hl. by rewrite lookup_empty in Hl.
  - split; [| done]. unfold init_graph. rewrite Hdom. set_solver.
Qed.

Lemma add_dependency_over tbls t fk g :
  t ∈ tbls → graph_over tbls g →
  ∃ g', add_dependency tbls t fk g = inr g' ∧ graph_over tbls g'.
Proof.
  intros Ht [Hdom Hclosed]. unfold add_dependency.
  destruct (decide (TABLE_NAME fk ∈ tbls)) as [Hin | Hout];
    [| by exists g].
  assert (Hk : TABLE_NAME fk ∈ dom g) by (rewrite Hdom; set_solver).
  apply elem_of_dom in Hk as [s Hs]. rewrite Hs. eexists. split; [done |].
  split.
  - rewrite dom_insert_L, Hdom. set_solver.
  - intros t' deps d Hl Hd. rewrite dom_insert_L.
    apply elem_of_union_r.
    destruct (decide (TABLE_NAME fk = t')) as [<- | Hne].
    + rewrite lookup_insert_eq in Hl. injection Hl as <-.
      unfold set_add in Hd. destruct (decide (t ∈ s)).
      * by eapply Hclosed.
      * apply elem_of_app in Hd as [Hd | Hd]; [by eapply Hclosed |].
        apply list_elem_of_singleton in Hd as ->. rewrite Hdom. set_solver.
    + rewrite lookup_insert_ne in Hl by done. by eapply Hclosed.
Qed.

Lemma add_dependencies_over tbls t fks : ∀ g,
  t ∈ tbls → graph_over tbls g →
  ∃ g', add_dependencies tbls t fks g = inr g' ∧ graph_over tbls g'.
Proof.
  induction fks as [| fk fks IH]; intros g Ht Hg; simpl.
  - by exists g.
  - destruct (add_dependency_over tbls t fk g Ht Hg) as (g1 & -> & Hg1).
    by apply IH.
Qed.

Lemma build_graph_over conn tbls : ∀ todo g,
  (∀ t, t ∈ todo → t ∈ tbls ∧ ∃ fks, conn t = inr fks) →
  graph_over tbls g →
  ∃ g', build_graph conn tbls todo g = inr g' ∧ graph_over tbls g'.
Proof.
  induction todo as [| t todo IH]; intros g Hq Hg; simpl.
  - by exists g.
  - destruct (Hq t) as (Ht & fks & ->); [set_solver |].
    destruct (add_dependencies_over tbls t fks g Ht Hg) as (g1 & -> & Hg1).
    apply IH; [| done]. intros t' Ht'. apply Hq. set_solver.
Qed.

Lemma build_graph_inv conn tbls : ∀ todo g g',
  (∀ t, t ∈ todo → t ∈ tbls) → graph_over tbls g →
  build_graph conn tbls todo g = inr g' → graph_over tbls g'.
Proof.
  induction todo as [| t todo IH]; intros g g' Hsub Hg; simpl.
  - by intros [= <-].
  - destruct (conn t) as [e | fks]; [done |].
    destruct (add_dependencies_over tbls t fks g) as (g1 & -> & Hg1);
      [set_solver | done |].
    apply IH; [set_solver | done].
Qed.

Lemma path_starts_at_key g x y : path g x y → x ∈ dom g.
Proof.
  intros Hp. destruct Hp as [x y deps Hl _ | x y z deps Hl _ _];
    apply elem_of_dom; by exists deps.
Qed.

Lemma size_list_to_set_le (l : list string) :
  size (list_to_set l : gset string) ≤ length l.
Proof.
  induction l as [| x l IH].
  - rewrite list_to_set_nil, size_empty. simpl. lia.
  - rewrite list_to_set_cons, size_union_alt, size_singleton. simpl.
    assert (Hsub : size ((list_to_set l : gset string) ∖ {[x]})
                   ≤ size (list_to_set l : gset string)).
    { apply subseteq_size. set_solver. }
    lia.
Qed.

(** What [getMigrationOrder] returns once the graph is built: it needs no
    more depth than there are tables, every table stands in the order exactly
    once, and without a cycle every table stands before the tables it
    references. *)
Lemma order_of_graph tbls g depth :
  graph_over tbls g → length tbls < depth →
  ∃ st, for_of (visit depth g) tbls (mkVisit ∅ []) = inr st ∧
        NoDup (order st) ∧ (∀ t, t ∈ order st ↔ t ∈ tbls) ∧
        (¬ cyclic g →
         ∀ child deps parent,
           g !! child = Some deps → parent ∈ deps → before child parent (order st)).
Proof.
  intros [Hdom Hclosed] Hdepth.
  destruct (for_of_visit_grows depth g (visit_grows depth g Hclosed) tbls (mkVisit ∅ []))
    as (st & new & Hrun & (Hv & Ho & Hn & Hf) & Hall & Hc).
  - intros x Hx. rewrite Hdom. set_solver.
  - simpl. pose proof (size_list_to_set_le tbls).
    assert (Hs : size (dom g ∖ ∅) ≤ size (dom g)).
    { apply subseteq_size. set_solver. }
    rewrite Hdom in Hs at 2. lia.
  - exists st. split; [done |]. simpl in *. rewrite app_nil_r in Ho.
    rewrite Ho. split; [done |].
    assert (Hmem : ∀ t, t ∈ new ↔ t ∈ tbls).
    { intros t. split.
      - intros Ht. destruct (Hf t Ht) as [_ Hd]. rewrite Hdom in Hd. set_solver.
      - intros Ht. specialize (Hall t Ht). rewrite Hv in Hall. set_solver. }
    split; [done |]. intros Hacyc child deps parent Hl Hp.
    rewrite <- (app_nil_r new). eapply Hc; [done | set_solver | | | exact Hl | exact Hp].
    + intros t _ a Ha. set_solver.
    + apply Hmem. assert (Hchild : child ∈ dom g) by (apply elem_of_dom; eauto).
      rewrite Hdom in Hchild. set_solver.
Qed.

(** Without a cycle the order is children first, for every working set: each
    table stands before every table it references. *)
Lemma getMigrationOrder_children_first conn tbls g depth :
  build_graph conn tbls tbls (init_graph tbls) = inr g →
  ¬ cyclic g →
  length tbls < depth →
  ∃ ord, getMigrationOrder conn depth tbls = inr ord ∧
         ∀ child deps parent,
           g !! child = Some deps → parent ∈ deps → before child parent ord.
Proof.
  intros Hbuild Hacyc Hdepth.
  assert (Hg : graph_over tbls g).
  { eapply build_graph_inv; [| apply init_graph_over | exact Hbuild]. done. }
  destruct (order_of_graph tbls g depth Hg Hdepth) as (st & Hrun & _ & _ & Hfirst).
  exists (order st). unfold getMigrationOrder. rewrite Hbuild, Hrun.
  split; [done |]. by apply Hfirst.
Qed.

(** ** The edges of the graph are the foreign keys of the catalogue *)

Lemma add_dependency_edges tbls t fk g g' :
  add_dependency tbls t fk g = inr g' →
  (∀ c p, edge g c p → edge g' c p) ∧
  (TABLE_NAME fk ∈ tbls → edge g' (TABLE_NAME fk) t).
Proof.
  unfold add_dependency. destruct (decide (TABLE_NAME fk ∈ tbls)) as [Hin | Hout].
  - destruct (g !! TABLE_NAME fk) as [s |] eqn:Hs; [| done]. intros [= <-].
    assert (Hsub : ∀ x, x ∈ s → x ∈ set_add t s).
    { intros x Hx. unfold set_add. destruct (decide (t ∈ s)); set_solver. }
    split.
    + intros c p (deps & Hl & Hp). unfold edge.
      destruct (decide (TABLE_NAME fk = c)) as [<- | Hne].
      * rewrite lookup_insert_eq. eexists. split; [done |].
        rewrite Hs in Hl. injection Hl as <-. by apply Hsub.
      * rewrite lookup_insert_ne by done. by exists deps.
    + intros _. unfold edge. rewrite lookup_insert_eq. eexists. split; [done |].
      unfold set_add. destruct (decide (t ∈ s)); set_solver.
  - intros [= <-]. split; [done | done].
Qed.

Lemma add_dependencies_edges tbls t fks : ∀ g g',
  add_dependencies tbls t fks g = inr g' →
  (∀ c p, edge g c p → edge g' c p) ∧
  (∀ fk, fk ∈ fks → TABLE_NAME fk ∈ tbls → edge g' (TABLE_NAME fk) t).
Proof.
  induction fks as [| fk fks IH]; intros g g'; simpl.
  - intros [= <-]. split; [done |]. intros fk Hfk. by apply elem_of_nil in Hfk.
  - destruct (add_dependency tbls t fk g) as [e | g1] eqn:H1; [done |].
    intros Hrest. apply add_dependency_edges in H1 as [Hkeep1 Hnew1].
    apply IH in Hrest as [Hkeep2 Hnew2]. split.
    + intros c p Hc. by apply Hkeep2, Hkeep1.
    + intros fk' Hfk' Hin. apply elem_of_cons in Hfk' as [-> | Hfk'].
      * by apply Hkeep2, Hnew1.
      * by apply Hnew2.
Qed.

Lemma build_graph_edges fks tbls : ∀ todo g g',
  build_graph (catalogue fks) tbls todo g = inr g' →
  (∀ c p, edge g c p → edge g' c p) ∧
  (∀ fk, fk ∈ fks → REFERENCED_TABLE_NAME fk ∈ todo → TABLE_NAME fk ∈ tbls →
     edge g' (TABLE_NAME fk) (REFERENCED_TABLE_NAME fk)).
Proof.
  induction todo as [| t todo IH]; intros g g'; simpl.
  - intros [= <-]. split; [done |]. intros fk _ Hin. by apply elem_of_nil in Hin.
  - destruct (add_dependencies tbls t _ g) as [e | g1] eqn:H1; [done |].
    intros Hrest. apply add_dependencies_edges in H1 as [Hkeep1 Hnew1].
    apply IH in Hrest as [Hkeep2 Hnew2]. split.
    + intros c p Hc. by apply Hkeep2, Hkeep1.
    + intros fk Hfk Href Hin. apply elem_of_cons in Href as [Href | Href].
      * apply Hkeep2. rewrite Href. apply Hnew1; [| done].
        apply list_elem_of_filter. by split.
      * by apply Hnew2.
Qed.

(** For every catalogue whose foreign keys form no cycle over the working
    set, and every foreign key between two tables of the set, the order
    computed places the referencing table before the referenced one. *)
Lemma getMigrationOrder_child_before_parent fks tbls g depth :
  build_graph (catalogue fks) tbls tbls (init_graph tbls) = inr g →
  ¬ cyclic g →
  length tbls < depth →
  ∃ ord, getMigrationOrder (catalogue fks) depth tbls = inr ord ∧
         ∀ fk, fk ∈ fks →
           TABLE_NAME fk ∈ tbls → REFERENCED_TABLE_NAME fk ∈ tbls →
           before (TABLE_NAME fk) (REFERENCED_TABLE_NAME fk) ord.
Proof.
  intros Hbuild Hacyc Hdepth.
  destruct (getMigrationOrder_children_first _ _ _ _ Hbuild Hacyc Hdepth)
    as (ord & Hrun & Hfirst).
  exists ord. split; [done |]. intros fk Hfk Hchild Hparent.
  apply build_graph_edges in Hbuild as [_ Hedges].
  destruct (Hedges fk Hfk Hparent Hchild) as (deps & Hl & Hp).
  by eapply Hfirst.
Qed.

(** C1: on the chain A <- B <- C the order computed is C, B, A: each child
    stands before the table it references, and neither A before B nor B
    before C holds. *)
Theorem getMigrationOrder_chain_children_first :
  getMigrationOrder (catalogue chain) 4 ["A"; "B"; "C"]
    = inr ["C"; "B"; "A"] ∧
  ¬ before "A" "B" ["C"; "B"; "A"] ∧
  ¬ before "B" "C" ["C"; "B"; "A"].
Proof.
  split; [by vm_compute |].
  split; intros (l1 & l2 & l3 & Heq);
    destruct l1 as [| ? [| ? [| ? [| ? ?]]]]; simplify_eq/=;
    destruct l2 as [| ? [| ? [| ? ?]]]; simplify_eq/=.
Qed.

(** C2 (as amended): when the foreign keys of the working set form a cycle
    and the call stack has room for one call of [visit] per table and one
    more, the orderer returns an order, and the tables of the cycle are in
    it; no error is raised for the cycle. *)
Theorem getMigrationOrder_cycle_returns_order conn tbls g depth :
  build_graph conn tbls tbls (init_graph tbls) = inr g →
  cyclic g →
  length tbls < depth →
  ∃ ord, getMigrationOrder conn depth tbls = inr ord ∧
         ∀ t, path g t t → t ∈ ord.
Proof.
  intros Hbuild _ Hdepth.
  assert (Hg : graph_over tbls g).
  { eapply build_graph_inv; [| apply init_graph_over | exact Hbuild]. done. }
  destruct (order_of_graph tbls g depth Hg Hdepth) as (st & Hrun & _ & Hmem & _).
  exists (order st). unfold getMigrationOrder. rewrite Hbuild, Hrun.
  split; [done |]. intros t Hp. apply Hmem.
  apply path_starts_at_key in Hp. destruct Hg as [Hdom _].
  rewrite Hdom in Hp. set_solver.
Qed.

Lemma mutual_graph :
  build_graph (catalogue mutual) ["A"; "B"] ["A"; "B"] (init_graph ["A"; "B"])
    = inr (<["A" := ["B"]]> (<["B" := ["A"]]> ∅)).
Proof. by vm_compute. Qed.

Lemma mutual_cyclic : cyclic (<["A" := ["B"]]> (<["B" := ["A"]]> ∅)).
Proof.
  exists "A". eapply (path_step _ "A" "B" "A" ["B"]).
  - by vm_compute.
  - set_solver.
  - eapply (path_edge _ "B" "A" ["A"]); [by vm_compute | set_solver].
Qed.

Lemma getMigrationOrder_cycle_returns_order_witness :
  build_graph (catalogue mutual) ["A"; "B"] ["A"; "B"] (init_graph ["A"; "B"])
    = inr (<["A" := ["B"]]> (<["B" := ["A"]]> ∅)) ∧
  cyclic (<["A" := ["B"]]> (<["B" := ["A"]]> ∅)) ∧
  length ["A"; "B"] < 3 ∧
  ∃ ord, getMigrationOrder (catalogue mutual) 3 ["A"; "B"] = inr ord ∧
         ∀ t, path (<["A" := ["B"]]> (<["B" := ["A"]]> ∅)) t t → t ∈ ord.
Proof.
  split; [exact mutual_graph |].
  split; [exact mutual_cyclic |].
  split; [simpl; lia |].
  apply (getMigrationOrder_cycle_returns_order (catalogue mutual) ["A"; "B"]
           (<["A" := ["B"]]> (<["B" := ["A"]]> ∅)) 3).
  - exact mutual_graph.
  - exact mutual_cyclic.
  - simpl; lia.
Defined.

(** C2 (as stated) fails: with A referencing B and B referencing A the graph
    has a cycle, yet the orderer returns the order A, B and raises nothing. *)
Lemma getMigrationOrder_cycle_not_reported :
  (∃ g, build_graph (catalogue mutual) ["A"; "B"] ["A"; "B"] (init_graph ["A"; "B"])
          = inr g ∧ cyclic g) ∧
  getMigrationOrder (catalogue mutual) 3 ["A"; "B"] = inr ["A"; "B"] ∧
  ¬ ∃ e, getMigrationOrder (catalogue mutual) 3 ["A"; "B"] = inl e.
Proof.
  split; [eexists; split; [exact mutual_graph | exact mutual_cyclic] |].
  split; [by vm_compute |].
  intros [e He]. by vm_compute in He.
Qed.

(** C10 (as amended): for every working set and every foreign-key catalogue
    that answers the queries, cyclic or not, [getMigrationOrder] returns when
    the call stack has room for more calls of [visit] than there are tables,
    and the order it returns holds every table of the working set exactly
    once. *)
Theorem getMigrationOrder_total_every_table_once conn tbls depth :
  (∀ t, t ∈ tbls → ∃ fks, conn t = inr fks) →
  length tbls < depth →
  ∃ ord, getMigrationOrder conn depth tbls = inr ord ∧
         NoDup ord ∧ ∀ t, t ∈ ord ↔ t ∈ tbls.
Proof.
  intros Hconn Hdepth.
  destruct (build_graph_over conn tbls tbls (init_graph tbls))
    as (g & Hbuild & Hg).
  { intros t Ht. split; [done | by apply Hconn]. }
  { apply init_graph_over. }
  destruct (order_of_graph tbls g depth Hg Hdepth) as (st & Hrun & Hnd & Hmem & _).
  exists (order st). unfold getMigrationOrder. by rewrite Hbuild, Hrun.
Qed.

Lemma getMigrationOrder_total_every_table_once_witness :
  (∀ t, t ∈ ["A"; "B"] → ∃ fks, catalogue mutual t = inr fks) ∧
  length ["A"; "B"] < 3 ∧
  ∃ ord, getMigrationOrder (catalogue mutual) 3 ["A"; "B"] = inr ord ∧
         NoDup ord ∧ ∀ t, t ∈ ord ↔ t ∈ ["A"; "B"].
Proof.
  split; [intros t _; eexists; reflexivity |].
  split; [simpl; lia |].
  apply (getMigrationOrder_total_every_table_once (catalogue mutual) ["A"; "B"] 3).
  - intros t _; eexists; reflexivity.
  - simpl; lia.
Defined.

(** ** Foreign keys that do not count *)

Lemma add_dependencies_inside tbls t : ∀ fks g,
  add_dependencies tbls t fks g
  = add_dependencies tbls t (filter (λ fk, TABLE_NAME fk ∈ tbls) fks) g.
Proof.
  induction fks as [| fk fks IH]; intros g; [done |].
  destruct (decide (TABLE_NAME fk ∈ tbls)) as [Hin | Hout].
  - rewrite filter_cons_True by done. simpl.
    destruct (add_dependency tbls t fk g); [done | apply IH].
  - rewrite filter_cons_False by done. simpl.
    unfold add_dependency.
    destruct (decide (TABLE_NAME fk ∈ tbls)); [done | apply IH].
Qed.

Lemma build_graph_inside fks tbls : ∀ todo g,
  (∀ t, t ∈ todo → t ∈ tbls) →
  build_graph (catalogue fks) tbls todo g
  = build_graph (catalogue (filter (inside tbls) fks)) tbls todo g.
Proof.
  induction todo as [| t todo IH]; intros g Hsub; [done |]. simpl.
  rewrite (add_dependencies_inside tbls t
             (filter (λ fk, REFERENCED_TABLE_NAME fk = t) fks)).
  rewrite (add_dependencies_inside tbls t
             (filter (λ fk, REFERENCED_TABLE_NAME fk = t) (filter (inside tbls) fks))).
  assert (Heq : filter (λ fk, TABLE_NAME fk ∈ tbls)
                  (filter (λ fk, REFERENCED_TABLE_NAME fk = t) fks)
                = filter (λ fk, TABLE_NAME fk ∈ tbls)
                    (filter (λ fk, REFERENCED_TABLE_NAME fk = t)
                       (filter (inside tbls) fks))).
  { rewrite !list_filter_filter. apply list_filter_iff. intros fk. unfold inside.
    split; [| naive_solver]. intros (Hin & Href). split_and!; try done.
    rewrite Href. apply Hsub. apply list_elem_of_here. }
  rewrite Heq.
  destruct (add_dependencies tbls t _ g) as [e | g1]; [done |].
  apply IH. intros t' Ht'. apply Hsub. by apply list_elem_of_further.
Qed.

Lemma getMigrationOrder_ignores_outside_keys_aux fks tbls depth :
  getMigrationOrder (catalogue fks) depth tbls
  = getMigrationOrder (catalogue (filter (inside tbls) fks)) depth tbls.
Proof.
  unfold getMigrationOrder. by rewrite (build_graph_inside fks tbls tbls).
Qed.

(** X11: only the foreign keys between two tables of the working set count:
    the order computed from a catalogue is the order computed from the
    catalogue restricted to those keys. *)
Theorem getMigrationOrder_ignores_outside_keys fks tbls depth :
  getMigrationOrder (catalogue fks) depth tbls
  = getMigrationOrder (catalogue (filter (inside tbls) fks)) depth tbls.
Proof. apply getMigrationOrder_ignores_outside_keys_aux. Qed.

(** ** A working set without foreign keys *)

Lemma init_graph_empty_sets tbls : ∀ g0,
  (∀ t deps, g0 !! t = Some deps → deps = []) →
  ∀ t deps, foldl (λ g t, <[t := []]> g) g0 tbls !! t = Some deps → deps = [].
Proof.
  induction tbls as [| t0 tbls IH]; intros g0 Hg0; simpl; [done |].
  apply IH. intros t deps Hl.
  destruct (decide (t0 = t)) as [<- | Hne].
  - rewrite lookup_insert_eq in Hl. by injection Hl.
  - rewrite lookup_insert_ne in Hl by done. by eapply Hg0.
Qed.

Lemma init_graph_lookup tbls t : t ∈ tbls → init_graph tbls !! t = Some [].
Proof.
  intros Ht. destruct (init_graph_over tbls) as [Hdom _].
  assert (Hin : t ∈ dom (init_graph tbls)) by (rewrite Hdom; set_solver).
  apply elem_of_dom in Hin as [deps Hl]. rewrite Hl. f_equal.
  eapply (init_graph_empty_sets tbls ∅); [| exact Hl].
  intros t' deps' Hl'. by rewrite lookup_empty in Hl'.
Qed.

Lemma build_graph_empty_catalogue tbls : ∀ todo g,
  build_graph (catalogue []) tbls todo g = inr g.
Proof. induction todo as [| t todo IH]; intros g; [done | apply IH]. Qed.

Lemma filter_none {A} (P : A → Prop) `{!∀ x, Decision (P x)} (l : list A) :
  (∀ x, x ∈ l → ¬ P x) → filter P l = [].
Proof.
  induction l as [| x l IH]; intros Hnone; [done |].
  rewrite filter_cons_False by (apply Hnone, list_elem_of_here).
  apply IH. intros y Hy. by apply Hnone, list_elem_of_further.
Qed.

(** A table that references nothing is marked and unshifted at once. *)
Lemma visit_leaf depth g x st :
  g !! x = Some [] →
  visit (S depth) g x st
  = inr (if decide (x ∈ visited st) then st
               else mkVisit ({[x]} ∪ visited st) (x :: order st)).
Proof.
  intros Hl. simpl. destruct (decide (x ∈ visited st)); [done |]. by rewrite Hl.
Qed.

Lemma for_of_leaves depth g : ∀ xs seen st,
  (∀ x, x ∈ xs → g !! x = Some []) →
  visited st = list_to_set seen →
  order st = remove_dups (reverse seen) →
  ∃ st', for_of (visit (S depth) g) xs st = inr st' ∧
         order st' = remove_dups (reverse (seen ++ xs)).
Proof.
  induction xs as [| x xs IH]; intros seen st Hleaf Hv Ho.
  - exists st. by rewrite app_nil_r.
  - cbn [for_of]. rewrite visit_leaf by (apply Hleaf, list_elem_of_here).
    assert (Hrev : remove_dups (reverse (seen ++ [x]))
                   = if decide (x ∈ seen) then remove_dups (reverse seen)
                     else x :: remove_dups (reverse seen)).
    { rewrite reverse_snoc. simpl.
      destruct (decide_rel elem_of x (reverse seen)) as [Hin | Hout];
        destruct (decide (x ∈ seen)) as [Hin' | Hout']; try done.
      - destruct Hout'. by apply elem_of_reverse.
      - destruct Hout. by apply elem_of_reverse. }
    destruct (decide (x ∈ visited st)) as [Hin | Hout].
    + destruct (IH (seen ++ [x]) st) as (st' & Hrun & Ho').
      * intros y Hy. by apply Hleaf, list_elem_of_further.
      * rewrite Hv, list_to_set_app_L. rewrite Hv in Hin. set_solver.
      * rewrite Hrev, decide_True; [done |].
        rewrite Hv in Hin. by apply elem_of_list_to_set in Hin.
      * exists st'. split; [done |]. by rewrite Ho', <- app_assoc.
    + destruct (IH (seen ++ [x]) (mkVisit ({[x]} ∪ visited st) (x :: order st)))
        as (st' & Hrun & Ho').
      * intros y Hy. by apply Hleaf, list_elem_of_further.
      * simpl. rewrite Hv, list_to_set_app_L. set_solver.
      * simpl. rewrite Hrev, decide_False, Ho; [done |].
        intros Hx. apply Hout. rewrite Hv. by apply elem_of_list_to_set.
      * exists st'. split; [done |]. by rewrite Ho', <- app_assoc.
Qed.

(** X12: when no foreign key links two tables of the working set, the order
    returned is the working set reversed, each table kept once: every table
    is unshifted as soon as it is met for the first time. *)
Theorem getMigrationOrder_without_keys_reverses fks tbls depth :
  (∀ fk, fk ∈ fks → ¬ inside tbls fk) →
  0 < depth →
  getMigrationOrder (catalogue fks) depth tbls
  = inr (remove_dups (reverse tbls)).
Proof.
  intros Hnone Hdepth. rewrite getMigrationOrder_ignores_outside_keys_aux.
  rewrite (filter_none _ _ Hnone). unfold getMigrationOrder.
  rewrite build_graph_empty_catalogue.
  destruct depth as [| depth]; [lia |].
  destruct (for_of_leaves depth (init_graph tbls) tbls [] (mkVisit ∅ []))
    as (st' & Hrun & Ho); [| done | done |].
  - intros x Hx. by apply init_graph_lookup.
  - by rewrite Hrun, Ho.
Qed.

Lemma getMigrationOrder_without_keys_reverses_witness :
  (∀ fk, fk ∈ [references "orders" "customers"] → ¬ inside ["a"; "b"; "a"; "c"] fk) ∧
  0 < 1 ∧
  getMigrationOrder (catalogue [references "orders" "customers"]) 1 ["a"; "b"; "a"; "c"]
  = inr (remove_dups (reverse ["a"; "b"; "a"; "c"])).
Proof.
  assert (Hnone : ∀ fk, fk ∈ [references "orders" "customers"]
                        → ¬ inside ["a"; "b"; "a"; "c"] fk).
  { intros fk Hfk [Hin _]. apply list_elem_of_singleton in Hfk as ->.
    simpl in Hin. set_solver. }
  split; [exact Hnone |]. split; [lia |].
  apply (getMigrationOrder_without_keys_reverses
           [references "orders" "customers"] ["a"; "b"; "a"; "c"] 1 Hnone). lia.
Defined.

(** ** A catalogue query that fails *)

Lemma build_graph_query_error conn tbls t0 post e : ∀ pre g,
  (∀ t, t ∈ pre → t ∈ tbls ∧ ∃ fks, conn t = inr fks) →
  graph_over tbls g →
  conn t0 = inl e →
  build_graph conn tbls (pre ++ t0 :: post) g = inl e.
Proof.
  induction pre as [| t pre IH]; intros g Hpre Hg Hfail; simpl.
  - by rewrite Hfail.
  - destruct (Hpre t) as (Ht & fks & ->); [apply list_elem_of_here |].
    destruct (add_dependencies_over tbls t fks g Ht Hg) as (g1 & -> & Hg1).
    apply IH; [| done | done]. intros t' Ht'. by apply Hpre, list_elem_of_further.
Qed.

(** X13: [getMigrationOrder] does not catch the errors of its catalogue
    queries: when the query of a table fails, the queries of the tables
    before it having been answered, it throws that error and returns no
    order, however many tables follow. *)
Theorem getMigrationOrder_query_error conn pre t0 post e depth :
  (∀ t, t ∈ pre → ∃ fks, conn t = inr fks) →
  conn t0 = inl e →
  getMigrationOrder conn depth (pre ++ t0 :: post) = inl e.
Proof.
  intros Hpre Hfail. unfold getMigrationOrder.
  rewrite (build_graph_query_error conn (pre ++ t0 :: post) t0 post e pre); try done.
  - intros t Ht. split; [set_solver | by apply Hpre].
  - apply init_graph_over.
Qed.

Lemma getMigrationOrder_query_error_witness :
  let conn := λ t, if decide (t = "B") then inl (mkError "Connection lost")
                   else catalogue chain t in
  (∀ t, t ∈ ["A"] → ∃ fks, conn t = inr fks) ∧
  conn "B" = inl (mkError "Connection lost") ∧
  getMigrationOrder conn 4 (["A"] ++ "B" :: ["C"]) = inl (mkError "Connection lost").
Proof.
  intros conn.
  assert (Hpre : ∀ t, t ∈ ["A"] → ∃ fks, conn t = inr fks).
  { intros t Ht. apply list_elem_of_singleton in Ht as ->. by eexists. }
  split; [exact Hpre |]. split; [reflexivity |].
  apply (getMigrationOrder_query_error conn ["A"] "B" ["C"]
           (mkError "Connection lost") 4 Hpre). reflexivity.
Defined.

(** ** Foreign keys without a cycle *)

Lemma add_dependency_edges_inv tbls t fk g g' :
  add_dependency tbls t fk g = inr g' →
  ∀ c p, edge g' c p →
    edge g c p ∨ (c = TABLE_NAME fk ∧ p = t ∧ c ∈ tbls).
Proof.
  unfold add_dependency. destruct (decide (TABLE_NAME fk ∈ tbls)) as [Hin | Hout].
  - destruct (g !! TABLE_NAME fk) as [s |] eqn:Hs; [| done]. intros [= <-].
    intros c p (deps & Hl & Hp).
    destruct (decide (TABLE_NAME fk = c)) as [<- | Hne].
    + rewrite lookup_insert_eq in Hl. injection Hl as <-.
      unfold set_add in Hp. destruct (decide (t ∈ s)) as [Ht | Ht].
      * left. by exists s.
      * apply elem_of_app in Hp as [Hp | Hp].
        -- left. by exists s.
        -- apply list_elem_of_singleton in Hp. by right.
    + rewrite lookup_insert_ne in Hl by done. left. by exists deps.
  - intros [= <-] c p Hedge. by left.
Qed.

Lemma add_dependencies_edges_inv tbls t : ∀ fks g g',
  add_dependencies tbls t fks g = inr g' →
  ∀ c p, edge g' c p →
    edge g c p ∨ ∃ fk, fk ∈ fks ∧ c = TABLE_NAME fk ∧ p = t ∧ c ∈ tbls.
Proof.
  induction fks as [| fk fks IH]; intros g g'; simpl.
  - intros [= <-] c p Hedge. by left.
  - destruct (add_dependency tbls t fk g) as [e | g1] eqn:H1; [done |].
    intros Hrest c p Hedge.
    destruct (IH _ _ Hrest c p Hedge) as [Hold | (fk' & Hfk' & Hrel)].
    + destruct (add_dependency_edges_inv _ _ _ _ _ H1 c p Hold) as [Hg | Hnew].
      * by left.
      * right. exists fk. split; [apply list_elem_of_here | done].
    + right. exists fk'. split; [by apply list_elem_of_further | done].
Qed.

Lemma build_graph_edges_inv fks tbls : ∀ todo g g',
  build_graph (catalogue fks) tbls todo g = inr g' →
  ∀ c p, edge g' c p →
    edge g c p ∨
    ∃ fk, fk ∈ fks ∧ c = TABLE_NAME fk ∧ p = REFERENCED_TABLE_NAME fk ∧ c ∈ tbls.
Proof.
  induction todo as [| t todo IH]; intros g g'; simpl.
  - intros [= <-] c p Hedge. by left.
  - destruct (add_dependencies tbls t _ g) as [e | g1] eqn:H1; [done |].
    intros Hrest c p Hedge.
    destruct (IH _ _ Hrest c p Hedge) as [Hold | Hnew]; [| by right].
    destruct (add_dependencies_edges_inv _ _ _ _ _ H1 c p Hold)
      as [Hg | (fk & Hfk & -> & -> & Hin)]; [by left |].
    apply list_elem_of_filter in Hfk as [Href Hfk].
    right. by exists fk.
Qed.

Lemma init_graph_no_edge tbls c p : ¬ edge (init_graph tbls) c p.
Proof.
  intros (deps & Hl & Hp).
  assert (deps = []) as ->; [| by apply elem_of_nil in Hp].
  eapply (init_graph_empty_sets tbls ∅); [| exact Hl].
  intros t' deps' Hl'. by rewrite lookup_empty in Hl'.
Qed.

(** A rank that decreases along every edge rules out a cycle. *)
Lemma ranked_acyclic g (rank : string → nat) :
  (∀ c p, edge g c p → rank p < rank c) → ¬ cyclic g.
Proof.
  intros Hrank [t Hcycle].
  assert (Hpath : ∀ x y, path g x y → rank y < rank x).
  { induction 1 as [x y deps Hl Hy | x y z deps Hl Hy _ IH].
    - apply Hrank. by exists deps.
    - assert (rank y < rank x) by (apply Hrank; by exists deps). lia. }
  apply Hpath in Hcycle. lia.
Qed.

(** X10: when the foreign keys between the tables of the working set form no
    cycle (some rank decreases from each referencing table to the table it
    references), [getMigrationOrder] returns once the depth exceeds the number
    of tables, and in its order every referencing table stands before the
    table it references. *)
Theorem getMigrationOrder_acyclic_children_first fks tbls (rank : string → nat) depth :
  (∀ fk, fk ∈ fks → inside tbls fk →
     rank (REFERENCED_TABLE_NAME fk) < rank (TABLE_NAME fk)) →
  length tbls < depth →
  ∃ ord, getMigrationOrder (catalogue fks) depth tbls = inr ord ∧
         ∀ fk, fk ∈ fks → inside tbls fk →
           before (TABLE_NAME fk) (REFERENCED_TABLE_NAME fk) ord.
Proof.
  intros Hrank Hdepth.
  destruct (build_graph_over (catalogue fks) tbls tbls (init_graph tbls))
    as (g & Hbuild & Hg).
  { intros t Ht. split; [done | by eexists]. }
  { apply init_graph_over. }
  assert (Hacyc : ¬ cyclic g).
  { apply (ranked_acyclic g rank). intros c p Hedge.
    destruct (build_graph_edges_inv _ _ _ _ _ Hbuild c p Hedge)
      as [Hinit | (fk & Hfk & -> & -> & Hin)].
    - by apply init_graph_no_edge in Hinit.
    - apply Hrank; [done |]. split; [done |].
      destruct Hg as [Hdom Hclosed]. destruct Hedge as (deps & Hl & Hp).
      specialize (Hclosed _ _ _ Hl Hp). rewrite Hdom in Hclosed.
      by apply elem_of_list_to_set in Hclosed. }
  destruct (getMigrationOrder_child_before_parent fks tbls g depth Hbuild Hacyc Hdepth)
    as (ord & Hrun & Hfirst).
  exists ord. split; [done |]. intros fk Hfk [Hc Hp]. by apply Hfirst.
Qed.

Lemma getMigrationOrder_acyclic_children_first_witness :
  (∀ fk, fk ∈ chain → inside ["B"; "C"; "A"] fk →
     chain_rank (REFERENCED_TABLE_NAME fk) < chain_rank (TABLE_NAME fk)) ∧
  length ["B"; "C"; "A"] < 4 ∧
  ∃ ord, getMigrationOrder (catalogue chain) 4 ["B"; "C"; "A"] = inr ord ∧
         ∀ fk, fk ∈ chain → inside ["B"; "C"; "A"] fk →
           before (TABLE_NAME fk) (REFERENCED_TABLE_NAME fk) ord.
Proof.
  assert (Hrank : ∀ fk, fk ∈ chain → inside ["B"; "C"; "A"] fk →
            chain_rank (REFERENCED_TABLE_NAME fk) < chain_rank (TABLE_NAME fk)).
  { intros fk Hfk _. unfold chain in Hfk.
    apply elem_of_cons in Hfk as [-> | Hfk]; [vm_compute; lia |].
    apply list_elem_of_singleton in Hfk as ->. vm_compute; lia. }
  split; [exact Hrank |]. split; [simpl; lia |].
  apply (getMigrationOrder_acyclic_children_first chain ["B"; "C"; "A"] chain_rank 4 Hrank).
  simpl; lia.
Defined.

(** ** A chain deeper than the call stack *)

Lemma link_inj i j : link i = link j → i = j.
Proof.
  unfold link. intros H. injection H as H.
  by apply (inj (String.append "")), (inj (pretty : nat → string)) in H.
Qed.

Lemma deep_chain_elem n fk :
  fk ∈ deep_chain n ↔ ∃ i, i < n ∧ fk = references (link (S i)) (link i).
Proof.
  unfold deep_chain. rewrite list_elem_of_fmap. split.
  - intros (i & -> & Hi). apply elem_of_seq in Hi. exists i. split; [lia | done].
  - intros (i & Hi & ->). exists i. split; [done |]. apply elem_of_seq. lia.
Qed.

Lemma deep_tables_elem n t : t ∈ deep_tables n ↔ ∃ i, i ≤ n ∧ t = link i.
Proof.
  unfold deep_tables. rewrite list_elem_of_fmap. split.
  - intros (i & -> & Hi). apply elem_of_reverse, elem_of_seq in Hi.
    exists i. split; [lia | done].
  - intros (i & Hi & ->). exists i. split; [done |].
    apply elem_of_reverse, elem_of_seq. lia.
Qed.

(** In the graph of the chain, the first table a table depends on is the
    one it references. *)
Lemma deep_chain_deps n g i :
  build_graph (catalogue (deep_chain n)) (deep_tables n) (deep_tables n)
    (init_graph (deep_tables n)) = inr g →
  i < n →
  ∃ rest, g !! link (S i) = Some (link i :: rest).
Proof.
  intros Hbuild Hi.
  pose proof (build_graph_edges _ _ _ _ _ Hbuild) as [_ Hnew].
  destruct (Hnew (references (link (S i)) (link i))) as (deps & Hl & Hin).
  { apply deep_chain_elem. by exists i. }
  { apply deep_tables_elem. exists i. split; [lia | done]. }
  { apply deep_tables_elem. exists (S i). split; [lia | done]. }
  simpl in Hl, Hin.
  assert (Hall : ∀ p, p ∈ deps → p = link i).
  { intros p Hp.
    destruct (build_graph_edges_inv _ _ _ _ _ Hbuild (link (S i)) p)
      as [Hinit | (fk & Hfk & Hc & -> & _)].
    - by exists deps.
    - by apply init_graph_no_edge in Hinit.
    - apply deep_chain_elem in Hfk as (j & _ & ->). simpl in *.
      apply link_inj in Hc. by simplify_eq. }
  destruct deps as [| d rest]; [by apply elem_of_nil in Hin |].
  exists rest. rewrite Hl. f_equal. f_equal. apply Hall, list_elem_of_here.
Qed.

(** A visit that starts [i] links up the chain needs [i + 1] frames. *)
Lemma visit_deep g n :
  (∀ i, i < n → ∃ rest, g !! link (S i) = Some (link i :: rest)) →
  ∀ depth i st,
    depth ≤ i → i ≤ n →
    (∀ j, j ≤ i → link j ∉ visited st) →
    visit depth g (link i) st = inl stack_overflow.
Proof.
  intros Hg. induction depth as [| depth IH]; intros i st Hd Hi Hnew; [done |].
  destruct i as [| i]; [lia |]. simpl.
  destruct (decide (link (S i) ∈ visited st)) as [Hv | _].
  { by destruct (Hnew (S i)). }
  destruct (Hg i) as [rest ->]; [lia |]. simpl.
  rewrite IH; [done | lia | lia |].
  intros j Hj. simpl. intros Hin. apply elem_of_union in Hin as [Hin | Hin].
  - apply elem_of_singleton, link_inj in Hin. lia.
  - apply (Hnew j); [lia | done].
Qed.

(** Whatever room the call stack has, a chain with more tables than that,
    listed from the last table down, makes [getMigrationOrder] throw. *)
Lemma getMigrationOrder_deep_chain depth n :
  depth ≤ n →
  getMigrationOrder (catalogue (deep_chain n)) depth (deep_tables n)
  = inl stack_overflow.
Proof.
  intros Hd.
  destruct (build_graph_over (catalogue (deep_chain n)) (deep_tables n)
              (deep_tables n) (init_graph (deep_tables n)))
    as (g & Hbuild & _).
  { intros t Ht. split; [done | by eexists]. }
  { apply init_graph_over. }
  unfold getMigrationOrder. rewrite Hbuild.
  unfold deep_tables. rewrite seq_S, reverse_snoc, fmap_cons. simpl.
  rewrite (visit_deep g n); [done | | done | done |].
  - intros i Hi. by eapply deep_chain_deps.
  - intros j _. simpl. set_solver.
Qed.

(** C10 (as stated) fails: on a chain of 10001 tables, each referencing the
    next, listed from the last one down, a call stack with room for 10000
    nested calls of [visit] is exhausted: the call throws a RangeError and
    returns no order. *)
Lemma getMigrationOrder_deep_chain_overflows :
  getMigrationOrder (catalogue (deep_chain 10000)) 10000 (deep_tables 10000)
    = inl stack_overflow ∧
  ¬ ∃ ord, getMigrationOrder (catalogue (deep_chain 10000)) 10000 (deep_tables 10000)
           = inr ord.
Proof.
  pose proof (getMigrationOrder_deep_chain 10000 10000 (le_n _)) as Hover.
  split; [exact Hover |]. intros [ord Hord]. congruence.
Qed.

End OrdererFacts.

(* ===================================================================== *)
(** * Properties of the per-table engine                                  *)
(* ===================================================================== *)

Section MigratorFacts.
Import Migrator.

(** ** Plain objects *)

Lemma filter_all {A} (P : A → Prop) `{!∀ x, Decision (P x)} (l : list A) :
  Forall P l → filter P l = l.
Proof.
  induction 1 as [| x l Hx _ IH]; [done |]. by rewrite filter_cons_True, IH.
Qed.

Lemma obj_get_None {V} k (o : list (string * V)) :
  obj_get k o = None ↔ k ∉ o.*1.
Proof.
  induction o as [| [k' v'] o IH]; simpl.
  - split; [intros _ Hin; by apply elem_of_nil in Hin | done].
  - destruct (decide (k = k')) as [-> | Hne].
    + split; [done |]. intros Hout. destruct Hout. apply list_elem_of_here.
    + rewrite IH. split.
      * intros Hout Hin. apply elem_of_cons in Hin as [? | ?]; done.
      * intros Hout Hin. apply Hout. by apply list_elem_of_further.
Qed.

Lemma obj_get_Some_key {V} k (v : V) o : obj_get k o = Some v → k ∈ o.*1.
Proof.
  intros Hget. destruct (decide (k ∈ o.*1)) as [| Hout]; [done |].
  apply obj_get_None in Hout. congruence.
Qed.

Lemma obj_get_add_key_eq {V} k (v : V) o :
  obj_get k o = None → obj_get k (add_key k v o) = Some v.
Proof.
  induction o as [| [k' v'] o IH]; simpl.
  - intros _. by rewrite decide_True.
  - destruct (decide (k = k')) as [| Hne]; [done |]. intros Hnone.
    destruct (listed_before k k'); simpl.
    + by rewrite decide_True.
    + rewrite decide_False by done. by apply IH.
Qed.

Lemma obj_get_add_key_ne {V} k k' (v : V) o :
  k ≠ k' → obj_get k' (add_key k v o) = obj_get k' o.
Proof.
  intros Hne. induction o as [| [k0 v0] o IH]; simpl.
  - by rewrite decide_False.
  - destruct (listed_before k k0); simpl.
    + by rewrite (decide_False (P := k' = k)).
    + destruct (decide (k' = k0)); [done | exact IH].
Qed.

Lemma obj_get_replace_eq {V} k (v : V) o :
  is_Some (obj_get k o) → obj_get k (replace_value k v o) = Some v.
Proof.
  induction o as [| [k' v'] o IH]; simpl.
  - by intros [? ?].
  - destruct (decide (k = k')) as [-> | Hne]; simpl.
    + intros _. by rewrite decide_True.
    + intros Hsome. rewrite decide_False by done. by apply IH.
Qed.

Lemma obj_get_replace_ne {V} k k' (v : V) o :
  k ≠ k' → obj_get k' (replace_value k v o) = obj_get k' o.
Proof.
  intros Hne. induction o as [| [k0 v0] o IH]; simpl; [done |].
  destruct (decide (k = k0)) as [-> | Hne0]; simpl.
  - by rewrite !decide_False.
  - destruct (decide (k' = k0)); [done | exact IH].
Qed.

Lemma replace_value_keys {V} k (v : V) o : (replace_value k v o).*1 = o.*1.
Proof.
  induction o as [| [k' v'] o IH]; simpl; [done |].
  destruct (decide (k = k')) as [-> | Hne]; simpl; [done | by f_equal].
Qed.

Lemma add_key_keys {V} k (v : V) o : (add_key k v o).*1 ≡ₚ k :: o.*1.
Proof.
  induction o as [| [k' v'] o IH]; [done |]. cbn [add_key].
  destruct (listed_before k k'); [done |].
  rewrite !fmap_cons, IH. apply perm_swap.
Qed.

Lemma obj_get_define_eq {V} k (v : V) o : obj_get k (define_own k v o) = Some v.
Proof.
  unfold define_own. destruct (decide (is_Some (obj_get k o))) as [Hs | Hn].
  - by apply obj_get_replace_eq.
  - apply obj_get_add_key_eq. by apply eq_None_not_Some.
Qed.

Lemma obj_get_define_ne {V} k k' (v : V) o :
  k ≠ k' → obj_get k' (define_own k v o) = obj_get k' o.
Proof.
  intros Hne. unfold define_own. destruct (decide (is_Some (obj_get k o))).
  - by apply obj_get_replace_ne.
  - by apply obj_get_add_key_ne.
Qed.

(** The own names after a definition: the name defined and the names there
    were. *)
Lemma define_own_keys_elem {V} x k (v : V) o :
  x ∈ (define_own k v o).*1 ↔ x = k ∨ x ∈ o.*1.
Proof.
  unfold define_own. destruct (decide (is_Some (obj_get k o))) as [[v0 Hs] | Hn].
  - rewrite replace_value_keys. apply obj_get_Some_key in Hs.
    split; [by right | intros [-> | ?]; done].
  - rewrite add_key_keys. apply elem_of_cons.
Qed.

Lemma define_own_keys_NoDup {V} k (v : V) o :
  NoDup o.*1 → NoDup (define_own k v o).*1.
Proof.
  intros Hnd. unfold define_own.
  destruct (decide (is_Some (obj_get k o))) as [Hs | Hn].
  - by rewrite replace_value_keys.
  - rewrite add_key_keys. constructor; [| done].
    by apply obj_get_None, eq_None_not_Some.
Qed.

Lemma lookup_assign_eq {V} k (v : V) (o : Obj V) : assign k v o !! k = Some v.
Proof.
  unfold lookup, Obj_lookup, assign.
  destruct (decide (k = "__proto__")); simpl; [done |]. apply obj_get_define_eq.
Qed.

Lemma lookup_assign_ne {V} k k' (v : V) (o : Obj V) :
  k ≠ k' → assign k v o !! k' = o !! k'.
Proof.
  intros Hne. unfold lookup, Obj_lookup, assign.
  destruct (decide (k = "__proto__")) as [-> | Hk]; simpl.
  - by destruct (decide (k' = "__proto__")) as [-> |].
  - destruct (decide (k' = "__proto__")); [done |]. by apply obj_get_define_ne.
Qed.

Lemma lookup_empty_obj {V} k : (∅ : Obj V) !! k = None.
Proof. unfold lookup, Obj_lookup. by destruct (decide (k = "__proto__")). Qed.

(** [listed_before] is a strict order: the array indices by their number,
    and every array index before every other name. *)
Lemma listed_before_asym k k' :
  listed_before k k' = true → listed_before k' k = false.
Proof.
  unfold listed_before.
  destruct (array_index k) as [n |], (array_index k') as [n' |]; try done.
  intros Hlt. apply bool_decide_eq_true in Hlt. apply bool_decide_eq_false. lia.
Qed.

Lemma listed_before_trans a b c :
  listed_before a b = true → listed_before b c = true → listed_before a c = true.
Proof.
  unfold listed_before.
  destruct (array_index a) as [na |], (array_index b) as [nb |],
    (array_index c) as [nc |]; try done.
  intros H1 H2. apply bool_decide_eq_true in H1, H2. apply bool_decide_eq_true. lia.
Qed.

Lemma listed_before_name k k' : array_index k = None → listed_before k k' = false.
Proof. unfold listed_before. by intros ->. Qed.

Lemma add_key_enumerated {V} k (v : V) o :
  enumerated o.*1 → enumerated (add_key k v o).*1.
Proof.
  unfold enumerated. induction o as [| [k' v'] o IH]; intros Hs.
  - simpl. repeat constructor.
  - cbn [add_key]. rewrite fmap_cons in Hs. apply StronglySorted_inv in Hs as [Hs Hall].
    destruct (listed_before k k') eqn:Hb.
    + rewrite !fmap_cons. cbn [fst]. constructor.
      * by constructor.
      * constructor; [by apply listed_before_asym |].
        eapply Forall_impl; [exact Hall |]. intros x Hx. simpl in Hx.
        destruct (listed_before x k) eqn:Hxk; [| done].
        pose proof (listed_before_trans _ _ _ Hxk Hb). congruence.
    + rewrite fmap_cons. cbn [fst]. constructor; [by apply IH |].
      rewrite add_key_keys. by constructor.
Qed.

Lemma define_own_enumerated {V} k (v : V) o :
  enumerated o.*1 → enumerated (define_own k v o).*1.
Proof.
  intros Hs. unfold define_own. destruct (decide (is_Some (obj_get k o))).
  - by rewrite replace_value_keys.
  - by apply add_key_enumerated.
Qed.

(** A new name that is no array index comes last; a new array index leaves
    the other names in their order. *)
Lemma add_key_names {V} k (v : V) o :
  filter (λ x, array_index x = None) (add_key k v o).*1
  = filter (λ x, array_index x = None) o.*1
    ++ (if array_index k is Some _ then [] else [k]).
Proof.
  induction o as [| [k' v'] o IH]; cbn [add_key].
  - simpl. destruct (array_index k) eqn:Hk.
    + by rewrite filter_cons_False by (by rewrite Hk).
    + by rewrite filter_cons_True.
  - destruct (listed_before k k') eqn:Hb.
    + destruct (array_index k) eqn:Hk.
      * rewrite fmap_cons. cbn [fst].
        rewrite filter_cons_False by (by rewrite Hk). by rewrite app_nil_r.
      * by rewrite listed_before_name in Hb.
    + rewrite !fmap_cons. cbn [fst].
      destruct (decide (array_index k' = None)) as [Hk' | Hk'].
      * rewrite !filter_cons_True by done. by rewrite IH.
      * rewrite !filter_cons_False by done. by rewrite IH.
Qed.

Lemma assign_keys_elem {V} x k (v : V) (o : Obj V) :
  x ∈ Object_keys (assign k v o)
  ↔ x ∈ Object_keys o ∨ (x = k ∧ k ≠ "__proto__").
Proof.
  unfold Object_keys, assign. destruct (decide (k = "__proto__")) as [-> | Hk]; simpl.
  - split; [by left | by intros [? | [_ ?]]].
  - rewrite define_own_keys_elem. split; [intros [-> | ?]; eauto | intros [? | [-> _]]; eauto].
Qed.

Lemma assign_keys_NoDup {V} k (v : V) (o : Obj V) :
  NoDup (Object_keys o) → NoDup (Object_keys (assign k v o)).
Proof.
  unfold Object_keys, assign. destruct (decide (k = "__proto__")); simpl; [done |].
  apply define_own_keys_NoDup.
Qed.

Lemma assign_enumerated {V} k (v : V) (o : Obj V) :
  enumerated (Object_keys o) → enumerated (Object_keys (assign k v o)).
Proof.
  unfold Object_keys, assign. destruct (decide (k = "__proto__")); simpl; [done |].
  apply define_own_enumerated.
Qed.

Lemma schema_keys (l : list ColumnInfo) :
  NoDup (Object_keys (foldl describe_row ∅ l)) ∧
  (∀ c, c ∈ Object_keys (foldl describe_row ∅ l)
        ↔ c ∈ Field <$> l ∧ c ≠ "__proto__") ∧
  enumerated (Object_keys (foldl describe_row ∅ l)).
Proof.
  induction l as [| x l (IHn & IHm & IHs)] using rev_ind.
  - split_and!; [constructor | | constructor].
    intros c. split; [intros Hin | intros [Hin _]]; by apply elem_of_nil in Hin.
  - rewrite foldl_snoc. unfold describe_row at 1 3 5. split_and!.
    + by apply assign_keys_NoDup.
    + intros c. rewrite assign_keys_elem, IHm, fmap_app, elem_of_app. simpl.
      rewrite list_elem_of_singleton. naive_solver.
    + by apply assign_enumerated.
Qed.


(** Without a column of its own in the target schema and without an
    inherited name, a column is not common. *)
Lemma commonColumns_none (S T : Obj ColumnDescriptor) ignore :
  (∀ col, col ∈ Object_keys S → col ∈ Object_keys T → col ∈ ignore) →
  (∀ col, col ∈ Object_keys S → col ∈ Object_prototype → col ∈ ignore) →
  proto T = None →
  commonColumns S T ignore = [].
Proof.
  intros Hshared Hinherited Hproto. unfold commonColumns.
  apply filter_none. intros col Hcol [Hdef Hign]. apply Hign.
  unfold defined in Hdef. rewrite Hproto in Hdef.
  destruct (obj_get col (own T)) eqn:Hget.
  - apply Hshared; [done |]. by eapply obj_get_Some_key.
  - apply bool_decide_eq_true in Hdef. by apply Hinherited.
Qed.

(** ** Inversion of the combinators *)

Lemma bind_inv {A B} (c : M A) (k : A → M B) s out s' :
  bind c k s = Some (out, s') →
  (∃ a s1, c s = Some (Return a, s1) ∧ k a s1 = Some (out, s')) ∨
  (∃ e, c s = Some (Throw e, s') ∧ out = Throw e).
Proof.
  unfold bind. destruct (c s) as [[[a | e] s1] |]; intros H; [| | done].
  - left. by exists a, s1.
  - right. exists e. by simplify_eq.
Qed.

Lemma try_catch_inv {A} (body : M A) (handler : Error → M A) s out s' :
  try_catch body handler s = Some (out, s') →
  (∃ a, body s = Some (Return a, s') ∧ out = Return a) ∨
  (∃ e s1, body s = Some (Throw e, s1) ∧ handler e s1 = Some (out, s')).
Proof.
  unfold try_catch. destruct (body s) as [[[a | e] s1] |]; intros H; [| | done].
  - left. exists a. by simplify_eq.
  - right. by exists e, s1.
Qed.

Lemma try_finally_inv {A} (body : M A) (fin : M unit) s out s' :
  try_finally body fin s = Some (out, s') →
  ∃ out1 s1 out2, body s = Some (out1, s1) ∧ fin s1 = Some (out2, s') ∧
    match out2 with Return _ => out = out1 | Throw e => out = Throw e end.
Proof.
  unfold try_finally. destruct (body s) as [[out1 s1] |]; [| done].
  destruct (fin s1) as [[[[] | e] s2] |] eqn:Hfin; intros H; [| | done];
    injection H as <- <-.
  - by exists out1, s1, (Return ()).
  - by exists out1, s1, (Throw e).
Qed.

(** ** Relations kept by every run *)

Section Respects.
Context (R : relation State) `{!Reflexive R, !Transitive R}.

Lemma respects_ret {A} (a : A) : respects R (ret a).
Proof. intros s out s' [= <- <-]. reflexivity. Qed.

Lemma respects_throw {A} e : respects R (throw (A := A) e).
Proof. intros s out s' [= <- <-]. reflexivity. Qed.

Lemma respects_out_of_fuel {A} : respects R (out_of_fuel (A := A)).
Proof. by intros s out s'. Qed.

Lemma respects_bind {A B} (c : M A) (k : A → M B) :
  respects R c → (∀ a, respects R (k a)) → respects R (bind c k).
Proof.
  intros Hc Hk s out s' Hrun.
  apply bind_inv in Hrun as [(a & s1 & Hc1 & Hk1) | (e & Hc1 & _)].
  - etrans; [by eapply Hc | by eapply Hk].
  - by eapply Hc.
Qed.

Lemma respects_try_catch {A} (body : M A) handler :
  respects R body → (∀ e, respects R (handler e)) →
  respects R (try_catch body handler).
Proof.
  intros Hb Hh s out s' Hrun.
  apply try_catch_inv in Hrun as [(a & Hb1 & _) | (e & s1 & Hb1 & Hh1)].
  - by eapply Hb.
  - etrans; [by eapply Hb | by eapply Hh].
Qed.

Lemma respects_try_finally {A} (body : M A) fin :
  respects R body → respects R fin → respects R (try_finally body fin).
Proof.
  intros Hb Hf s out s' Hrun.
  apply try_finally_inv in Hrun as (out1 & s1 & out2 & Hb1 & Hf1 & _).
  etrans; [by eapply Hb | by eapply Hf].
Qed.

Lemma respects_Promise_all {A} (ps : list (M A)) :
  Forall (respects R) ps → respects R (Promise_all ps).
Proof.
  induction 1 as [| p ps Hp _ IH]; simpl.
  - apply respects_ret.
  - intros s out s' Hrun.
    destruct (p s) as [[[a | e] s1] |] eqn:Hp1; [| | done].
    + apply bind_inv in Hrun as [(l & s2 & Hrest & Hret) | (e & Hrest & _)].
      * injection Hret as <- <-. etrans; [by eapply Hp | by eapply IH].
      * etrans; [by eapply Hp | by eapply IH].
    + destruct (Promise_all ps s1) as [[out2 s2] |] eqn:Hrest; [| done].
      injection Hrun as <- <-. etrans; [by eapply Hp | by eapply IH].
Qed.

Lemma respects_if {A} (b : bool) (c1 c2 : M A) :
  respects R c1 → respects R c2 → respects R (if b then c1 else c2).
Proof. by destruct b. Qed.

End Respects.

#[local] Instance by_steps_refl ok : Reflexive (by_steps ok).
Proof. intros s. apply rtc_refl. Qed.

#[local] Instance by_steps_trans ok : Transitive (by_steps ok).
Proof. intros s1 s2 s3. apply rtc_trans. Qed.

#[local] Instance same_result_refl : Reflexive same_result.
Proof. by intros s. Qed.

#[local] Instance same_result_trans : Transitive same_result.
Proof. unfold same_result. intros s1 s2 s3 H1 H2. congruence. Qed.

#[local] Instance same_errors_refl : Reflexive same_errors.
Proof. by intros s. Qed.

#[local] Instance same_errors_trans : Transitive same_errors.
Proof. unfold same_errors. intros s1 s2 s3 [? ?] [? ?]. split; congruence. Qed.

Lemma same_result_errors {A} (c : M A) :
  respects same_result c → respects same_errors c.
Proof.
  intros Hc s out s' Hrun. specialize (Hc s out s' Hrun).
  unfold same_result in Hc. unfold same_errors. by rewrite Hc.
Qed.

(** ** The primitives *)

(** What one [execute] does: the statement is recorded with its outcome, one
    entry of the fault plan is used up, and the pool's database changes only
    if the statement was carried out. *)
Lemma execute_inv p q s out s' :
  execute p q s = Some (out, s') →
  result s' = result s ∧
  ((∃ msg, out = Throw (mkError msg) ∧
      world s' = after_statement p q (Some msg) (database_of p (world s)) (world s)) ∨
   (∃ rs db', out = Return rs ∧
      run_statement q (database_of p (world s)) = inr (rs, db') ∧
      world s' = after_statement p q None db' (world s))).
Proof.
  unfold execute. intros Hrun.
  assert (Hplain : ∀ out s',
    match run_statement q (database_of p (world s)) with
    | inl msg =>
        Some (Throw (mkError msg),
              mkState (after_statement p q (Some msg) (database_of p (world s)) (world s))
                      (result s))
    | inr (rs, db') =>
        Some (Return rs, mkState (after_statement p q None db' (world s)) (result s))
    end = Some (out, s') →
    result s' = result s ∧
    ((∃ msg, out = Throw (mkError msg) ∧
        world s' = after_statement p q (Some msg) (database_of p (world s)) (world s)) ∨
     (∃ rs db', out = Return rs ∧
        run_statement q (database_of p (world s)) = inr (rs, db') ∧
        world s' = after_statement p q None db' (world s)))).
  { clear. intros out s'.
    destruct (run_statement q (database_of p (world s))) as [msg | [rs db']];
      intros [= <- <-]; (split; [done |]).
    - left. by exists msg.
    - right. by exists rs, db'. }
  destruct (head (faults (world s))) as [[msg |] |]; [| by apply Hplain ..].
  injection Hrun as <- <-. split; [done |]. left. by exists msg.
Qed.

Lemma execute_total p q s : ∃ out s', execute p q s = Some (out, s').
Proof.
  unfold execute. destruct (head (faults (world s))) as [[msg |] |]; eauto;
    destruct (run_statement q (database_of p (world s))) as [msg | [rs db']]; eauto.
Qed.

Lemma execute_by_steps ok p q : ok p q → respects (by_steps ok) (execute p q).
Proof.
  intros Hok s out s' Hrun. unfold by_steps.
  apply execute_inv in Hrun as [_ [(msg & _ & ->) | (rs & db' & _ & Hq & ->)]];
    apply rtc_once.
  - by apply step_failed.
  - by eapply step_done.
Qed.

Lemma execute_same_result p q : respects same_result (execute p q).
Proof. intros s out s' Hrun. by apply execute_inv in Hrun as [? _]. Qed.

Lemma logger_log_by_steps ok msg : respects (by_steps ok) (logger_log msg).
Proof. intros s out s' [= <- <-]. apply rtc_once, step_print. Qed.

Lemma logger_error_by_steps ok msg : respects (by_steps ok) (logger_error msg).
Proof. intros s out s' [= <- <-]. apply rtc_once, step_print. Qed.

Lemma logger_log_same_result msg : respects same_result (logger_log msg).
Proof. by intros s out s' [= <- <-]. Qed.

Lemma logger_error_same_result msg : respects same_result (logger_error msg).
Proof. by intros s out s' [= <- <-]. Qed.

Lemma timestamp_respects R `{!Reflexive R} : respects R timestamp.
Proof. intros s out s' [= <- <-]. reflexivity. Qed.

Lemma get_rowsMigrated_respects R `{!Reflexive R} : respects R get_rowsMigrated.
Proof. intros s out s' [= <- <-]. reflexivity. Qed.

Lemma set_success_by_steps ok b : respects (by_steps ok) (set_success b).
Proof. intros s out s' [= <- <-]. apply rtc_refl. Qed.

Lemma add_rowsMigrated_by_steps ok n : respects (by_steps ok) (add_rowsMigrated n).
Proof. intros s out s' [= <- <-]. apply rtc_refl. Qed.

Lemma push_error_by_steps ok msg : respects (by_steps ok) (push_error msg).
Proof. intros s out s' [= <- <-]. apply rtc_refl. Qed.

Lemma set_success_same_errors b : respects same_errors (set_success b).
Proof. by intros s out s' [= <- <-]. Qed.

Lemma add_rowsMigrated_same_errors n : respects same_errors (add_rowsMigrated n).
Proof. by intros s out s' [= <- <-]. Qed.

(** One step of the decomposition of a computation along its combinators. *)
Ltac respects_step :=
  lazymatch goal with
  | |- respects _ (bind _ _) => apply respects_bind; [apply _ | | intros ?]
  | |- respects _ (try_catch _ _) => apply respects_try_catch; [apply _ | | intros ?]
  | |- respects _ (try_finally _ _) => apply respects_try_finally; [apply _ | |]
  | |- respects _ (ret _) => apply respects_ret; apply _
  | |- respects _ (throw _) => apply respects_throw; apply _
  | |- respects _ out_of_fuel => apply respects_out_of_fuel
  | |- respects _ timestamp => apply timestamp_respects; apply _
  | |- respects _ get_rowsMigrated => apply get_rowsMigrated_respects; apply _
  | |- respects (by_steps _) (logger_log _) => apply logger_log_by_steps
  | |- respects (by_steps _) (logger_error _) => apply logger_error_by_steps
  | |- respects (by_steps _) (set_success _) => apply set_success_by_steps
  | |- respects (by_steps _) (add_rowsMigrated _) => apply add_rowsMigrated_by_steps
  | |- respects (by_steps _) (push_error _) => apply push_error_by_steps
  | |- respects (by_steps _) (execute _ _) => apply execute_by_steps
  | |- respects same_result (logger_log _) => apply logger_log_same_result
  | |- respects same_result (logger_error _) => apply logger_error_same_result
  | |- respects same_result (execute _ _) => apply execute_same_result
  | |- respects same_errors (set_success _) => apply set_success_same_errors
  | |- respects same_errors (add_rowsMigrated _) => apply add_rowsMigrated_same_errors
  | |- respects _ (match ?x with _ => _ end) => destruct x eqn:?
  end.

Ltac respects_auto := repeat respects_step.

(** ** dbUtils.js *)

Lemma getTableSchema_by_steps ok p t :
  ok p (DESCRIBE t) → respects (by_steps ok) (getTableSchema p t).
Proof. intros Hok. unfold getTableSchema. by respects_auto. Qed.

Lemma getTableSchema_same_result p t : respects same_result (getTableSchema p t).
Proof. unfold getTableSchema. by respects_auto. Qed.

Lemma backupTable_by_steps ok t :
  (∀ ts, ok Target (CREATE_TABLE_LIKE (backup_name t ts) t)) →
  (∀ ts, ok Target (INSERT_SELECT (backup_name t ts) t)) →
  respects (by_steps ok) (backupTable Target t).
Proof. intros H1 H2. unfold backupTable. by respects_auto. Qed.

Lemma backupTable_same_result p t : respects same_result (backupTable p t).
Proof. unfold backupTable. by respects_auto. Qed.

(** ** The steps of [migrateTable] *)

Lemma disable_step_by_steps ok o :
  (toggles o = true → ∀ b, ok Target (SET_FOREIGN_KEY_CHECKS b)) →
  respects (by_steps ok) (disable_step o).
Proof.
  intros Hok. unfold disable_step, disableForeignKeyChecks.
  destruct (toggles o) eqn:Ht; respects_auto. by apply Hok.
Qed.

Lemma disable_step_same_result o : respects same_result (disable_step o).
Proof. unfold disable_step, disableForeignKeyChecks. by respects_auto. Qed.

Lemma restore_step_by_steps ok o :
  (toggles o = true → ∀ b, ok Target (SET_FOREIGN_KEY_CHECKS b)) →
  respects (by_steps ok) (restore_step o).
Proof.
  intros Hok. unfold restore_step, enableForeignKeyChecks.
  destruct (toggles o) eqn:Ht; respects_auto. by apply Hok.
Qed.

Lemma restore_step_same_result o : respects same_result (restore_step o).
Proof. unfold restore_step, enableForeignKeyChecks. by respects_auto. Qed.

Lemma backup_step_by_steps t o : respects (by_steps (issued t o)) (backup_step t o).
Proof.
  unfold backup_step. destruct (dryRun o) eqn:Hdry; simpl; respects_auto.
  apply backupTable_by_steps; intros ts; simpl; eauto.
Qed.

Lemma backup_step_same_result t o : respects same_result (backup_step t o).
Proof.
  unfold backup_step. respects_auto. apply backupTable_same_result.
Qed.

Lemma truncate_step_by_steps t o : respects (by_steps (issued t o)) (truncate_step t o).
Proof.
  unfold truncate_step.
  destruct (truncateTarget o) eqn:Htr, (dryRun o) eqn:Hdry; simpl; by respects_auto.
Qed.

Lemma truncate_step_same_result t o : respects same_result (truncate_step t o).
Proof. unfold truncate_step. by respects_auto. Qed.

(** ** The transfer loop *)

Lemma select_by_steps ok p q : ok p q → respects (by_steps ok) (select p q).
Proof. intros Hok. unfold select. by respects_auto. Qed.

Lemma select_same_result p q : respects same_result (select p q).
Proof. unfold select. by respects_auto. Qed.

Lemma writes_by_steps ok t cols (rws : list row) :
  (∀ vals, ok Target (INSERT_VALUES t cols vals)) →
  Forall (respects (by_steps ok))
    ((λ r, execute Target
             (INSERT_VALUES t cols ((λ col, obj_get col r) <$> cols))) <$> rws).
Proof.
  intros Hok. apply Forall_fmap, Forall_forall. intros r _. simpl.
  by apply execute_by_steps.
Qed.

Lemma writes_same_result t cols (rws : list row) :
  Forall (respects same_result)
    ((λ r, execute Target
             (INSERT_VALUES t cols ((λ col, obj_get col r) <$> cols))) <$> rws).
Proof.
  apply Forall_fmap, Forall_forall. intros r _. apply execute_same_result.
Qed.

Lemma write_chunk_by_steps t o cols rws :
  respects (by_steps (issued t o)) (write_chunk t o cols rws).
Proof.
  unfold write_chunk. destruct (dryRun o) eqn:Hdry; respects_auto.
  apply respects_Promise_all; [apply _ .. |]. by apply writes_by_steps.
Qed.

Lemma write_chunk_same_result t o cols rws :
  respects same_result (write_chunk t o cols rws).
Proof.
  unfold write_chunk. respects_auto.
  apply respects_Promise_all; [apply _ .. |]. apply writes_same_result.
Qed.

Lemma migrate_chunk_by_steps t o cols rws :
  respects (by_steps (issued t o)) (migrate_chunk t o cols rws).
Proof. unfold migrate_chunk. respects_auto. apply write_chunk_by_steps. Qed.

Lemma migrate_chunk_same_errors t o cols rws :
  respects same_errors (migrate_chunk t o cols rws).
Proof.
  unfold migrate_chunk. respects_auto; apply same_result_errors.
  - apply write_chunk_same_result.
  - apply logger_log_same_result.
Qed.

Lemma transfer_by_steps t o cols : ∀ fuel offset,
  respects (by_steps (issued t o)) (transfer fuel t o cols offset).
Proof.
  induction fuel as [| fuel IH]; intros offset; simpl; respects_auto.
  - by apply select_by_steps.
  - apply migrate_chunk_by_steps.
  - apply IH.
Qed.

Lemma transfer_same_errors t o cols : ∀ fuel offset,
  respects same_errors (transfer fuel t o cols offset).
Proof.
  induction fuel as [| fuel IH]; intros offset; simpl; respects_auto.
  - apply same_result_errors, select_same_result.
  - apply migrate_chunk_same_errors.
  - apply IH.
Qed.

(** ** The whole of [migrateTable] *)

Lemma migrateTable_try_by_steps fuel t o :
  respects (by_steps (issued t o)) (migrateTable_try fuel t o).
Proof.
  unfold migrateTable_try. respects_auto.
  - by apply disable_step_by_steps.
  - by apply getTableSchema_by_steps.
  - by apply getTableSchema_by_steps.
  - apply backup_step_by_steps.
  - apply truncate_step_by_steps.
  - apply transfer_by_steps.
Qed.

Lemma migrateTable_try_same_errors fuel t o :
  respects same_errors (migrateTable_try fuel t o).
Proof.
  unfold migrateTable_try. respects_auto.
  - apply same_result_errors, disable_step_same_result.
  - apply same_result_errors, getTableSchema_same_result.
  - apply same_result_errors, getTableSchema_same_result.
  - apply same_result_errors, backup_step_same_result.
  - apply same_result_errors, truncate_step_same_result.
  - apply transfer_same_errors.
  - apply same_result_errors, logger_log_same_result.
Qed.

Lemma migrateTable_catch_by_steps ok t e :
  respects (by_steps ok) (migrateTable_catch t e).
Proof. unfold migrateTable_catch. by respects_auto. Qed.

(** Every run of [migrateTable] moves the world by statements of its own
    table and options, and console lines. *)
Lemma migrateTable_steps fuel t o w out w' :
  migrateTable fuel t o w = Some (out, w') →
  rtc (step (issued t o)) w w'.
Proof.
  unfold migrateTable. intros Hrun.
  destruct (try_finally _ _ _) as [[out1 s1] |] eqn:Htf; [| done].
  assert (Hsteps : by_steps (issued t o) (mkState w (new_result t)) s1).
  { revert Htf. apply respects_try_finally; [apply _ | |].
    - apply respects_try_catch; [apply _ | |].
      + apply migrateTable_try_by_steps.
      + intros e. apply migrateTable_catch_by_steps.
    - by apply restore_step_by_steps. }
  unfold by_steps in Hsteps. simpl in Hsteps.
  destruct out1; by injection Hrun as <- <-.
Qed.

(** ** What steps over issued statements keep *)

Lemma read_only_statement q db rs db' :
  stage_of q = SchemaFetch ∨ stage_of q = ChunkRead →
  run_statement q db = inr (rs, db') → db' = db.
Proof.
  intros [Hq | Hq]; destruct q; try done; simpl;
    destruct (tables db !! t); by intros [= <- <-].
Qed.

Lemma issued_source_read_only t o q :
  issued t o Source q → stage_of q = SchemaFetch ∨ stage_of q = ChunkRead.
Proof. destruct q; simpl; try done; eauto. Qed.

Lemma issued_dry_read_only t o p q :
  dryRun o = true → issued t o p q →
  stage_of q = SchemaFetch ∨ stage_of q = ChunkRead.
Proof.
  intros Hdry. unfold issued, toggles. rewrite Hdry, andb_false_r.
  destruct p, q; simpl; try done; eauto; naive_solver.
Qed.

Lemma steps_source t o w w' :
  rtc (step (issued t o)) w w' → source w' = source w.
Proof.
  induction 1 as [| w1 w2 w3 Hstep _ IH]; [done |]. rewrite IH.
  destruct Hstep as [p q msg w1 Hok | p q rs db' w1 Hok Hq |]; try done.
  - by destruct p.
  - destruct p; [| done]. simpl.
    eapply read_only_statement; [| exact Hq]. by eapply issued_source_read_only.
Qed.

Lemma steps_clock ok w w' : rtc (step ok) w w' → clock w' = clock w.
Proof.
  induction 1 as [| w1 w2 w3 Hstep _ IH]; [done |]. rewrite IH.
  by destruct Hstep.
Qed.

Lemma steps_trace ok w w' :
  rtc (step ok) w w' →
  ∃ evs, trace w' = trace w ++ evs ∧
         Forall (λ ev, ok (ev_pool ev) (ev_statement ev)) evs.
Proof.
  induction 1 as [w | w1 w2 w3 Hstep _ (evs & Htr & Hall)].
  - exists []. by rewrite app_nil_r.
  - destruct Hstep as [p q msg w1 Hok | p q rs db' w1 Hok Hq | l msg w1];
      simpl in Htr.
    + eexists (_ :: evs). rewrite Htr, <- app_assoc. split; [done |].
      by constructor.
    + eexists (_ :: evs). rewrite Htr, <- app_assoc. split; [done |].
      by constructor.
    + by exists evs.
Qed.

Lemma steps_target_dry t o w w' :
  dryRun o = true → rtc (step (issued t o)) w w' → target w' = target w.
Proof.
  intros Hdry. induction 1 as [| w1 w2 w3 Hstep _ IH]; [done |]. rewrite IH.
  destruct Hstep as [p q msg w1 Hok | p q rs db' w1 Hok Hq |]; try done.
  - by destruct p.
  - destruct p; [done |]. simpl.
    eapply read_only_statement; [| exact Hq]. by eapply issued_dry_read_only.
Qed.

(** ** Termination *)

Lemma returns_bind {A B} (c : M A) (k : A → M B) s :
  returns c s →
  (∀ a s1, c s = Some (Return a, s1) → returns (k a) s1) →
  returns (bind c k) s.
Proof.
  intros (out & s1 & Hc) Hk. unfold returns, bind. rewrite Hc.
  destruct out as [a | e]; [by apply Hk | eauto].
Qed.

Lemma total_bind {A B} (c : M A) (k : A → M B) :
  total c → (∀ a, total (k a)) → total (bind c k).
Proof. intros Hc Hk s. apply returns_bind; [apply Hc |]. intros a s1 _. apply Hk. Qed.

Lemma total_try_catch {A} (body : M A) handler :
  total body → (∀ e, total (handler e)) → total (try_catch body handler).
Proof.
  intros Hb Hh s. destruct (Hb s) as (out & s1 & Hrun).
  unfold returns, try_catch. rewrite Hrun.
  destruct out as [a | e]; [eauto | apply Hh].
Qed.

Lemma total_ret {A} (a : A) : total (ret a).
Proof. intros s. by eexists _, _. Qed.

Lemma total_throw {A} e : total (throw (A := A) e).
Proof. intros s. by eexists _, _. Qed.

Lemma total_execute p q : total (execute p q).
Proof. intros s. apply execute_total. Qed.

Lemma total_logger_log msg : total (logger_log msg).
Proof. intros s. by eexists _, _. Qed.

Lemma total_logger_error msg : total (logger_error msg).
Proof. intros s. by eexists _, _. Qed.

Lemma total_timestamp : total timestamp.
Proof. intros s. by eexists _, _. Qed.

Lemma total_get_rowsMigrated : total get_rowsMigrated.
Proof. intros s. by eexists _, _. Qed.

Lemma total_set_success b : total (set_success b).
Proof. intros s. by eexists _, _. Qed.

Lemma total_add_rowsMigrated n : total (add_rowsMigrated n).
Proof. intros s. by eexists _, _. Qed.

Lemma total_push_error msg : total (push_error msg).
Proof. intros s. by eexists _, _. Qed.

Lemma total_Promise_all {A} (ps : list (M A)) :
  Forall total ps → total (Promise_all ps).
Proof.
  induction 1 as [| p ps Hp _ IH]; simpl; [apply total_ret |].
  intros s. destruct (Hp s) as ([a | e] & s1 & Hrun); unfold returns; rewrite Hrun.
  - apply (total_bind (Promise_all ps) (λ l, ret (a :: l))); [done |].
    intros l. apply total_ret.
  - destruct (IH s1) as (out2 & s2 & ->). eauto.
Qed.

Ltac total_step :=
  lazymatch goal with
  | |- total (bind _ _) => apply total_bind; [| intros ?]
  | |- total (try_catch _ _) => apply total_try_catch; [| intros ?]
  | |- total (ret _) => apply total_ret
  | |- total (throw _) => apply total_throw
  | |- total (execute _ _) => apply total_execute
  | |- total (logger_log _) => apply total_logger_log
  | |- total (logger_error _) => apply total_logger_error
  | |- total timestamp => apply total_timestamp
  | |- total get_rowsMigrated => apply total_get_rowsMigrated
  | |- total (set_success _) => apply total_set_success
  | |- total (add_rowsMigrated _) => apply total_add_rowsMigrated
  | |- total (push_error _) => apply total_push_error
  | |- total (match ?x with _ => _ end) => destruct x
  end.

Ltac total_auto := repeat total_step.

Lemma total_getTableSchema p t : total (getTableSchema p t).
Proof. unfold getTableSchema. by total_auto. Qed.

Lemma total_backupTable p t : total (backupTable p t).
Proof. unfold backupTable. by total_auto. Qed.

Lemma total_disable_step o : total (disable_step o).
Proof. unfold disable_step, disableForeignKeyChecks. by total_auto. Qed.

Lemma total_backup_step t o : total (backup_step t o).
Proof. unfold backup_step. total_auto. apply total_backupTable. Qed.

Lemma total_truncate_step t o : total (truncate_step t o).
Proof. unfold truncate_step. by total_auto. Qed.

Lemma total_select p q : total (select p q).
Proof. unfold select. by total_auto. Qed.

Lemma total_migrate_chunk t o cols rws : total (migrate_chunk t o cols rws).
Proof.
  unfold migrate_chunk, write_chunk. total_auto.
  apply total_Promise_all, Forall_fmap, Forall_forall. intros r _.
  apply total_execute.
Qed.

(** What a chunk read returns: the next [chunkSize] rows from [offset], and
    the source is as it was. *)
Lemma select_limit_inv cols t offset n s rws s1 :
  select Source (SELECT_LIMIT cols t offset n) s = Some (Return rws, s1) →
  rws = project cols <$> take n (drop offset (rows_of (source (world s)) t)) ∧
  result s1 = result s ∧ source (world s1) = source (world s).
Proof.
  unfold select. intros Hrun.
  apply bind_inv in Hrun as [(rs & s2 & Hex & Hret) | (e & _ & ?)]; [| done].
  apply execute_inv in Hex as [Hres [(msg & ? & _) | (rs' & db' & [= <-] & Hq & Hw)]];
    [done |].
  simpl in Hq. unfold rows_of.
  destruct (tables (source (world s)) !! t) as [T |]; [| done].
  injection Hq as <- <-. injection Hret as <- <-.
  by rewrite Hw.
Qed.

(** A chunk that went through adds its length to [rowsMigrated]. *)
Lemma migrate_chunk_count t o cols rws s s' :
  migrate_chunk t o cols rws s = Some (Return (), s') →
  rowsMigrated (result s') = rowsMigrated (result s) + length rws.
Proof.
  unfold migrate_chunk. intros Hrun.
  apply bind_inv in Hrun as [([] & s1 & Hwrites & Hrest) | (e & _ & ?)]; [| done].
  pose proof (write_chunk_same_result t o cols rws _ _ _ Hwrites) as Hres.
  injection Hrest as <-. simpl. by rewrite Hres.
Qed.

Lemma source_kept {A} (c : M A) t o s out s' :
  respects (by_steps (issued t o)) c → c s = Some (out, s') →
  source (world s') = source (world s).
Proof. intros Hc Hrun. eapply steps_source, Hc, Hrun. Qed.

(** The loop returns once the fuel exceeds the rows still to be read. *)
Lemma transfer_returns t o cols : ∀ fuel offset s,
  length (drop offset (rows_of (source (world s)) t)) < fuel →
  returns (transfer fuel t o cols offset) s.
Proof.
  induction fuel as [| fuel IH]; intros offset s Hfuel; [lia |]. simpl.
  apply returns_bind; [apply total_select |]. intros rws s1 Hsel.
  apply select_limit_inv in Hsel as (Hrws & _ & Hsrc).
  destruct (decide (length rws = 0)) as [| Hne]; [apply total_ret |].
  apply returns_bind; [apply total_migrate_chunk |]. intros [] s2 Hchunk.
  apply IH.
  rewrite (source_kept _ t o _ _ _ (migrate_chunk_by_steps t o cols rws) Hchunk), Hsrc.
  rewrite Hrws, length_fmap, length_take, length_drop in Hne.
  rewrite length_drop in *. lia.
Qed.

(** A loop that ran to its [break] counted every row from [offset] on. *)
Lemma transfer_count t o cols : ∀ fuel offset s s',
  0 < chunkSize o →
  transfer fuel t o cols offset s = Some (Return (), s') →
  rowsMigrated (result s')
    = rowsMigrated (result s) + length (drop offset (rows_of (source (world s)) t)).
Proof.
  induction fuel as [| fuel IH]; intros offset s s' Hchunk Hrun; [done |].
  simpl in Hrun.
  apply bind_inv in Hrun as [(rws & s1 & Hsel & Hrest) | (e & _ & ?)]; [| done].
  apply select_limit_inv in Hsel as (Hrws & Hres & Hsrc).
  assert (Hlen : length rws
            = chunkSize o `min` length (drop offset (rows_of (source (world s)) t))).
  { by rewrite Hrws, length_fmap, length_take. }
  destruct (decide (length rws = 0)) as [Hz | Hne].
  - injection Hrest as <-. rewrite Hres. clear -Hchunk Hz Hlen. lia.
  - apply bind_inv in Hrest as [([] & s2 & Hc & Hloop) | (e & _ & ?)]; [| done].
    apply IH in Hloop; [| done].
    rewrite (source_kept _ t o _ _ _ (migrate_chunk_by_steps t o cols rws) Hc), Hsrc
      in Hloop.
    apply migrate_chunk_count in Hc. rewrite Hloop, Hc, Hres.
    rewrite !length_drop in *. clear -Hchunk Hne Hlen. lia.
Qed.

(** ** The [try] block, the [catch] and the [finally] *)

Lemma bind_return {A B} (c : M A) (k : A → M B) s a s1 :
  c s = Some (Return a, s1) → bind c k s = k a s1.
Proof. intros Hc. unfold bind. by rewrite Hc. Qed.

Lemma bind_throw {A B} (c : M A) (k : A → M B) s e s1 :
  c s = Some (Throw e, s1) → bind c k s = Some (Throw e, s1).
Proof. intros Hc. unfold bind. by rewrite Hc. Qed.

Lemma migrateTable_try_returns fuel t o s :
  length (rows_of (source (world s)) t) < fuel →
  returns (migrateTable_try fuel t o) s.
Proof.
  intros Hfuel. unfold migrateTable_try.
  apply returns_bind; [apply total_disable_step |]. intros [] s1 H1.
  apply returns_bind; [apply total_getTableSchema |]. intros S s2 H2.
  apply returns_bind; [apply total_getTableSchema |]. intros T s3 H3.
  destruct (decide (length _ = 0)); [by eexists _, _ |].
  apply returns_bind; [apply total_backup_step |]. intros [] s4 H4.
  apply returns_bind; [apply total_truncate_step |]. intros [] s5 H5.
  apply returns_bind.
  - apply transfer_returns. rewrite drop_0.
    rewrite (source_kept _ t o _ _ _ (truncate_step_by_steps t o) H5).
    rewrite (source_kept _ t o _ _ _ (backup_step_by_steps t o) H4).
    rewrite (source_kept _ t o _ _ _ (getTableSchema_by_steps _ Target t eq_refl) H3).
    rewrite (source_kept _ t o _ _ _ (getTableSchema_by_steps _ Source t eq_refl) H2).
    by rewrite (source_kept _ t o _ _ _
                  (disable_step_by_steps (issued t o) o (λ H _, H)) H1).
  - intros [] s6 _. apply total_bind; [apply total_set_success |].
    intros []. by total_auto.
Qed.

(** A [try] block that ran to its end set [success] and counted every row of
    the source table. *)
Lemma migrateTable_try_count fuel t o s s' :
  migrateTable_try fuel t o s = Some (Return (), s') →
  success (result s') = true ∧
  (0 < chunkSize o →
   rowsMigrated (result s')
     = rowsMigrated (result s) + length (rows_of (source (world s)) t)).
Proof.
  unfold migrateTable_try. intros Hrun.
  apply bind_inv in Hrun as [([] & s1 & H1 & Hrun) | (e & _ & ?)]; [| done].
  apply bind_inv in Hrun as [(S & s2 & H2 & Hrun) | (e & _ & ?)]; [| done].
  apply bind_inv in Hrun as [(T & s3 & H3 & Hrun) | (e & _ & ?)]; [| done].
  destruct (decide (length _ = 0)); [done |].
  apply bind_inv in Hrun as [([] & s4 & H4 & Hrun) | (e & _ & ?)]; [| done].
  apply bind_inv in Hrun as [([] & s5 & H5 & Hrun) | (e & _ & ?)]; [| done].
  apply bind_inv in Hrun as [([] & s6 & H6 & Hrun) | (e & _ & ?)]; [| done].
  injection Hrun as <-. simpl. split; [done |]. intros Hchunk.
  rewrite (transfer_count _ _ _ _ _ _ _ Hchunk H6), drop_0.
  rewrite (source_kept _ t o _ _ _ (truncate_step_by_steps t o) H5).
  rewrite (source_kept _ t o _ _ _ (backup_step_by_steps t o) H4).
  rewrite (source_kept _ t o _ _ _ (getTableSchema_by_steps _ Target t eq_refl) H3).
  rewrite (source_kept _ t o _ _ _ (getTableSchema_by_steps _ Source t eq_refl) H2).
  rewrite (source_kept _ t o _ _ _
             (disable_step_by_steps (issued t o) o (λ H _, H)) H1).
  rewrite (truncate_step_same_result _ _ _ _ _ H5).
  rewrite (backup_step_same_result _ _ _ _ _ H4).
  rewrite (getTableSchema_same_result _ _ _ _ _ H3).
  rewrite (getTableSchema_same_result _ _ _ _ _ H2).
  by rewrite (disable_step_same_result _ _ _ _ H1).
Qed.

Lemma migrateTable_catch_spec t e s :
  migrateTable_catch t e s = Some (Return (), caught t e s).
Proof. done. Qed.

Lemma migrateTable_guarded_return fuel t o s s1 :
  migrateTable_try fuel t o s = Some (Return (), s1) →
  migrateTable_guarded fuel t o s = Some (Return (), s1).
Proof. intros Htry. unfold migrateTable_guarded, try_catch. by rewrite Htry. Qed.

Lemma migrateTable_guarded_throw fuel t o s e s1 :
  migrateTable_try fuel t o s = Some (Throw e, s1) →
  migrateTable_guarded fuel t o s = Some (Return (), caught t e s1).
Proof. intros Htry. unfold migrateTable_guarded, try_catch. by rewrite Htry. Qed.

(** The [finally] block never throws and never touches [result]; when the
    checks were disabled it hands exactly one statement to the target, the
    re-enabling one, and a failure of that statement is one line on the
    error console. *)
Lemma restore_step_spec o s :
  ∃ s', restore_step o s = Some (Return (), s') ∧
        result s' = result s ∧
        if toggles o then
          ∃ err,
            trace (world s')
              = trace (world s) ++ [mkEvent Target (SET_FOREIGN_KEY_CHECKS true) err] ∧
            console (world s')
              = console (world s) ++
                match err with
                | Some msg => [(ERROR, "Error re-enabling foreign key checks: " +:+ msg)]
                | None => []
                end
        else s' = s.
Proof.
  unfold restore_step. destruct (toggles o); [| by exists s].
  unfold try_catch, enableForeignKeyChecks.
  destruct (execute Target (SET_FOREIGN_KEY_CHECKS true) s) as [[out s1] |] eqn:Hex;
    [| by destruct (execute_total Target (SET_FOREIGN_KEY_CHECKS true) s) as (? & ? & ?);
          congruence].
  apply execute_inv in Hex as Hinv.
  destruct Hinv as [Hres [(msg & -> & Hw) | (rs & db' & -> & Hq & Hw)]].
  - rewrite (bind_throw _ _ _ _ _ Hex). eexists. split; [done |]. simpl.
    split; [done |]. exists (Some msg). by rewrite Hw.
  - rewrite (bind_return _ _ _ _ _ Hex). eexists. split; [done |].
    split; [done |]. exists None. rewrite Hw. simpl. by rewrite app_nil_r.
Qed.

Lemma migrateTable_finish fuel t o w s1 s2 :
  migrateTable_guarded fuel t o (mkState w (new_result t)) = Some (Return (), s1) →
  restore_step o s1 = Some (Return (), s2) →
  migrateTable fuel t o w = Some (Return (result s2), world s2).
Proof.
  intros Hg Hr. unfold migrateTable, try_finally. by rewrite Hg, Hr.
Qed.

(** [migrateTable] returns a result whenever the fuel exceeds the rows of the
    source table, and the result tells how the [try] block ended. *)
Lemma migrateTable_returns fuel t o w :
  length (rows_of (source w) t) < fuel →
  ∃ r w', migrateTable fuel t o w = Some (Return r, w') ∧
    table r = t ∧
    match migrateTable_try fuel t o (mkState w (new_result t)) with
    | Some (Return _, _) => success r = true ∧ errors r = []
    | Some (Throw e, _) => success r = false ∧ errors r = [message e]
    | None => False
    end.
Proof.
  intros Hfuel.
  destruct (migrateTable_try_returns fuel t o (mkState w (new_result t)) Hfuel)
    as (out & s1 & Htry).
  rewrite Htry.
  destruct (migrateTable_try_same_errors fuel t o _ _ _ Htry) as [Htab Herr].
  simpl in Htab, Herr.
  destruct out as [[] | e].
  - destruct (restore_step_spec o s1) as (s2 & Hr & Hres & _).
    eexists _, _. split.
    { eapply migrateTable_finish; [by apply migrateTable_guarded_return | done]. }
    rewrite Hres. split; [done |]. split; [| done].
    by apply migrateTable_try_count in Htry as [? _].
  - destruct (restore_step_spec o (caught t e s1)) as (s2 & Hr & Hres & _).
    eexists _, _. split.
    { eapply migrateTable_finish; [by apply migrateTable_guarded_throw | done]. }
    rewrite Hres. simpl. by rewrite Herr.
Qed.

Lemma rows_of_le_bound db t : length (rows_of db t) ≤ row_bound db.
Proof.
  unfold rows_of, row_bound.
  destruct (tables db !! t) as [T |] eqn:Hl; [| simpl; lia].
  apply elem_of_map_to_list in Hl.
  induction (map_to_list (tables db)) as [| kv l IH]; [by apply elem_of_nil in Hl |].
  apply elem_of_cons in Hl as [<- | Hl]; rewrite fmap_cons; simpl; [lia |].
  specialize (IH Hl). lia.
Qed.

Lemma migrateTable_guarded_inv fuel t o s out s1 :
  migrateTable_guarded fuel t o s = Some (out, s1) →
  out = Return () ∧
  (migrateTable_try fuel t o s = Some (Return (), s1) ∨
   ∃ e s', migrateTable_try fuel t o s = Some (Throw e, s') ∧ s1 = caught t e s').
Proof.
  unfold migrateTable_guarded. intros Hrun.
  apply try_catch_inv in Hrun as [([] & Htry & ->) | (e & s' & Htry & Hc)].
  - split; [done | by left].
  - rewrite migrateTable_catch_spec in Hc. injection Hc as <- <-.
    split; [done |]. right. by exists e, s'.
Qed.

Lemma migrateTable_inv fuel t o w out w' :
  migrateTable fuel t o w = Some (out, w') →
  ∃ s1 s2,
    migrateTable_guarded fuel t o (mkState w (new_result t)) = Some (Return (), s1) ∧
    restore_step o s1 = Some (Return (), s2) ∧
    out = Return (result s1) ∧ w' = world s2.
Proof.
  unfold migrateTable. intros Hrun.
  destruct (try_finally _ _ _) as [[out1 s2] |] eqn:Htf; [| done].
  apply try_finally_inv in Htf as (out0 & s1 & out2 & Hg & Hr & Hout).
  apply migrateTable_guarded_inv in Hg as Hinv. destruct Hinv as [-> _].
  destruct (restore_step_spec o s1) as (s2' & Hr' & Hres & _).
  rewrite Hr' in Hr. injection Hr as <- <-. subst out1.
  injection Hrun as <- <-. exists s1, s2'. by rewrite Hres.
Qed.

(** A result with [success = true] comes from a [try] block that ran to its
    end. *)
Lemma migrateTable_success_inv fuel t o w r w' :
  migrateTable fuel t o w = Some (Return r, w') →
  success r = true →
  ∃ s1, migrateTable_try fuel t o (mkState w (new_result t)) = Some (Return (), s1) ∧
        r = result s1.
Proof.
  intros Hrun Hsucc.
  apply migrateTable_inv in Hrun as (s1 & s2 & Hg & _ & [= ->] & _).
  apply migrateTable_guarded_inv in Hg as [_ [Htry | (e & s' & _ & ->)]].
  - by exists s1.
  - done.
Qed.

Lemma migrateTable_count fuel t o w r w' :
  0 < chunkSize o →
  migrateTable fuel t o w = Some (Return r, w') →
  success r = true →
  rowsMigrated r = length (rows_of (source w) t).
Proof.
  intros Hchunk Hrun Hsucc.
  destruct (migrateTable_success_inv _ _ _ _ _ _ Hrun Hsucc) as (s1 & Htry & ->).
  apply migrateTable_try_count in Htry as [_ Hcount]. by rewrite Hcount.
Qed.



(** C5: with [truncateTarget], no ignored column and the same columns on both
    sides, a successful result reports as [rowsMigrated] the number of rows
    the source table had when the migration started. *)
Theorem rowsMigrated_is_source_row_count fuel t o w r w' :
  truncateTarget o = true →
  ignoreColumns o = [] →
  columns <$> tables (source w) !! t = columns <$> tables (target w) !! t →
  0 < chunkSize o →
  migrateTable fuel t o w = Some (Return r, w') →
  success r = true →
  rowsMigrated r = length (rows_of (source w) t).
Proof. intros _ _ _. apply migrateTable_count. Qed.

Lemma rowsMigrated_is_source_row_count_witness :
  truncateTarget (options "disable" false) = true ∧
  ignoreColumns (options "disable" false) = [] ∧
  columns <$> tables (source (world_with [])) !! "users"
    = columns <$> tables (target (world_with [])) !! "users" ∧
  0 < chunkSize (options "disable" false) ∧
  migrateTable 6 "users" (options "disable" false) (world_with [])
    = Some (Return (mkResult "users" true 5 []),
            world_left 6 "users" (options "disable" false) (world_with [])) ∧
  success (mkResult "users" true 5 []) = true ∧
  rowsMigrated (mkResult "users" true 5 [])
    = length (rows_of (source (world_with [])) "users").
Proof.
  split; [reflexivity |]. split; [reflexivity |]. split; [by vm_compute |].
  split; [vm_compute; lia |]. split; [by vm_compute |]. split; [reflexivity |].
  apply (rowsMigrated_is_source_row_count 6 "users" (options "disable" false)
           (world_with []) (mkResult "users" true 5 [])
           (world_left 6 "users" (options "disable" false) (world_with []))).
  - reflexivity.
  - reflexivity.
  - by vm_compute.
  - vm_compute; lia.
  - by vm_compute.
  - reflexivity.
Defined.

(** C9: with the "disable" strategy outside a dry run, whatever state the
    [try]/[catch] leaves (success or failure), re-enabling the checks is the
    one statement issued after it; the result returned is the one the
    [try]/[catch] left, whether or not that statement failed; a failure of
    it is one line on the error console, and nothing is thrown. *)
Theorem foreign_keys_reenabled_on_every_exit fuel t o w :
  foreignKeyStrategy o = "disable" →
  dryRun o = false →
  length (rows_of (source w) t) < fuel →
  ∃ s1 w' err,
    migrateTable_guarded fuel t o (mkState w (new_result t)) = Some (Return (), s1) ∧
    migrateTable fuel t o w = Some (Return (result s1), w') ∧
    trace w' = trace (world s1) ++ [mkEvent Target (SET_FOREIGN_KEY_CHECKS true) err] ∧
    console w'
      = console (world s1) ++
        match err with
        | Some msg => [(ERROR, "Error re-enabling foreign key checks: " +:+ msg)]
        | None => []
        end.
Proof.
  intros Hfk Hdry Hfuel.
  destruct (migrateTable_returns fuel t o w Hfuel) as (r & w' & Hrun & _).
  apply migrateTable_inv in Hrun as Hinv.
  destruct Hinv as (s1 & s2 & Hg & Hr & [= ->] & ->).
  destruct (restore_step_spec o s1) as (s2' & Hr' & _ & Hspec).
  rewrite Hr' in Hr. injection Hr as <-.
  assert (Ht : toggles o = true).
  { unfold toggles. rewrite Hdry, Hfk. done. }
  rewrite Ht in Hspec. destruct Hspec as (err & Htr & Hcon).
  by exists s1, (world s2'), err.
Qed.

Lemma foreign_keys_reenabled_on_every_exit_witness :
  foreignKeyStrategy (options "disable" false) = "disable" ∧
  dryRun (options "disable" false) = false ∧
  length (rows_of (source (world_with [None; Some "gone"; Some "locked"])) "users") < 6 ∧
  ∃ s1 w' err,
    migrateTable_guarded 6 "users" (options "disable" false)
      (mkState (world_with [None; Some "gone"; Some "locked"]) (new_result "users"))
      = Some (Return (), s1) ∧
    migrateTable 6 "users" (options "disable" false)
      (world_with [None; Some "gone"; Some "locked"])
      = Some (Return (result s1), w') ∧
    trace w' = trace (world s1) ++ [mkEvent Target (SET_FOREIGN_KEY_CHECKS true) err] ∧
    console w'
      = console (world s1) ++
        match err with
        | Some msg => [(ERROR, "Error re-enabling foreign key checks: " +:+ msg)]
        | None => []
        end.
Proof.
  split; [reflexivity |]. split; [reflexivity |]. split; [vm_compute; lia |].
  apply (foreign_keys_reenabled_on_every_exit 6 "users" (options "disable" false)
           (world_with [None; Some "gone"; Some "locked"])).
  - reflexivity.
  - reflexivity.
  - vm_compute; lia.
Defined.

(** A failed migration whose re-enabling fails as well returns the result of
    the same migration with a re-enabling that works. *)
Example reenable_failure_leaves_result :
  fst <$> migrateTable 6 "users" (options "disable" false)
            (world_with [None; Some "gone"; Some "locked"])
  = fst <$> migrateTable 6 "users" (options "disable" false)
              (world_with [None; Some "gone"]) ∧
  fst <$> migrateTable 6 "users" (options "disable" false)
            (world_with [None; Some "gone"; Some "locked"])
  = Some (Return (mkResult "users" false 0
                    ["Error getting schema for table users: gone"])).
Proof. by vm_compute. Qed.

(** ** Runs that stop before the transfer *)

Lemma backup_name_ne t ts : backup_name t ts ≠ t.
Proof.
  unfold backup_name. induction t as [| a t IH]; simpl; [done |].
  intros [= H]. by apply IH.
Qed.

Lemma steps_spares t w w' :
  rtc (step (spares t)) w w' →
  tables (target w') !! t = tables (target w) !! t.
Proof.
  induction 1 as [| w1 w2 w3 Hstep _ IH]; [done |]. rewrite IH.
  destruct Hstep as [p q msg w1 Hok | p q rs db' w1 Hok Hq |]; try done.
  - by destruct p.
  - destruct p; [done |]. simpl.
    destruct q as [on | t' | new old | into from | t' | cols t' off n | t' cols vals];
      simpl in Hok, Hq; try done.
    + by injection Hq as <- <-.
    + destruct (tables (target w1) !! t'); by simplify_eq.
    + destruct (tables (target w1) !! old), (tables (target w1) !! new);
        simplify_eq. simpl. by rewrite lookup_insert_ne.
    + destruct (tables (target w1) !! into), (tables (target w1) !! from);
        simplify_eq. simpl. by rewrite lookup_insert_ne.
Qed.

Lemma inspected_result t o w S T s3 :
  inspected t o w S T s3 → result s3 = new_result t.
Proof.
  intros (s1 & s2 & H1 & H2 & H3).
  rewrite (getTableSchema_same_result _ _ _ _ _ H3).
  rewrite (getTableSchema_same_result _ _ _ _ _ H2).
  by rewrite (disable_step_same_result _ _ _ _ H1).
Qed.

Lemma inspected_by_steps ok t o w S T s3 :
  (∀ b, ok Target (SET_FOREIGN_KEY_CHECKS b)) →
  (∀ p, ok p (DESCRIBE t)) →
  inspected t o w S T s3 → rtc (step ok) w (world s3).
Proof.
  intros Hfk Hd (s1 & s2 & H1 & H2 & H3).
  change (by_steps ok (mkState w (new_result t)) s3).
  etrans; [exact (disable_step_by_steps ok o (λ _, Hfk) _ _ _ H1) |].
  etrans; [exact (getTableSchema_by_steps ok Source t (Hd _) _ _ _ H2) |].
  exact (getTableSchema_by_steps ok Target t (Hd _) _ _ _ H3).
Qed.

(** A [try] block that ended with error [e] in state [s]: the result is the
    failure carrying [e], and after [s] nothing but the re-enabling of the
    checks reaches the databases. *)
Lemma migrateTable_after_throw ok fuel t o w e s :
  (∀ b, ok Target (SET_FOREIGN_KEY_CHECKS b)) →
  migrateTable_try fuel t o (mkState w (new_result t)) = Some (Throw e, s) →
  ∃ w', migrateTable fuel t o w
          = Some (Return (mkResult (table (result s)) false (rowsMigrated (result s))
                            (errors (result s) ++ [message e])), w') ∧
        rtc (step ok) (world s) w' ∧
        ∃ evs, trace w' = trace (world s) ++ evs ∧
               Forall (λ ev, stage_of (ev_statement ev) = FkToggle) evs.
Proof.
  intros Hfk Htry.
  destruct (restore_step_spec o (caught t e s)) as (s' & Hr & Hres & Hspec).
  exists (world s'). split; [| split].
  - rewrite (migrateTable_finish _ _ _ _ _ _ (migrateTable_guarded_throw _ _ _ _ _ _ Htry) Hr).
    by rewrite Hres.
  - eapply rtc_l; [apply step_print |].
    exact (restore_step_by_steps ok o (λ _, Hfk) _ _ _ Hr).
  - destruct (toggles o).
    + destruct Hspec as (err & Htr & _). eexists. split; [exact Htr |].
      by repeat constructor.
    + subst s'. exists []. by rewrite app_nil_r.
Qed.

(** X20: when the two schemas were fetched, every column they share is
    ignored, no column of the source that is not ignored bears the name of a
    member of [Object.prototype], and the target has no column named
    "__proto__", the table fails with the message "No common columns found
    for table <table>", no row is counted, and the only statements of the
    whole run are foreign-key toggles and schema fetches: no backup, no
    truncate, no chunk read, no row write. *)
Theorem no_common_columns_fails_the_table fuel t o w S T s3 :
  inspected t o w S T s3 →
  (∀ col, col ∈ Object_keys S → col ∈ Object_keys T → col ∈ ignoreColumns o) →
  (∀ col, col ∈ Object_keys S → col ∈ Object_prototype → col ∈ ignoreColumns o) →
  proto T = None →
  ∃ r w', migrateTable fuel t o w = Some (Return r, w') ∧
    success r = false ∧
    rowsMigrated r = 0 ∧
    errors r = ["No common columns found for table " +:+ t] ∧
    ∃ evs, trace w' = trace w ++ evs ∧
           Forall (λ ev, inspects (ev_pool ev) (ev_statement ev)) evs.
Proof.
  intros Hins Hshared Hinherited Hproto.
  pose proof (commonColumns_none S T _ Hshared Hinherited Hproto) as Hnone.
  assert (Htry : migrateTable_try fuel t o (mkState w (new_result t))
                 = Some (Throw (no_common_columns t), s3)).
  { destruct Hins as (s1 & s2 & H1 & H2 & H3). unfold migrateTable_try.
    rewrite (bind_return _ _ _ _ _ H1), (bind_return _ _ _ _ _ H2),
      (bind_return _ _ _ _ _ H3), Hnone. done. }
  destruct (migrateTable_after_throw inspects fuel t o w _ _ (λ _, or_introl eq_refl) Htry)
    as (w' & Hrun & Hsteps & _).
  rewrite (inspected_result _ _ _ _ _ _ Hins) in Hrun.
  eexists _, w'. split; [exact Hrun |]. split; [done |]. split; [done |].
  split; [done |].
  apply steps_trace. etrans; [| exact Hsteps].
  apply (inspected_by_steps inspects t o w S T s3); [| | done].
  - intros b. by left.
  - intros p. by right.
Qed.

Lemma no_common_columns_fails_the_table_witness :
  let o := options_ignoring_all in
  inspected "users" o (world_with []) user_schema user_schema (users_inspected o []) ∧
  (∀ col, col ∈ Object_keys user_schema → col ∈ Object_keys user_schema →
          col ∈ ignoreColumns o) ∧
  (∀ col, col ∈ Object_keys user_schema → col ∈ Object_prototype →
          col ∈ ignoreColumns o) ∧
  proto user_schema = None ∧
  ∃ r w', migrateTable 6 "users" o (world_with []) = Some (Return r, w') ∧
    success r = false ∧
    rowsMigrated r = 0 ∧
    errors r = ["No common columns found for table " +:+ "users"] ∧
    ∃ evs, trace w' = trace (world_with []) ++ evs ∧
           Forall (λ ev, inspects (ev_pool ev) (ev_statement ev)) evs.
Proof.
  intros o.
  assert (Hins : inspected "users" o (world_with []) user_schema user_schema
                   (users_inspected o [])).
  { eexists _, _. split; [by vm_compute |]. split; [by vm_compute |]. by vm_compute. }
  assert (Hkeys : ∀ col, col ∈ Object_keys user_schema → col ∈ ignoreColumns o).
  { intros col Hcol. exact Hcol. }
  split; [exact Hins |]. split; [exact (λ col Hcol _, Hkeys col Hcol) |].
  split; [exact (λ col Hcol _, Hkeys col Hcol) |]. split; [reflexivity |].
  exact (no_common_columns_fails_the_table 6 "users" o (world_with [])
           user_schema user_schema _ Hins
           (λ col Hcol _, Hkeys col Hcol) (λ col Hcol _, Hkeys col Hcol) eq_refl).
Defined.

(** C7: the test for a common column reads [targetSchema[col]], which finds
    the members of [Object.prototype] as well as the columns of the target.
    The source table [audit] has the columns [id] and [constructor], the
    target table the column [id], and [id] is ignored: no column is common
    to the two once [id] is left out, yet [constructor] passes the test.  The
    table is not failed: the target table is backed up and truncated, the
    source is read, and the result is a success with no row. *)
Theorem inherited_name_counts_as_common :
  let S := schema_of audit_source in
  let T := schema_of audit_target in
  let w' := world_left 1 "audit" ignoring_id audit_world in
  (∀ col, col ∈ Object_keys S → col ∈ Object_keys T → col ∈ ignoreColumns ignoring_id) ∧
  commonColumns S T (ignoreColumns ignoring_id) = ["constructor"] ∧
  migrateTable 1 "audit" ignoring_id audit_world
    = Some (Return (mkResult "audit" true 0 []), w') ∧
  stages (trace w')
    = [FkToggle; SchemaFetch; SchemaFetch; Backup; Backup; Truncate; ChunkRead;
       FkToggle] ∧
  tables (target audit_world) !! "audit" = Some (mkTable one_column [[("id", "7")]]) ∧
  tables (target w') !! "audit" = Some (mkTable one_column []).
Proof.
  intros S T w'. split_and!; [| by vm_compute ..].
  intros col _ Hcol. exact Hcol.
Qed.

(** C8: when the backup fails (its CREATE TABLE ... LIKE or its INSERT ...
    SELECT raised), the table fails with the backup error; after the failure
    the only statement that can follow is the re-enabling of the foreign-key
    checks; the whole run issued no TRUNCATE, no chunk read and no row
    INSERT, and the target table holds what it held before. *)
Theorem failed_backup_stops_the_table fuel t o w S T s3 e s4 :
  inspected t o w S T s3 →
  commonColumns S T (ignoreColumns o) ≠ [] →
  dryRun o = false →
  backupTable Target t s3 = Some (Throw e, s4) →
  ∃ r w', migrateTable fuel t o w = Some (Return r, w') ∧
    success r = false ∧
    rowsMigrated r = 0 ∧
    errors r = [message e] ∧
    (∃ evs, trace w' = trace (world s4) ++ evs ∧
            Forall (λ ev, stage_of (ev_statement ev) = FkToggle) evs) ∧
    (∃ evs, trace w' = trace w ++ evs ∧
            Forall (λ ev, spares t (ev_pool ev) (ev_statement ev)) evs) ∧
    tables (target w') !! t = tables (target w) !! t.
Proof.
  intros Hins Hsome Hdry Hbackup.
  assert (Htry : migrateTable_try fuel t o (mkState w (new_result t))
                 = Some (Throw e, s4)).
  { destruct Hins as (s1 & s2 & H1 & H2 & H3). unfold migrateTable_try.
    rewrite (bind_return _ _ _ _ _ H1), (bind_return _ _ _ _ _ H2),
      (bind_return _ _ _ _ _ H3).
    destruct (decide (length _ = 0)) as [Hz | _].
    { by apply nil_length_inv in Hz. }
    apply bind_throw. unfold backup_step. rewrite Hdry. simpl.
    by apply bind_throw. }
  destruct (migrateTable_after_throw (spares t) fuel t o w _ _ (λ _, I) Htry)
    as (w' & Hrun & Hsteps & Hafter).
  rewrite (backupTable_same_result _ _ _ _ _ Hbackup),
    (inspected_result _ _ _ _ _ _ Hins) in Hrun.
  assert (Hall : rtc (step (spares t)) w w').
  { etrans; [| exact Hsteps].
    etrans; [by apply (inspected_by_steps (spares t) t o w S T s3) |].
    refine (backupTable_by_steps (spares t) t _ _ _ _ _ Hbackup);
      intros ts; apply backup_name_ne. }
  eexists _, w'. split; [exact Hrun |]. split; [done |]. split; [done |].
  split; [done |]. split; [exact Hafter |].
  split; [by apply steps_trace | by apply steps_spares].
Qed.

Lemma failed_backup_stops_the_table_witness :
  let plan := [None; None; None; None; Some "Lock wait timeout exceeded"] in
  let o := options "disable" false in
  let e := mkError ("Error creating backup for table users: "
                    +:+ "Lock wait timeout exceeded") in
  let s4 := state_after (backupTable Target "users") (users_inspected o plan) in
  inspected "users" o (world_with plan) user_schema user_schema (users_inspected o plan) ∧
  commonColumns user_schema user_schema (ignoreColumns o) ≠ [] ∧
  dryRun o = false ∧
  backupTable Target "users" (users_inspected o plan) = Some (Throw e, s4) ∧
  ∃ r w', migrateTable 6 "users" o (world_with plan) = Some (Return r, w') ∧
    success r = false ∧
    rowsMigrated r = 0 ∧
    errors r = [message e] ∧
    (∃ evs, trace w' = trace (world s4) ++ evs ∧
            Forall (λ ev, stage_of (ev_statement ev) = FkToggle) evs) ∧
    (∃ evs, trace w' = trace (world_with plan) ++ evs ∧
            Forall (λ ev, spares "users" (ev_pool ev) (ev_statement ev)) evs) ∧
    tables (target w') !! "users" = tables (target (world_with plan)) !! "users".
Proof.
  intros plan o e s4.
  assert (Hins : inspected "users" o (world_with plan) user_schema user_schema
                   (users_inspected o plan)).
  { eexists _, _. split; [by vm_compute |]. split; [by vm_compute |]. by vm_compute. }
  assert (Hcols : commonColumns user_schema user_schema (ignoreColumns o) ≠ []).
  { by vm_compute. }
  assert (Hbackup : backupTable Target "users" (users_inspected o plan)
                    = Some (Throw e, s4)).
  { by vm_compute. }
  split; [exact Hins |]. split; [exact Hcols |]. split; [reflexivity |].
  split; [exact Hbackup |].
  exact (failed_backup_stops_the_table 6 "users" o (world_with plan)
           user_schema user_schema _ e s4 Hins Hcols eq_refl Hbackup).
Defined.

(** ** The loop over the tables *)

Lemma migrateTables_from_app fuel o : ∀ pre rest acc w,
  migrateTables_from fuel (pre ++ rest) o acc w
  = match migrateTables_from fuel pre o acc w with
    | Some (Return acc', w1) => migrateTables_from fuel rest o acc' w1
    | other => other
    end.
Proof.
  induction pre as [| t pre IH]; intros rest acc w; simpl; [done |].
  destruct (migrateTable fuel t o w) as [[[r | e] w1] |]; [| done ..].
  apply IH.
Qed.

Lemma migrateTable_source fuel t o w out w' :
  migrateTable fuel t o w = Some (out, w') → source w' = source w.
Proof. intros Hrun. eapply steps_source, migrateTable_steps, Hrun. Qed.

Lemma migrateTable_returns_bounded fuel t o w :
  row_bound (source w) < fuel →
  ∃ r w', migrateTable fuel t o w = Some (Return r, w').
Proof.
  intros Hfuel. destruct (migrateTable_returns fuel t o w) as (r & w' & Hrun & _).
  - pose proof (rows_of_le_bound (source w) t). lia.
  - by exists r, w'.
Qed.

(** The loop returns, keeps the source, and leaves alone the entries of the
    tables it does not attempt. *)
Lemma migrateTables_from_returns fuel o : ∀ tbls acc w,
  row_bound (source w) < fuel →
  ∃ results w', migrateTables_from fuel tbls o acc w = Some (Return results, w') ∧
                source w' = source w ∧
                ∀ t0, t0 ∉ tbls → results !! t0 = acc !! t0.
Proof.
  induction tbls as [| t tbls IH]; intros acc w Hfuel; simpl.
  - by exists acc, w.
  - destruct (migrateTable_returns_bounded fuel t o w Hfuel) as (r & w1 & Hrun).
    rewrite Hrun. pose proof (migrateTable_source _ _ _ _ _ _ Hrun) as Hsrc.
    destruct (IH (assign t r acc) w1) as (results & w' & Hrest & Hsrc' & Hkeep).
    { by rewrite Hsrc. }
    exists results, w'. split; [done |]. split; [congruence |].
    intros t0 Ht0. rewrite Hkeep by set_solver.
    apply lookup_assign_ne. set_solver.
Qed.

(** C4: the loop of [migrateTables] attempts every table of the list: at
    each position, the tables before it were processed as if the list ended
    there, the table is attempted from the world they left whatever their
    outcome, its result is stored (unless the same name is attempted again
    later), and the results of the tables before it are the ones they had
    when they finished. *)
Theorem migrateTables_isolates_tables fuel tbls o w :
  row_bound (source w) < fuel →
  ∃ results w', migrateTables fuel tbls o w = Some (Return results, w') ∧
    ∀ pre t post, tbls = pre ++ t :: post →
      ∃ earlier w1 r w2,
        migrateTables fuel pre o w = Some (Return earlier, w1) ∧
        migrateTable fuel t o w1 = Some (Return r, w2) ∧
        (t ∉ post → results !! t = Some r) ∧
        (∀ t0, t0 ∉ t :: post → results !! t0 = earlier !! t0).
Proof.
  intros Hfuel. unfold migrateTables.
  destruct (migrateTables_from_returns fuel o tbls ∅ w Hfuel)
    as (results & w' & Hrun & _ & _).
  exists results, w'. split; [done |]. intros pre t post ->.
  rewrite migrateTables_from_app in Hrun.
  destruct (migrateTables_from_returns fuel o pre ∅ w Hfuel)
    as (earlier & w1 & Hpre & Hsrc1 & _).
  rewrite Hpre in Hrun. simpl in Hrun.
  destruct (migrateTable_returns_bounded fuel t o w1) as (r & w2 & Ht);
    [by rewrite Hsrc1 |].
  rewrite Ht in Hrun.
  destruct (migrateTables_from_returns fuel o post (assign t r earlier) w2)
    as (results' & w'' & Hpost & _ & Hkeep).
  { by rewrite (migrateTable_source _ _ _ _ _ _ Ht), Hsrc1. }
  rewrite Hpost in Hrun. injection Hrun as <- <-.
  exists earlier, w1, r, w2. split; [done |]. split; [done |]. split.
  - intros Hnot. rewrite Hkeep by done. apply lookup_assign_eq.
  - intros t0 Ht0. rewrite Hkeep by set_solver.
    apply lookup_assign_ne. set_solver.
Qed.

Lemma migrateTables_isolates_tables_witness :
  row_bound (source second_table_fails) < 4 ∧
  ∃ results w',
    migrateTables 4 ["a"; "b"; "c"] preserving second_table_fails
      = Some (Return results, w') ∧
    ∀ pre t post, ["a"; "b"; "c"] = pre ++ t :: post →
      ∃ earlier w1 r w2,
        migrateTables 4 pre preserving second_table_fails = Some (Return earlier, w1) ∧
        migrateTable 4 t preserving w1 = Some (Return r, w2) ∧
        (t ∉ post → results !! t = Some r) ∧
        (∀ t0, t0 ∉ t :: post → results !! t0 = earlier !! t0).
Proof.
  split; [vm_compute; lia |].
  apply (migrateTables_isolates_tables 4 ["a"; "b"; "c"] preserving second_table_fails).
  vm_compute; lia.
Defined.

(** The example of the specification: the second of three tables fails on a
    write; the first keeps its successful result and the third is migrated. *)
Example migrateTables_second_of_three_fails :
  let results :=
    results_of (migrateTables 4 ["a"; "b"; "c"] preserving second_table_fails) in
  results !! "a" = Some (mkResult "a" true 1 []) ∧
  results !! "b" = Some (mkResult "b" false 0 ["Connection lost"]) ∧
  results !! "c" = Some (mkResult "c" true 1 []).
Proof. vm_compute. by split_and!. Qed.

(* ===================================================================== *)
(** * Further properties of the per-table engine                          *)
(* ===================================================================== *)

(** ** Runs without faults, step by step *)

Lemma fault_free_after p q err db w :
  fault_free w → fault_free (after_statement p q err db w).
Proof.
  unfold fault_free. simpl. intros Hff.
  destruct (faults w) as [| f fs]; [done |]. by apply Forall_cons in Hff as [_ ?].
Qed.

Lemma fault_free_print l msg w : fault_free w → fault_free (print l msg w).
Proof. done. Qed.

(** Without a fault a statement does what the database makes of it. *)
Lemma execute_fault_free p q s :
  fault_free (world s) →
  execute p q s
  = match run_statement q (database_of p (world s)) with
    | inl msg =>
        Some (Throw (mkError msg),
              mkState (after_statement p q (Some msg) (database_of p (world s)) (world s))
                      (result s))
    | inr (rs, db') =>
        Some (Return rs, mkState (after_statement p q None db' (world s)) (result s))
    end.
Proof.
  unfold fault_free, execute. intros Hff.
  destruct (faults (world s)) as [| f fs]; [done |].
  apply Forall_cons in Hff as [-> _]. done.
Qed.

(** The values bound for a row read with the same column list are the row. *)
Lemma obj_get_project cols c r :
  has_columns cols r → c ∈ cols → obj_get c (project cols r) = obj_get c r.
Proof.
  unfold project. induction cols as [| c1 cols IH]; intros Hall Hc.
  - by apply elem_of_nil in Hc.
  - apply Forall_cons in Hall as [[v1 Hv1] Hall]. simpl. rewrite Hv1. simpl.
    destruct (decide (c = c1)) as [-> | Hne]; [done |].
    apply IH; [done |]. set_solver.
Qed.

Lemma bound_values_of_row cols r :
  has_columns cols r →
  ∃ vs, mapM id ((λ c, obj_get c r) <$> cols) = Some vs ∧
        zip cols vs = project cols r.
Proof.
  unfold project. induction cols as [| c cols IH]; intros Hall.
  - by exists [].
  - apply Forall_cons in Hall as [[v Hv] Hall].
    destruct (IH Hall) as (vs & Hvs & Hzip).
    exists (v :: vs). rewrite fmap_cons. simpl. rewrite Hv. simpl.
    rewrite Hvs. simpl. by rewrite Hzip.
Qed.

Lemma bound_values_of_projected cols r :
  has_columns cols r →
  ∃ vs, mapM id ((λ c, obj_get c (project cols r)) <$> cols) = Some vs ∧
        zip cols vs = project cols r.
Proof.
  intros Hall. destruct (bound_values_of_row cols r Hall) as (vs & Hvs & Hzip).
  exists vs. split; [| done]. rewrite <- Hvs. f_equal.
  apply list_fmap_ext. intros i c Hc.
  apply obj_get_project; [done |]. by eapply list_elem_of_lookup_2.
Qed.

(** One row write without a fault appends the row to the target table. *)
Lemma write_row_fault_free t cols r T s :
  fault_free (world s) →
  tables (target (world s)) !! t = Some T →
  has_columns cols r →
  ∃ s', execute Target
          (INSERT_VALUES t cols ((λ c, obj_get c (project cols r)) <$> cols)) s
        = Some (Return OkPacket, s') ∧
        fault_free (world s') ∧
        result s' = result s ∧
        source (world s') = source (world s) ∧
        foreign_key_checks (target (world s')) = foreign_key_checks (target (world s)) ∧
        tables (target (world s'))
        = <[t := mkTable (columns T) (rows T ++ [project cols r])]>
            (tables (target (world s))).
Proof.
  intros Hff HT Hall. rewrite (execute_fault_free _ _ _ Hff). simpl.
  destruct (bound_values_of_projected cols r Hall) as (vs & -> & ->).
  rewrite HT. eexists. split; [done |]. simpl.
  split; [by apply fault_free_after | done].
Qed.

(** The writes of one chunk without a fault append the chunk, in order. *)
Lemma write_rows_fault_free t cols : ∀ (rws : list row) T s,
  fault_free (world s) →
  tables (target (world s)) !! t = Some T →
  Forall (has_columns cols) rws →
  ∃ l s', Promise_all
            ((λ r, execute Target
                     (INSERT_VALUES t cols ((λ col, obj_get col r) <$> cols)))
               <$> (project cols <$> rws)) s
          = Some (Return l, s') ∧
          fault_free (world s') ∧
          result s' = result s ∧
          source (world s') = source (world s) ∧
          foreign_key_checks (target (world s')) = foreign_key_checks (target (world s)) ∧
          tables (target (world s'))
          = <[t := mkTable (columns T) (rows T ++ (project cols <$> rws))]>
              (tables (target (world s))).
Proof.
  induction rws as [| r rws IH]; intros T s Hff HT Hall.
  - exists [], s. simpl. split; [done |]. split; [done |]. split; [done |].
    split; [done |]. split; [done |].
    rewrite app_nil_r. destruct T. by rewrite insert_id.
  - apply Forall_cons in Hall as [Hr Hall].
    destruct (write_row_fault_free t cols r T s Hff HT Hr)
      as (s1 & Hrun & Hff1 & Hres1 & Hsrc1 & Hfk1 & Htab1).
    destruct (IH (mkTable (columns T) (rows T ++ [project cols r])) s1)
      as (l & s2 & Hrest & Hff2 & Hres2 & Hsrc2 & Hfk2 & Htab2); [done | | done |].
    { rewrite Htab1. apply lookup_insert_eq. }
    rewrite !fmap_cons. simpl. rewrite Hrun.
    rewrite (bind_return _ _ _ _ _ Hrest). eexists _, s2. split; [done |].
    split; [done |]. split; [congruence |]. split; [congruence |].
    split; [congruence |].
    rewrite Htab2, Htab1, insert_insert_eq. simpl.
    by rewrite <- app_assoc.
Qed.

(** A chunk read without a fault. *)
Lemma select_fault_free cols t offset n Ts s :
  fault_free (world s) →
  tables (source (world s)) !! t = Some Ts →
  ∃ s', select Source (SELECT_LIMIT cols t offset n) s
        = Some (Return (project cols <$> take n (drop offset (rows Ts))), s') ∧
        fault_free (world s') ∧
        result s' = result s ∧
        source (world s') = source (world s) ∧
        target (world s') = target (world s).
Proof.
  intros Hff HT. unfold select, bind.
  rewrite (execute_fault_free _ _ _ Hff). simpl. rewrite HT.
  eexists. split; [done |]. simpl. split; [by apply fault_free_after | done].
Qed.

(** The loop without a fault, outside a dry run: every row from [offset] on
    is appended to the target table, in the order of the source, and
    counted. *)
Lemma transfer_fault_free t o cols Ts : ∀ fuel offset T s,
  dryRun o = false →
  0 < chunkSize o →
  fault_free (world s) →
  tables (source (world s)) !! t = Some Ts →
  tables (target (world s)) !! t = Some T →
  Forall (has_columns cols) (rows Ts) →
  length (drop offset (rows Ts)) < fuel →
  ∃ s', transfer fuel t o cols offset s = Some (Return (), s') ∧
        fault_free (world s') ∧
        source (world s') = source (world s) ∧
        foreign_key_checks (target (world s')) = foreign_key_checks (target (world s)) ∧
        tables (target (world s'))
        = <[t := mkTable (columns T)
                    (rows T ++ (project cols <$> drop offset (rows Ts)))]>
            (tables (target (world s))) ∧
        result s'
        = mkResult (table (result s)) (success (result s))
                   (rowsMigrated (result s) + length (drop offset (rows Ts)))
                   (errors (result s)).
Proof.
  induction fuel as [| fuel IH]; intros offset T s Hdry Hchunk Hff Hsrc Htgt Hall Hfuel;
    [lia |].
  simpl.
  destruct (select_fault_free cols t offset (chunkSize o) Ts s Hff Hsrc)
    as (s1 & Hsel & Hff1 & Hres1 & Hsrc1 & Htgt1).
  rewrite (bind_return _ _ _ _ _ Hsel).
  set (chunk := take (chunkSize o) (drop offset (rows Ts))).
  destruct (decide (length (project cols <$> chunk) = 0)) as [Hz | Hnz].
  - assert (Hend : drop offset (rows Ts) = []).
    { rewrite length_fmap in Hz. apply nil_length_inv in Hz.
      apply take_nil_inv in Hz as [Hz | Hz]; [lia | done]. }
    exists s1. split; [done |]. rewrite Hend, Hsrc1, Htgt1, Hres1. simpl.
    rewrite app_nil_r, Nat.add_0_r. split; [done |]. split; [done |].
    split; [done |]. split; [| by destruct (result s)].
    destruct T. by rewrite insert_id.
  - assert (Hchunk_all : Forall (has_columns cols) chunk).
    { by apply Forall_take, Forall_drop. }
    destruct (write_rows_fault_free t cols chunk T s1 Hff1) as
      (l & s2 & Hw & Hff2 & Hres2 & Hsrc2 & Hfk2 & Htab2); [by rewrite Htgt1 | done |].
    set (s3 := mkState
                 (print LOG ("Migrated "
                             +:+ pretty (rowsMigrated (result s) + length (project cols <$> chunk))
                             +:+ " rows for table " +:+ t) (world s2))
                 (mkResult (table (result s)) (success (result s))
                           (rowsMigrated (result s) + length (project cols <$> chunk))
                           (errors (result s)))).
    assert (Hmc : migrate_chunk t o cols (project cols <$> chunk) s1
                  = Some (Return (), s3)).
    { unfold migrate_chunk, write_chunk. rewrite Hdry.
      rewrite (bind_return _ _ _ _ _ (bind_return _ _ _ _ _ Hw)).
      unfold bind, add_rowsMigrated, get_rowsMigrated, logger_log. simpl.
      by rewrite Hres2, Hres1. }
    rewrite (bind_return _ _ _ _ _ Hmc).
    destruct (IH (offset + chunkSize o)
                 (mkTable (columns T) (rows T ++ (project cols <$> chunk))) s3)
      as (s' & Hrun & Hff' & Hsrc' & Hfk' & Htab' & Hres'); try done.
    { simpl. by rewrite Hsrc2, Hsrc1. }
    { simpl. rewrite Htab2. apply lookup_insert_eq. }
    { rewrite length_fmap in Hnz. unfold chunk in Hnz.
      rewrite length_take in Hnz. rewrite length_drop in *. lia. }
    exists s'. split; [done |]. split; [done |].
    assert (Hsplit : drop offset (rows Ts)
                     = chunk ++ drop (offset + chunkSize o) (rows Ts)).
    { unfold chunk. by rewrite <- drop_drop, take_drop. }
    split; [simpl in Hsrc'; congruence |].
    split; [simpl in Hfk'; rewrite Hfk', Hfk2; by rewrite Htgt1 |].
    split.
    + rewrite Htab'. simpl. rewrite Htab2, insert_insert_eq, Htgt1.
      by rewrite Hsplit, fmap_app, app_assoc.
    + rewrite Hres'. simpl. f_equal.
      rewrite Hsplit, length_app, length_fmap. lia.
Qed.

Lemma disable_step_fault_free o s :
  fault_free (world s) →
  ∃ s', disable_step o s = Some (Return (), s') ∧
        fault_free (world s') ∧
        result s' = result s ∧
        source (world s') = source (world s) ∧
        clock (world s') = clock (world s) ∧
        tables (target (world s')) = tables (target (world s)) ∧
        foreign_key_checks (target (world s'))
        = if toggles o then false else foreign_key_checks (target (world s)).
Proof.
  intros Hff. unfold disable_step. destruct (toggles o); [| by exists s].
  unfold disableForeignKeyChecks, bind. rewrite (execute_fault_free _ _ _ Hff).
  simpl. eexists. split; [done |]. simpl.
  split; [by apply fault_free_after | done].
Qed.

Lemma restore_step_fault_free o s :
  fault_free (world s) →
  ∃ s', restore_step o s = Some (Return (), s') ∧
        result s' = result s ∧
        source (world s') = source (world s) ∧
        tables (target (world s')) = tables (target (world s)) ∧
        foreign_key_checks (target (world s'))
        = if toggles o then true else foreign_key_checks (target (world s)).
Proof.
  intros Hff. unfold restore_step. destruct (toggles o); [| by exists s].
  unfold try_catch, enableForeignKeyChecks, bind.
  rewrite (execute_fault_free _ _ _ Hff). simpl. by eexists.
Qed.

Lemma getTableSchema_fault_free p t T s :
  fault_free (world s) →
  tables (database_of p (world s)) !! t = Some T →
  ∃ s', getTableSchema p t s = Some (Return (schema_of T), s') ∧
        fault_free (world s') ∧
        result s' = result s ∧
        source (world s') = source (world s) ∧
        target (world s') = target (world s) ∧
        clock (world s') = clock (world s).
Proof.
  intros Hff HT. unfold getTableSchema, try_catch, bind.
  rewrite (execute_fault_free _ _ _ Hff). simpl. rewrite HT.
  eexists. split; [done |]. simpl.
  split; [by apply fault_free_after |]. by destruct p.
Qed.

(** A backup without a fault, under a name that is free: the backup table
    holds the columns and the rows of the table, which is left as it was. *)
Lemma backupTable_fault_free t T s :
  fault_free (world s) →
  tables (target (world s)) !! t = Some T →
  tables (target (world s)) !! backup_name t (clock (world s)) = None →
  ∃ s', backupTable Target t s
        = Some (Return (backup_name t (clock (world s))), s') ∧
        fault_free (world s') ∧
        result s' = result s ∧
        source (world s') = source (world s) ∧
        clock (world s') = clock (world s) ∧
        foreign_key_checks (target (world s')) = foreign_key_checks (target (world s)) ∧
        tables (target (world s'))
        = <[backup_name t (clock (world s)) := mkTable (columns T) (rows T)]>
            (tables (target (world s))).
Proof.
  intros Hff HT Hfree. unfold backupTable, timestamp, try_catch, bind.
  rewrite (execute_fault_free _ _ _ Hff). simpl. rewrite HT, Hfree.
  rewrite execute_fault_free by (by apply fault_free_after). simpl.
  rewrite lookup_insert_eq, lookup_insert_ne by apply backup_name_ne.
  rewrite HT. simpl. eexists. split; [done |]. simpl.
  split; [by do 2 apply fault_free_after |].
  by rewrite insert_insert_eq.
Qed.

Lemma truncate_step_fault_free t o T s :
  fault_free (world s) →
  tables (target (world s)) !! t = Some T →
  ∃ s', truncate_step t o s = Some (Return (), s') ∧
        fault_free (world s') ∧
        result s' = result s ∧
        source (world s') = source (world s) ∧
        foreign_key_checks (target (world s')) = foreign_key_checks (target (world s)) ∧
        tables (target (world s')) !! t
        = Some (mkTable (columns T)
                  (if truncateTarget o && negb (dryRun o) then [] else rows T)) ∧
        ∀ t', t' ≠ t →
          tables (target (world s')) !! t' = tables (target (world s)) !! t'.
Proof.
  intros Hff HT. unfold truncate_step.
  destruct (truncateTarget o && negb (dryRun o)).
  - unfold bind. rewrite (execute_fault_free _ _ _ Hff). simpl. rewrite HT.
    eexists. split; [done |]. simpl. split; [by apply fault_free_after |].
    split; [done |]. split; [done |]. split; [done |].
    split; [by rewrite lookup_insert_eq |].
    intros t' Hne. by rewrite lookup_insert_ne.
  - exists s. destruct T. by rewrite HT.
Qed.

(** The whole of a migration without a fault. *)
Lemma migrateTable_fault_free fuel t o w Ts Tt :
  fault_free w →
  dryRun o = false →
  0 < chunkSize o →
  tables (source w) !! t = Some Ts →
  tables (target w) !! t = Some Tt →
  tables (target w) !! backup_name t (clock w) = None →
  commonColumns (schema_of Ts) (schema_of Tt) (ignoreColumns o) ≠ [] →
  Forall (has_columns (commonColumns (schema_of Ts) (schema_of Tt) (ignoreColumns o)))
         (rows Ts) →
  length (rows Ts) < fuel →
  ∃ w', migrateTable fuel t o w
        = Some (Return (mkResult t true (length (rows Ts)) []), w') ∧
        source w' = source w ∧
        tables (target w')
        = <[t := mkTable (columns Tt)
                    ((if truncateTarget o then [] else rows Tt) ++
                     (project (commonColumns (schema_of Ts) (schema_of Tt) (ignoreColumns o))
                        <$> rows Ts))]>
            (<[backup_name t (clock w) := mkTable (columns Tt) (rows Tt)]>
               (tables (target w))) ∧
        foreign_key_checks (target w')
        = (if toggles o then true else foreign_key_checks (target w)).
Proof.
  intros Hff Hdry Hchunk Hsrc Htgt Hfree Hcols Hall Hfuel.
  set (cols := commonColumns (schema_of Ts) (schema_of Tt) (ignoreColumns o)) in *.
  set (s0 := mkState w (new_result t)).
  destruct (disable_step_fault_free o s0 Hff)
    as (s1 & H1 & Hff1 & Hres1 & Hsrc1 & Hclk1 & Htab1 & Hfk1).
  destruct (getTableSchema_fault_free Source t Ts s1 Hff1)
    as (s2 & H2 & Hff2 & Hres2 & Hsrc2 & Htgt2 & Hclk2).
  { simpl. by rewrite Hsrc1. }
  destruct (getTableSchema_fault_free Target t Tt s2 Hff2)
    as (s3 & H3 & Hff3 & Hres3 & Hsrc3 & Htgt3 & Hclk3).
  { simpl. by rewrite Htgt2, Htab1. }
  assert (Hclk : clock (world s3) = clock w) by (by rewrite Hclk3, Hclk2, Hclk1).
  assert (Htab3 : tables (target (world s3)) = tables (target w)).
  { by rewrite Htgt3, Htgt2, Htab1. }
  destruct (backupTable_fault_free t Tt s3 Hff3)
    as (s4 & H4 & Hff4 & Hres4 & Hsrc4 & Hclk4 & Hfk4 & Htab4).
  { by rewrite Htab3. }
  { by rewrite Htab3, Hclk. }
  destruct (truncate_step_fault_free t o Tt s4 Hff4)
    as (s5 & H5 & Hff5 & Hres5 & Hsrc5 & Hfk5 & Ht5 & Hother5).
  { rewrite Htab4, lookup_insert_ne, Htab3; [done | apply backup_name_ne]. }
  rewrite Hdry, andb_true_r in Ht5.
  destruct (transfer_fault_free t o cols Ts fuel 0
              (mkTable (columns Tt) (if truncateTarget o then [] else rows Tt))
              s5 Hdry Hchunk Hff5)
    as (s6 & H6 & Hff6 & Hsrc6 & Hfk6 & Htab6 & Hres6); [| exact Ht5 | done | by rewrite drop_0 |].
  { by rewrite Hsrc5, Hsrc4, Hsrc3, Hsrc2, Hsrc1. }
  rewrite drop_0 in Htab6, Hres6. simpl in Htab6.
  set (s7 := mkState
               (print LOG ("Successfully migrated " +:+ pretty (length (rows Ts))
                           +:+ " rows for table " +:+ t) (world s6))
               (mkResult t true (length (rows Ts)) [])).
  assert (Htry : migrateTable_try fuel t o s0 = Some (Return (), s7)).
  { unfold migrateTable_try.
    rewrite (bind_return _ _ _ _ _ H1), (bind_return _ _ _ _ _ H2),
      (bind_return _ _ _ _ _ H3).
    fold cols. destruct (decide (length cols = 0)) as [Hz | _].
    { by apply nil_length_inv in Hz. }
    assert (Hb : backup_step t o s3 = Some (Return (), s4)).
    { unfold backup_step. rewrite Hdry. simpl. by rewrite (bind_return _ _ _ _ _ H4). }
    rewrite (bind_return _ _ _ _ _ Hb), (bind_return _ _ _ _ _ H5),
      (bind_return _ _ _ _ _ H6).
    unfold bind, set_success, get_rowsMigrated, logger_log. simpl.
    rewrite Hres6. simpl. rewrite Hres5, Hres4, Hres3, Hres2, Hres1. done. }
  assert (Hff7 : fault_free (world s7)) by done.
  destruct (restore_step_fault_free o s7 Hff7) as (s8 & H8 & Hres8 & Hsrc8 & Htab8 & Hfk8).
  exists (world s8). split; [| split; [| split]].
  - rewrite (migrateTable_finish _ _ _ _ _ _ (migrateTable_guarded_return _ _ _ _ _ Htry) H8).
    by rewrite Hres8.
  - rewrite Hsrc8. simpl. by rewrite Hsrc6, Hsrc5, Hsrc4, Hsrc3, Hsrc2, Hsrc1.
  - rewrite Htab8. simpl. rewrite Htab6.
    assert (Hs5 : tables (target (world s5))
                  = <[t := mkTable (columns Tt) (if truncateTarget o then [] else rows Tt)]>
                      (tables (target (world s4)))).
    { apply map_eq. intros t'. destruct (decide (t' = t)) as [-> | Hne].
      - by rewrite lookup_insert_eq.
      - rewrite lookup_insert_ne by done. by apply Hother5. }
    by rewrite Hs5, insert_insert_eq, Htab4, Htab3, Hclk.
  - rewrite Hfk8. destruct (toggles o); [done |]. simpl.
    by rewrite Hfk6, Hfk5, Hfk4, Htgt3, Htgt2, Hfk1.
Qed.

Lemma steps_fault_free ok w w' :
  rtc (step ok) w w' → fault_free w → fault_free w'.
Proof.
  induction 1 as [| w1 w2 w3 Hstep _ IH]; [done |]. intros Hff. apply IH.
  destruct Hstep; [by apply fault_free_after .. | done].
Qed.

Lemma has_columns_decide cols (rws : list row) :
  forallb (λ r, forallb (λ c, bool_decide (is_Some (obj_get c r))) cols) rws = true →
  Forall (has_columns cols) rws.
Proof.
  intros H. apply Forall_forall. intros r Hr. apply Forall_forall. intros c Hc.
  apply list_elem_of_In in Hr, Hc.
  eapply forallb_forall in H; [| exact Hr].
  eapply forallb_forall in H; [| exact Hc].
  by apply bool_decide_eq_true in H.
Qed.

(** ** A dry run *)






(** X1: a migration without a fault copies the source rows: the target
    table ends with the source rows read through the common columns, after
    its own rows unless they were truncated; the backup table holds what the
    target table held; the source is untouched; [rowsMigrated] is the number
    of source rows. *)
Theorem migrateTable_copies_rows fuel t o w Ts Tt :
  fault_free w →
  dryRun o = false →
  0 < chunkSize o →
  tables (source w) !! t = Some Ts →
  tables (target w) !! t = Some Tt →
  tables (target w) !! backup_name t (clock w) = None →
  commonColumns (schema_of Ts) (schema_of Tt) (ignoreColumns o) ≠ [] →
  Forall (has_columns (commonColumns (schema_of Ts) (schema_of Tt) (ignoreColumns o)))
         (rows Ts) →
  length (rows Ts) < fuel →
  ∃ w', migrateTable fuel t o w
        = Some (Return (mkResult t true (length (rows Ts)) []), w') ∧
        source w' = source w ∧
        tables (target w')
        = <[t := mkTable (columns Tt)
                    ((if truncateTarget o then [] else rows Tt) ++
                     (project (commonColumns (schema_of Ts) (schema_of Tt) (ignoreColumns o))
                        <$> rows Ts))]>
            (<[backup_name t (clock w) := mkTable (columns Tt) (rows Tt)]>
               (tables (target w))).
Proof.
  intros Hff Hdry Hchunk Hsrc Htgt Hfree Hcols Hall Hfuel.
  destruct (migrateTable_fault_free fuel t o w Ts Tt Hff Hdry Hchunk Hsrc Htgt Hfree
              Hcols Hall Hfuel) as (w' & Hrun & Hsrc' & Htab & _).
  by exists w'.
Qed.

Lemma migrateTable_copies_rows_witness :
  let o := options "disable" false in
  let w := world_with [] in
  let cols := commonColumns (schema_of users_source) (schema_of users_target)
                (ignoreColumns o) in
  fault_free w ∧
  dryRun o = false ∧
  0 < chunkSize o ∧
  tables (source w) !! "users" = Some users_source ∧
  tables (target w) !! "users" = Some users_target ∧
  tables (target w) !! backup_name "users" (clock w) = None ∧
  cols ≠ [] ∧
  Forall (has_columns cols) (rows users_source) ∧
  length (rows users_source) < 6 ∧
  ∃ w', migrateTable 6 "users" o w
        = Some (Return (mkResult "users" true (length (rows users_source)) []), w') ∧
        source w' = source w ∧
        tables (target w')
        = <["users" := mkTable (columns users_target)
                    ((if truncateTarget o then [] else rows users_target) ++
                     (project cols <$> rows users_source))]>
            (<[backup_name "users" (clock w) := mkTable (columns users_target)
                                                  (rows users_target)]>
               (tables (target w))).
Proof.
  intros o w cols.
  assert (Hff : fault_free w) by constructor.
  assert (Hcols : cols ≠ []) by (by vm_compute).
  assert (Hall : Forall (has_columns cols) (rows users_source)).
  { apply has_columns_decide. by vm_compute. }
  assert (Hfuel : length (rows users_source) < 6) by (vm_compute; lia).
  assert (Hchunk : 0 < chunkSize o) by (vm_compute; lia).
  split; [exact Hff |]. split; [reflexivity |]. split; [exact Hchunk |].
  split; [by vm_compute |]. split; [by vm_compute |]. split; [by vm_compute |].
  split; [exact Hcols |]. split; [exact Hall |]. split; [exact Hfuel |].
  apply (migrateTable_copies_rows 6 "users" o w users_source users_target Hff
           eq_refl Hchunk); [by vm_compute .. | exact Hcols | exact Hall | exact Hfuel].
Defined.

(** X2: a backup of an existing table under a free name, without a fault,
    returns [<table>_backup_<timestamp>], creates that table on the target
    with the columns and the rows of the table, and changes nothing else. *)
Theorem backupTable_copies_table t T s :
  fault_free (world s) →
  tables (target (world s)) !! t = Some T →
  tables (target (world s)) !! backup_name t (clock (world s)) = None →
  ∃ s', backupTable Target t s
        = Some (Return (t +:+ "_backup_" +:+ clock (world s)), s') ∧
        source (world s') = source (world s) ∧
        foreign_key_checks (target (world s')) = foreign_key_checks (target (world s)) ∧
        tables (target (world s'))
        = <[t +:+ "_backup_" +:+ clock (world s) := mkTable (columns T) (rows T)]>
            (tables (target (world s))) ∧
        tables (target (world s')) !! t = Some T.
Proof.
  intros Hff HT Hfree.
  destruct (backupTable_fault_free t T s Hff HT Hfree)
    as (s' & Hrun & _ & _ & Hsrc & _ & Hfk & Htab).
  exists s'. split; [done |]. split; [done |]. split; [done |]. split; [done |].
  rewrite Htab, lookup_insert_ne; [done | apply backup_name_ne].
Qed.

Lemma backupTable_copies_table_witness :
  let s := mkState (world_with []) (new_result "users") in
  fault_free (world s) ∧
  tables (target (world s)) !! "users" = Some users_target ∧
  tables (target (world s)) !! backup_name "users" (clock (world s)) = None ∧
  ∃ s', backupTable Target "users" s
        = Some (Return ("users" +:+ "_backup_" +:+ clock (world s)), s') ∧
        source (world s') = source (world s) ∧
        foreign_key_checks (target (world s')) = foreign_key_checks (target (world s)) ∧
        tables (target (world s'))
        = <["users" +:+ "_backup_" +:+ clock (world s)
              := mkTable (columns users_target) (rows users_target)]>
            (tables (target (world s))) ∧
        tables (target (world s')) !! "users" = Some users_target.
Proof.
  intros s.
  assert (Hff : fault_free (world s)) by constructor.
  split; [exact Hff |]. split; [by vm_compute |]. split; [by vm_compute |].
  apply (backupTable_copies_table "users" users_target s Hff); by vm_compute.
Defined.

Lemma steps_inspects_tables w w' :
  rtc (step inspects) w w' → tables (target w') = tables (target w).
Proof.
  induction 1 as [| w1 w2 w3 Hstep _ IH]; [done |]. rewrite IH.
  destruct Hstep as [p q msg w1 Hok | p q rs db' w1 Hok Hq |]; try done.
  - by destruct p.
  - destruct p; [done |]. simpl.
    destruct Hok as [Hok | Hok]; destruct q; try done; simpl in Hq.
    + by injection Hq as <- <-.
    + destruct (tables (target w1) !! t); by simplify_eq.
Qed.

(** A backup whose name is taken fails at its first statement and leaves the
    target as it was. *)
Lemma backupTable_name_taken t T B s :
  fault_free (world s) →
  tables (target (world s)) !! t = Some T →
  tables (target (world s)) !! backup_name t (clock (world s)) = Some B →
  ∃ msg s', backupTable Target t s
            = Some (Throw (mkError ("Error creating backup for table " +:+ t
                                    +:+ ": " +:+ msg)), s') ∧
            result s' = result s ∧
            target (world s') = target (world s).
Proof.
  intros Hff HT Htaken. unfold backupTable, timestamp, try_catch, bind.
  rewrite (execute_fault_free _ _ _ Hff). simpl. rewrite HT, Htaken.
  by eexists _, _.
Qed.

(** X3: when the backup name [<table>_backup_<timestamp>] is already taken
    on the target (a second migration of the table within the same second),
    the migration fails with a backup error, no row is migrated, and the
    tables of the target are left as they were. *)
Theorem migrateTable_backup_name_taken fuel t o w Ts Tt B :
  fault_free w →
  dryRun o = false →
  tables (source w) !! t = Some Ts →
  tables (target w) !! t = Some Tt →
  tables (target w) !! backup_name t (clock w) = Some B →
  commonColumns (schema_of Ts) (schema_of Tt) (ignoreColumns o) ≠ [] →
  ∃ msg w', migrateTable fuel t o w
            = Some (Return (mkResult t false 0
                              ["Error creating backup for table " +:+ t
                               +:+ ": " +:+ msg]), w') ∧
            source w' = source w ∧
            tables (target w') = tables (target w).
Proof.
  intros Hff Hdry Hsrc Htgt Htaken Hcols.
  set (s0 := mkState w (new_result t)).
  destruct (disable_step_fault_free o s0 Hff)
    as (s1 & H1 & Hff1 & Hres1 & Hsrc1 & Hclk1 & Htab1 & Hfk1).
  destruct (getTableSchema_fault_free Source t Ts s1 Hff1)
    as (s2 & H2 & Hff2 & Hres2 & Hsrc2 & Htgt2 & Hclk2).
  { simpl. by rewrite Hsrc1. }
  destruct (getTableSchema_fault_free Target t Tt s2 Hff2)
    as (s3 & H3 & Hff3 & Hres3 & Hsrc3 & Htgt3 & Hclk3).
  { simpl. by rewrite Htgt2, Htab1. }
  assert (Htab3 : tables (target (world s3)) = tables (target w)).
  { by rewrite Htgt3, Htgt2, Htab1. }
  destruct (backupTable_name_taken t Tt B s3 Hff3)
    as (msg & s4 & H4 & Hres4 & Htgt4).
  { by rewrite Htab3. }
  { by rewrite Htab3, Hclk3, Hclk2, Hclk1. }
  assert (Htry : migrateTable_try fuel t o s0
                 = Some (Throw (mkError ("Error creating backup for table " +:+ t
                                         +:+ ": " +:+ msg)), s4)).
  { unfold migrateTable_try.
    rewrite (bind_return _ _ _ _ _ H1), (bind_return _ _ _ _ _ H2),
      (bind_return _ _ _ _ _ H3).
    destruct (decide (length _ = 0)) as [Hz | _].
    { by apply nil_length_inv in Hz. }
    apply bind_throw. unfold backup_step. rewrite Hdry. simpl.
    by apply bind_throw. }
  destruct (migrateTable_after_throw inspects fuel t o w _ _ (λ _, or_introl eq_refl) Htry)
    as (w' & Hrun & Hsteps & _).
  rewrite Hres4, Hres3, Hres2, Hres1 in Hrun. simpl in Hrun.
  exists msg, w'. split; [exact Hrun |].
  split; [by eapply migrateTable_source |].
  by rewrite (steps_inspects_tables _ _ Hsteps), Htgt4.
Qed.

Lemma migrateTable_backup_name_taken_witness :
  let o := options "disable" false in
  let w := world_left 6 "users" o (world_with []) in
  let B := mkTable user_columns [user "9" "z"] in
  let Tt := mkTable user_columns (rows users_source) in
  fault_free w ∧
  dryRun o = false ∧
  tables (source w) !! "users" = Some users_source ∧
  tables (target w) !! "users" = Some Tt ∧
  tables (target w) !! backup_name "users" (clock w) = Some B ∧
  commonColumns (schema_of users_source) (schema_of Tt) (ignoreColumns o) ≠ [] ∧
  ∃ msg w', migrateTable 6 "users" o w
            = Some (Return (mkResult "users" false 0
                              ["Error creating backup for table " +:+ "users"
                               +:+ ": " +:+ msg]), w') ∧
            source w' = source w ∧
            tables (target w') = tables (target w).
Proof.
  intros o w B Tt.
  assert (Hff : fault_free w) by (vm_compute; constructor).
  assert (Hcols : commonColumns (schema_of users_source) (schema_of Tt) (ignoreColumns o)
                  ≠ []) by (by vm_compute).
  split; [exact Hff |]. split; [reflexivity |]. split; [by vm_compute |].
  split; [by vm_compute |]. split; [by vm_compute |]. split; [exact Hcols |].
  apply (migrateTable_backup_name_taken 6 "users" o w users_source Tt B Hff eq_refl);
    [by vm_compute .. | exact Hcols].
Defined.

Lemma backup_name_inj t ts1 ts2 : backup_name t ts1 = backup_name t ts2 → ts1 = ts2.
Proof.
  unfold backup_name. intros H.
  apply (inj (String.app t)) in H. by apply (inj (String.app "_backup_")) in H.
Qed.

(** X4: with [truncateTarget], migrating a table again at a later second
    (so that the backup name is fresh), still without a fault, gives the same
    result and leaves the target table with the same rows as the first
    migration; the second backup holds the rows the first migration wrote. *)
Theorem migrateTable_twice_same_rows fuel t o w Ts Tt ts :
  fault_free w →
  dryRun o = false →
  truncateTarget o = true →
  0 < chunkSize o →
  tables (source w) !! t = Some Ts →
  tables (target w) !! t = Some Tt →
  tables (target w) !! backup_name t (clock w) = None →
  ts ≠ clock w →
  tables (target w) !! backup_name t ts = None →
  commonColumns (schema_of Ts) (schema_of Tt) (ignoreColumns o) ≠ [] →
  Forall (has_columns (commonColumns (schema_of Ts) (schema_of Tt) (ignoreColumns o)))
         (rows Ts) →
  length (rows Ts) < fuel →
  ∃ w1 w2,
    migrateTable fuel t o w
      = Some (Return (mkResult t true (length (rows Ts)) []), w1) ∧
    migrateTable fuel t o (at_time ts w1)
      = Some (Return (mkResult t true (length (rows Ts)) []), w2) ∧
    tables (target w2) !! t = tables (target w1) !! t ∧
    tables (target w2) !! backup_name t ts = tables (target w1) !! t.
Proof.
  intros Hff Hdry Htrunc Hchunk Hsrc Htgt Hfree Hts Hfree2 Hcols Hall Hfuel.
  destruct (migrateTable_fault_free fuel t o w Ts Tt Hff Hdry Hchunk Hsrc Htgt Hfree
              Hcols Hall Hfuel) as (w1 & Hrun1 & Hsrc1 & Htab1 & _).
  rewrite Htrunc in Htab1. simpl in Htab1.
  set (cols := commonColumns (schema_of Ts) (schema_of Tt) (ignoreColumns o)) in *.
  set (Tt1 := mkTable (columns Tt) (project cols <$> rows Ts)).
  assert (Hff1 : fault_free w1).
  { eapply (steps_fault_free _ w); [| done]. by eapply migrateTable_steps. }
  destruct (migrateTable_fault_free fuel t o (at_time ts w1) Ts Tt1)
    as (w2 & Hrun2 & _ & Htab2 & _); try done.
  { simpl. by rewrite Hsrc1. }
  { simpl. rewrite Htab1. apply lookup_insert_eq. }
  { simpl. rewrite Htab1, !lookup_insert_ne; [done | |].
    - intros Heq. by apply backup_name_inj in Heq.
    - intros Heq.
      first [exact (backup_name_ne _ _ Heq) | exact (backup_name_ne _ _ (eq_sym Heq))]. }
  exists w1, w2. split; [done |]. split; [done |].
  rewrite Htrunc in Htab2. simpl in Htab2. rewrite Htab2, Htab1.
  rewrite !lookup_insert_eq. split; [done |].
  rewrite lookup_insert_ne, lookup_insert_eq; [done |].
  intros Heq.
  first [exact (backup_name_ne _ _ Heq) | exact (backup_name_ne _ _ (eq_sym Heq))].
Qed.

Lemma migrateTable_twice_same_rows_witness :
  let o := options "disable" false in
  let w := world_with [] in
  let cols := commonColumns (schema_of users_source) (schema_of users_target)
                (ignoreColumns o) in
  fault_free w ∧
  dryRun o = false ∧
  truncateTarget o = true ∧
  0 < chunkSize o ∧
  tables (source w) !! "users" = Some users_source ∧
  tables (target w) !! "users" = Some users_target ∧
  tables (target w) !! backup_name "users" (clock w) = None ∧
  "20240101T000001" ≠ clock w ∧
  tables (target w) !! backup_name "users" "20240101T000001" = None ∧
  cols ≠ [] ∧
  Forall (has_columns cols) (rows users_source) ∧
  length (rows users_source) < 6 ∧
  ∃ w1 w2,
    migrateTable 6 "users" o w
      = Some (Return (mkResult "users" true (length (rows users_source)) []), w1) ∧
    migrateTable 6 "users" o (at_time "20240101T000001" w1)
      = Some (Return (mkResult "users" true (length (rows users_source)) []), w2) ∧
    tables (target w2) !! "users" = tables (target w1) !! "users" ∧
    tables (target w2) !! backup_name "users" "20240101T000001"
      = tables (target w1) !! "users".
Proof.
  intros o w cols.
  assert (Hff : fault_free w) by constructor.
  assert (Hcols : cols ≠ []) by (by vm_compute).
  assert (Hall : Forall (has_columns cols) (rows users_source)).
  { apply has_columns_decide. by vm_compute. }
  assert (Hfuel : length (rows users_source) < 6) by (vm_compute; lia).
  assert (Hchunk : 0 < chunkSize o) by (vm_compute; lia).
  assert (Hts : "20240101T000001" ≠ clock w) by (by vm_compute).
  split; [exact Hff |]. split; [reflexivity |]. split; [reflexivity |].
  split; [exact Hchunk |].
  split; [by vm_compute |]. split; [by vm_compute |]. split; [by vm_compute |].
  split; [exact Hts |]. split; [by vm_compute |].
  split; [exact Hcols |]. split; [exact Hall |]. split; [exact Hfuel |].
  apply (migrateTable_twice_same_rows 6 "users" o w users_source users_target
           "20240101T000001" Hff eq_refl eq_refl Hchunk);
    [by vm_compute .. | exact Hts | by vm_compute | exact Hcols | exact Hall | exact Hfuel].
Defined.

(** ** What every run keeps, whatever fails *)

Lemma migrate_chunk_counted t o cols rws s out s' :
  migrate_chunk t o cols rws s = Some (out, s') →
  rowsMigrated (result s') = rowsMigrated (result s) ∨
  rowsMigrated (result s') = rowsMigrated (result s) + length rws.
Proof.
  unfold migrate_chunk. intros Hrun.
  apply bind_inv in Hrun as [([] & s1 & Hw & Hrest) | (e & Hw & _)].
  - pose proof (write_chunk_same_result t o cols rws _ _ _ Hw) as Hres.
    injection Hrest as <- <-. simpl. rewrite Hres. by right.
  - left. by rewrite (write_chunk_same_result t o cols rws _ _ _ Hw).
Qed.

(** What the loop adds to [rowsMigrated], however it ends: all the rows that
    were left, or a whole number of chunks. *)
Lemma transfer_counted t o cols : ∀ fuel offset s out s',
  transfer fuel t o cols offset s = Some (out, s') →
  ∃ d, rowsMigrated (result s') = rowsMigrated (result s) + d ∧
       d ≤ length (drop offset (rows_of (source (world s)) t)) ∧
       (d = length (drop offset (rows_of (source (world s)) t)) ∨
        ∃ k, d = k * chunkSize o).
Proof.
  induction fuel as [| fuel IH]; intros offset s out s' Hrun; [done |].
  simpl in Hrun.
  apply bind_inv in Hrun as [(rws & s1 & Hsel & Hrest) | (e & Hsel & _)].
  - apply select_limit_inv in Hsel as (Hrws & Hres & Hsrc).
    assert (Hlen : length rws
              = chunkSize o `min` length (drop offset (rows_of (source (world s)) t))).
    { by rewrite Hrws, length_fmap, length_take. }
    destruct (decide (length rws = 0)) as [Hz | Hne].
    + injection Hrest as <- <-. exists 0. rewrite Hres.
      split; [lia |]. split; [lia |]. right. by exists 0.
    + apply bind_inv in Hrest as [([] & s2 & Hc & Hloop) | (e & Hc & _)].
      * pose proof (source_kept _ t o _ _ _ (migrate_chunk_by_steps t o cols rws) Hc)
          as Hsrc2.
        apply IH in Hloop as (d & Hd & Hle & Hform).
        rewrite Hsrc2, Hsrc in Hle, Hform.
        apply migrate_chunk_count in Hc.
        exists (length rws + d). rewrite Hd, Hc, Hres. split; [lia |].
        rewrite <- drop_drop in Hle, Hform. rewrite length_drop in Hle, Hform.
        split; [lia |]. destruct Hform as [-> | [k ->]].
        -- left. lia.
        -- destruct (decide (chunkSize o
                              ≤ length (drop offset (rows_of (source (world s)) t)))).
           ++ right. exists (S k). lia.
           ++ left. lia.
      * apply migrate_chunk_counted in Hc as [Hc | Hc].
        -- exists 0. rewrite Hc, Hres. split; [lia |]. split; [lia |].
           right. by exists 0.
        -- exists (length rws). rewrite Hc, Hres. split; [done |].
           split; [lia |].
           destruct (decide (chunkSize o
                             ≤ length (drop offset (rows_of (source (world s)) t)))).
           ++ right. exists 1. lia.
           ++ left. lia.
  - exists 0. rewrite (select_same_result _ _ _ _ _ Hsel).
    split; [lia |]. split; [lia |]. right. by exists 0.
Qed.

Lemma migrateTable_try_counted fuel t o s out s' :
  migrateTable_try fuel t o s = Some (out, s') →
  ∃ d, rowsMigrated (result s') = rowsMigrated (result s) + d ∧
       d ≤ length (rows_of (source (world s)) t) ∧
       (d = length (rows_of (source (world s)) t) ∨ ∃ k, d = k * chunkSize o).
Proof.
  assert (Hzero : ∀ s0 : State, result s0 = result s →
    ∃ d, rowsMigrated (result s0) = rowsMigrated (result s) + d ∧
         d ≤ length (rows_of (source (world s)) t) ∧
         (d = length (rows_of (source (world s)) t) ∨ ∃ k, d = k * chunkSize o)).
  { intros s0 ->. exists 0. split; [lia |]. split; [lia |]. right. by exists 0. }
  unfold migrateTable_try. intros Hrun.
  apply bind_inv in Hrun as [([] & s1 & H1 & Hrun) | (e & H1 & _)];
    [| apply Hzero; by rewrite (disable_step_same_result _ _ _ _ H1)].
  apply bind_inv in Hrun as [(S & s2 & H2 & Hrun) | (e & H2 & _)];
    [| apply Hzero; by rewrite (getTableSchema_same_result _ _ _ _ _ H2),
                       (disable_step_same_result _ _ _ _ H1)].
  apply bind_inv in Hrun as [(T & s3 & H3 & Hrun) | (e & H3 & _)];
    [| apply Hzero; by rewrite (getTableSchema_same_result _ _ _ _ _ H3),
                       (getTableSchema_same_result _ _ _ _ _ H2),
                       (disable_step_same_result _ _ _ _ H1)].
  assert (Hres3 : result s3 = result s).
  { by rewrite (getTableSchema_same_result _ _ _ _ _ H3),
       (getTableSchema_same_result _ _ _ _ _ H2),
       (disable_step_same_result _ _ _ _ H1). }
  destruct (decide (length _ = 0)).
  { injection Hrun as <- <-. by apply Hzero. }
  apply bind_inv in Hrun as [([] & s4 & H4 & Hrun) | (e & H4 & _)];
    [| apply Hzero; by rewrite (backup_step_same_result _ _ _ _ _ H4)].
  apply bind_inv in Hrun as [([] & s5 & H5 & Hrun) | (e & H5 & _)];
    [| apply Hzero; by rewrite (truncate_step_same_result _ _ _ _ _ H5),
                       (backup_step_same_result _ _ _ _ _ H4)].
  assert (Hres5 : result s5 = result s).
  { by rewrite (truncate_step_same_result _ _ _ _ _ H5),
       (backup_step_same_result _ _ _ _ _ H4). }
  assert (Hsrc5 : source (world s5) = source (world s)).
  { rewrite (source_kept _ t o _ _ _ (truncate_step_by_steps t o) H5).
    rewrite (source_kept _ t o _ _ _ (backup_step_by_steps t o) H4).
    rewrite (source_kept _ t o _ _ _ (getTableSchema_by_steps _ Target t eq_refl) H3).
    rewrite (source_kept _ t o _ _ _ (getTableSchema_by_steps _ Source t eq_refl) H2).
    by rewrite (source_kept _ t o _ _ _
                  (disable_step_by_steps (issued t o) o (λ H _, H)) H1). }
  assert (Hloop : ∀ out6 s6,
    transfer fuel t o (commonColumns S T (ignoreColumns o)) 0 s5 = Some (out6, s6) →
    ∃ d, rowsMigrated (result s6) = rowsMigrated (result s) + d ∧
         d ≤ length (rows_of (source (world s)) t) ∧
         (d = length (rows_of (source (world s)) t) ∨ ∃ k, d = k * chunkSize o)).
  { intros out6 s6 H6. apply transfer_counted in H6.
    by rewrite drop_0, Hsrc5, Hres5 in H6. }
  apply bind_inv in Hrun as [([] & s6 & H6 & Hrun) | (e & H6 & _)];
    [| by eapply Hloop].
  injection Hrun as <- <-. simpl. by eapply Hloop.
Qed.

(** X5: whatever fails, the [rowsMigrated] of the result never exceeds the
    number of rows of the source table, and it is either that number or a
    whole number of chunks: the rows of a chunk are counted only when all
    the writes of the chunk went through. *)
Theorem rowsMigrated_counts_whole_chunks fuel t o w r w' :
  migrateTable fuel t o w = Some (Return r, w') →
  rowsMigrated r ≤ length (rows_of (source w) t) ∧
  (rowsMigrated r = length (rows_of (source w) t) ∨
   ∃ k, rowsMigrated r = k * chunkSize o).
Proof.
  intros Hrun.
  apply migrateTable_inv in Hrun as (s1 & s2 & Hg & _ & [= ->] & _).
  apply migrateTable_guarded_inv in Hg as [_ [Htry | (e & s' & Htry & ->)]];
    apply migrateTable_try_counted in Htry as (d & Hd & Hle & Hform);
    simpl in *; rewrite Hd; simpl; split; try lia;
    (destruct Hform as [-> | [k ->]]; [by left | right; by exists k]).
Qed.

Lemma rowsMigrated_counts_whole_chunks_witness :
  let plan := replicate 10 None ++ [Some "Duplicate entry"] in
  let o := options "disable" false in
  migrateTable 6 "users" o (world_with plan)
    = Some (Return (mkResult "users" false 2 ["Duplicate entry"]),
            world_left 6 "users" o (world_with plan)) ∧
  rowsMigrated (mkResult "users" false 2 ["Duplicate entry"])
    ≤ length (rows_of (source (world_with plan)) "users") ∧
  (rowsMigrated (mkResult "users" false 2 ["Duplicate entry"])
     = length (rows_of (source (world_with plan)) "users") ∨
   ∃ k, rowsMigrated (mkResult "users" false 2 ["Duplicate entry"]) = k * chunkSize o).
Proof.
  intros plan o.
  assert (Hrun : migrateTable 6 "users" o (world_with plan)
                 = Some (Return (mkResult "users" false 2 ["Duplicate entry"]),
                         world_left 6 "users" o (world_with plan))).
  { by vm_compute. }
  split; [exact Hrun |].
  exact (rowsMigrated_counts_whole_chunks 6 "users" o (world_with plan) _ _ Hrun).
Defined.

Lemma migrateTables_from_source fuel o : ∀ tbls acc w out w',
  migrateTables_from fuel tbls o acc w = Some (out, w') → source w' = source w.
Proof.
  induction tbls as [| t tbls IH]; intros acc w out w'; simpl.
  - by intros [= <- <-].
  - destruct (migrateTable fuel t o w) as [[[r | e] w1] |] eqn:Ht; [| | done].
    + intros Hrest. apply IH in Hrest. rewrite Hrest.
      by eapply migrateTable_source.
    + intros [= <- <-]. by eapply migrateTable_source.
Qed.

(** X6: whatever the options, the tables and the faults, a run of
    [migrateTables] leaves the source database exactly as it was: the only
    statements it hands to the source pool are DESCRIBE and SELECT. *)
Theorem migrateTables_leaves_source fuel tbls o w out w' :
  migrateTables fuel tbls o w = Some (out, w') →
  source w' = source w.
Proof. apply migrateTables_from_source. Qed.

Lemma migrateTables_leaves_source_witness :
  migrateTables 4 ["a"; "b"; "c"] preserving second_table_fails
    = Some (Return (results_of (migrateTables 4 ["a"; "b"; "c"] preserving second_table_fails)),
            worlds_left 4 ["a"; "b"; "c"] preserving second_table_fails) ∧
  source (worlds_left 4 ["a"; "b"; "c"] preserving second_table_fails)
    = source second_table_fails.
Proof.
  assert (Hrun : migrateTables 4 ["a"; "b"; "c"] preserving second_table_fails
    = Some (Return (results_of (migrateTables 4 ["a"; "b"; "c"] preserving second_table_fails)),
            worlds_left 4 ["a"; "b"; "c"] preserving second_table_fails)).
  { by vm_compute. }
  split; [exact Hrun |].
  exact (migrateTables_leaves_source 4 ["a"; "b"; "c"] preserving second_table_fails
           (Return (results_of (migrateTables 4 ["a"; "b"; "c"] preserving second_table_fails)))
           (worlds_left 4 ["a"; "b"; "c"] preserving second_table_fails) Hrun).
Defined.

(** X7: [foreignKeyStrategy] is compared with the string "disable" and with
    nothing else: under any other strategy ("preserve" or a misspelling) no
    statement toggling the foreign-key checks is ever issued, whatever
    fails. *)
Theorem other_strategy_never_toggles fuel t o w out w' :
  foreignKeyStrategy o ≠ "disable" →
  migrateTable fuel t o w = Some (out, w') →
  ∃ evs, trace w' = trace w ++ evs ∧
         Forall (λ ev, stage_of (ev_statement ev) ≠ FkToggle) evs.
Proof.
  intros Hfk Hrun.
  destruct (steps_trace _ _ _ (migrateTable_steps _ _ _ _ _ _ Hrun)) as (evs & Htr & Hall).
  exists evs. split; [done |]. eapply Forall_impl; [exact Hall |].
  intros [p q err] Hok Hq. simpl in *.
  destruct q; try done. destruct p; [done |]. simpl in Hok.
  unfold toggles in Hok. by rewrite bool_decide_eq_false_2 in Hok.
Qed.

Lemma other_strategy_never_toggles_witness :
  foreignKeyStrategy (options "Disable" false) ≠ "disable" ∧
  migrateTable 6 "users" (options "Disable" false) (world_with [])
    = Some (Return (mkResult "users" true 5 []),
            world_left 6 "users" (options "Disable" false) (world_with [])) ∧
  ∃ evs, trace (world_left 6 "users" (options "Disable" false) (world_with []))
         = trace (world_with []) ++ evs ∧
         Forall (λ ev, stage_of (ev_statement ev) ≠ FkToggle) evs.
Proof.
  assert (Hfk : foreignKeyStrategy (options "Disable" false) ≠ "disable")
    by (by vm_compute).
  assert (Hrun : migrateTable 6 "users" (options "Disable" false) (world_with [])
    = Some (Return (mkResult "users" true 5 []),
            world_left 6 "users" (options "Disable" false) (world_with [])))
    by (by vm_compute).
  split; [exact Hfk |]. split; [exact Hrun |].
  exact (other_strategy_never_toggles 6 "users" (options "Disable" false) (world_with [])
           (Return (mkResult "users" true 5 []))
           (world_left 6 "users" (options "Disable" false) (world_with []))
           Hfk Hrun).
Defined.

Lemma migrateTable_table fuel t o w r w' :
  migrateTable fuel t o w = Some (Return r, w') → table r = t.
Proof.
  intros Hrun.
  apply migrateTable_inv in Hrun as (s1 & s2 & Hg & _ & [= ->] & _).
  apply migrateTable_guarded_inv in Hg as [_ [Htry | (e & s' & Htry & ->)]];
    destruct (migrateTable_try_same_errors _ _ _ _ _ _ Htry) as [Htab _];
    simpl in *; by rewrite Htab.
Qed.

Lemma migrateTables_from_keyed fuel o : ∀ tbls acc w results w',
  migrateTables_from fuel tbls o acc w = Some (Return results, w') →
  (NoDup (Object_keys acc) → NoDup (Object_keys results)) ∧
  (∀ t, t ∈ Object_keys results
        ↔ t ∈ Object_keys acc ∨ (t ∈ tbls ∧ t ≠ "__proto__")) ∧
  (∀ t, is_Some (acc !! t) ∨ t ∈ tbls → is_Some (results !! t)) ∧
  ((∀ t r, acc !! t = Some r → table r = t) →
   ∀ t r, results !! t = Some r → table r = t).
Proof.
  induction tbls as [| t tbls IH]; intros acc w results w'; simpl.
  - intros [= <- <-]. split_and!; [done | | | done].
    + intros t. split; [by left | intros [? | [Hin _]]; [done |]].
      by apply elem_of_nil in Hin.
    + intros t [? | Hin]; [done | by apply elem_of_nil in Hin].
  - destruct (migrateTable fuel t o w) as [[[r | e] w1] |] eqn:Ht; [| done ..].
    intros Hrest. apply IH in Hrest as (Hnd & Hkeys & Hread & Hkeyed). split_and!.
    + intros Hacc. by apply Hnd, assign_keys_NoDup.
    + intros t0. rewrite Hkeys, assign_keys_elem, elem_of_cons. naive_solver.
    + intros t0 Ht0. apply Hread.
      destruct (decide (t = t0)) as [<- | Hne].
      * left. by rewrite lookup_assign_eq.
      * rewrite lookup_assign_ne by done.
        destruct Ht0 as [? | Hin]; [by left |].
        apply elem_of_cons in Hin as [-> | ?]; [done | by right].
    + intros Hacc. apply Hkeyed. intros t0 r0 Hl.
      destruct (decide (t = t0)) as [<- | Hne].
      * rewrite lookup_assign_eq in Hl. injection Hl as <-.
        by eapply migrateTable_table.
      * rewrite lookup_assign_ne in Hl by done. by apply Hacc.
Qed.

(** X8: the results object returned by [migrateTables] has one own entry
    for each distinct table name of the list other than "__proto__", and no
    other; the result of every table of the list can be read back under the
    table's name, and what is read under a name is a result of that table.
    (A table named "__proto__" gets no entry: the assignment makes its result
    the prototype of the results object.) *)
Theorem migrateTables_results_keyed fuel tbls o w results w' :
  migrateTables fuel tbls o w = Some (Return results, w') →
  NoDup (Object_keys results) ∧
  (∀ t, t ∈ Object_keys results ↔ t ∈ tbls ∧ t ≠ "__proto__") ∧
  (∀ t, t ∈ tbls → ∃ r, results !! t = Some r ∧ table r = t) ∧
  (∀ t r, results !! t = Some r → table r = t).
Proof.
  intros Hrun. apply migrateTables_from_keyed in Hrun as (Hnd & Hkeys & Hread & Hkeyed).
  assert (Hall : ∀ t r, results !! t = Some r → table r = t).
  { apply Hkeyed. intros t r Hl. by rewrite lookup_empty_obj in Hl. }
  split_and!.
  - apply Hnd. constructor.
  - intros t. rewrite Hkeys. split; [intros [Hin | ?]; [| done] | by right].
    by apply elem_of_nil in Hin.
  - intros t Ht. destruct (Hread t) as [r Hr]; [by right |].
    exists r. split; [done | by apply Hall].
  - exact Hall.
Qed.

Lemma migrateTables_results_keyed_witness :
  let tbls := ["a"; "__proto__"; "a"] in
  let run := migrateTables 4 tbls preserving second_table_fails in
  run = Some (Return (results_of run), worlds_left 4 tbls preserving second_table_fails) ∧
  NoDup (Object_keys (results_of run)) ∧
  (∀ t, t ∈ Object_keys (results_of run) ↔ t ∈ tbls ∧ t ≠ "__proto__") ∧
  (∀ t, t ∈ tbls → ∃ r, results_of run !! t = Some r ∧ table r = t) ∧
  (∀ t r, results_of run !! t = Some r → table r = t).
Proof.
  intros tbls run.
  assert (Hrun : run = Some (Return (results_of run),
                             worlds_left 4 tbls preserving second_table_fails)).
  { by vm_compute. }
  split; [exact Hrun |].
  exact (migrateTables_results_keyed 4 tbls preserving second_table_fails
           (results_of run) (worlds_left 4 tbls preserving second_table_fails) Hrun).
Defined.

(** ** The schema object built by [getTableSchema] *)

(** The names that are no array index, and the descriptors, when the
    fields are distinct. *)
Lemma schema_of_distinct_fields (l : list ColumnInfo) :
  NoDup (Field <$> l) →
  filter (λ c, array_index c = None) (Object_keys (foldl describe_row ∅ l))
  = filter (λ c, array_index c = None ∧ c ≠ "__proto__") (Field <$> l) ∧
  ∀ r, r ∈ l →
    foldl describe_row ∅ l !! Field r
    = Some (mkColumn (Type_ r) (bool_decide (Null r = "YES")) (Default r) (Key r)).
Proof.
  induction l as [| x l IH] using rev_ind; intros Hnd.
  - split; [done |]. intros r Hr. by apply elem_of_nil in Hr.
  - rewrite fmap_app in Hnd. apply NoDup_app in Hnd as (Hnd & Hfresh & _).
    destruct (IH Hnd) as [Hkeys Hget].
    assert (Hx : Field x ∉ Field <$> l).
    { intros Hin. apply (Hfresh _ Hin). simpl. apply list_elem_of_here. }
    rewrite foldl_snoc. split.
    + rewrite fmap_app, filter_app, <- Hkeys. simpl.
      unfold describe_row at 1, Object_keys, assign.
      destruct (decide (Field x = "__proto__")) as [Hp | Hp]; simpl.
      * rewrite filter_cons_False by naive_solver. by rewrite app_nil_r.
      * unfold define_own.
        destruct (decide (is_Some (obj_get (Field x) (own (foldl describe_row ∅ l)))))
          as [[d Hd] | _].
        { destruct Hx. apply obj_get_Some_key in Hd.
          by apply (schema_keys l) in Hd as [? _]. }
        rewrite add_key_names. f_equal.
        destruct (array_index (Field x)) eqn:Hi.
        -- by rewrite filter_cons_False by (rewrite Hi; naive_solver).
        -- by rewrite filter_cons_True.
    + intros r Hr. unfold describe_row at 1.
      apply elem_of_app in Hr as [Hr | Hr].
      * rewrite lookup_assign_ne; [by apply Hget |].
        intros Heq. apply Hx. rewrite Heq. by apply list_elem_of_fmap_2.
      * apply list_elem_of_singleton in Hr as ->. apply lookup_assign_eq.
Qed.

(** X9: a schema returned by [getTableSchema] is built from the rows the
    table's DESCRIBE answers.  Its own keys are distinct and are the [Field]
    names other than "__proto__", enumerated as JavaScript does: the names
    that are array indices first, in ascending order.  When the fields are
    distinct (as a DESCRIBE answers), the other names follow in the order of
    the rows, and what is read under the name of a row is the [Type],
    [Default] and [Key] of that row, with [nullable] true exactly when [Null]
    is "YES"; so when no field is an array index or "__proto__" the keys are
    the fields in the order of the rows. *)
Theorem getTableSchema_describes_columns p t s S s' :
  getTableSchema p t s = Some (Return S, s') →
  ∃ T, tables (database_of p (world s)) !! t = Some T ∧
       NoDup (Object_keys S) ∧
       (∀ c, c ∈ Object_keys S ↔ c ∈ Field <$> columns T ∧ c ≠ "__proto__") ∧
       enumerated (Object_keys S) ∧
       (NoDup (Field <$> columns T) →
        filter (λ c, array_index c = None) (Object_keys S)
        = filter (λ c, array_index c = None ∧ c ≠ "__proto__") (Field <$> columns T) ∧
        (∀ r, r ∈ columns T →
           S !! Field r
           = Some (mkColumn (Type_ r) (bool_decide (Null r = "YES")) (Default r) (Key r))) ∧
        (Forall (λ c, array_index c = None ∧ c ≠ "__proto__") (Field <$> columns T) →
         Object_keys S = Field <$> columns T)).
Proof.
  unfold getTableSchema. intros Hrun.
  apply try_catch_inv in Hrun as [(S' & Hrun & [= <-]) | (e & s1 & _ & Hh)]; [| done].
  apply bind_inv in Hrun as [(rs & s1 & Hex & Hret) | (e & _ & ?)]; [| done].
  apply execute_inv in Hex as [_ [(msg & ? & _) | (rs' & db' & [= <-] & Hq & _)]];
    [done |].
  simpl in Hq. destruct (tables (database_of p (world s)) !! t) as [T |]; [| done].
  injection Hq as <- <-. injection Hret as <- <-.
  exists T. split; [done |].
  destruct (schema_keys (columns T)) as (Hnd & Hmem & Hsorted).
  split; [done |]. split; [done |]. split; [done |]. intros Hfields.
  destruct (schema_of_distinct_fields (columns T) Hfields) as [Hnames Hread].
  split; [done |]. split; [done |]. intros Hplain.
  rewrite <- (filter_all _ _ Hplain), <- Hnames.
  symmetry. apply filter_all, Forall_forall. intros c Hc.
  apply Hmem in Hc as [Hc _].
  by apply (proj1 (Forall_forall _ _) Hplain) in Hc as [? _].
Qed.

Lemma getTableSchema_describes_columns_witness :
  let s := mkState (world_with []) (new_result "users") in
  getTableSchema Source "users" s
    = Some (Return user_schema, state_after (getTableSchema Source "users") s) ∧
  ∃ T, tables (database_of Source (world s)) !! "users" = Some T ∧
       NoDup (Object_keys user_schema) ∧
       (∀ c, c ∈ Object_keys user_schema ↔ c ∈ Field <$> columns T ∧ c ≠ "__proto__") ∧
       enumerated (Object_keys user_schema) ∧
       (NoDup (Field <$> columns T) →
        filter (λ c, array_index c = None) (Object_keys user_schema)
        = filter (λ c, array_index c = None ∧ c ≠ "__proto__") (Field <$> columns T) ∧
        (∀ r, r ∈ columns T →
           user_schema !! Field r
           = Some (mkColumn (Type_ r) (bool_decide (Null r = "YES")) (Default r) (Key r))) ∧
        (Forall (λ c, array_index c = None ∧ c ≠ "__proto__") (Field <$> columns T) →
         Object_keys user_schema = Field <$> columns T)).
Proof.
  intros s.
  assert (Hrun : getTableSchema Source "users" s
            = Some (Return user_schema, state_after (getTableSchema Source "users") s)).
  { by vm_compute. }
  split; [exact Hrun |].
  exact (getTableSchema_describes_columns Source "users" s user_schema
           (state_after (getTableSchema Source "users") s) Hrun).
Defined.

End MigratorFacts.

(* ===================================================================== *)
(** * Properties of the connection settings                               *)
(* ===================================================================== *)

Section ConfigFacts.
Import Migrator Config.

Implicit Types (env : Env) (config : list (string * setting)).

Lemma read_variable_provided env prefix v config :
  provided env prefix v →
  ∃ value, env !! envVar prefix v = Some value ∧ value ≠ "" ∧
    read_variable env prefix v config
    = inr (obj_set (toLowerCase v)
             (if decide (v = "PORT") then ParseInt value else Text value) config).
Proof.
  intros (value & Hl & Hne). exists value. split_and!; [done.. |].
  unfold read_variable. by rewrite Hl, decide_False.
Qed.

Lemma read_variable_missing env prefix v config :
  ¬ provided env prefix v →
  read_variable env prefix v config = inl (missing_variable (envVar prefix v)).
Proof.
  intros Hno. unfold read_variable.
  destruct (env !! envVar prefix v) as [value |] eqn:Hl; [| done].
  destruct (decide (value = "")); [done |]. destruct Hno. by exists value.
Qed.

Lemma read_variable_inv env prefix v config config' :
  read_variable env prefix v config = inr config' → provided env prefix v.
Proof.
  unfold read_variable, provided.
  destruct (env !! envVar prefix v) as [value |]; [| done].
  destruct (decide (value = "")); [done |]. intros _. by exists value.
Qed.

Lemma forEach_provided env prefix : ∀ vars config,
  Forall (provided env prefix) vars →
  ∃ config', forEach (read_variable env prefix) vars config = inr config'.
Proof.
  induction vars as [| v vars IH]; intros config Hall; simpl; [by eexists |].
  apply Forall_cons in Hall as [Hv Hall].
  destruct (read_variable_provided env prefix v config Hv) as (value & _ & _ & ->).
  by apply IH.
Qed.

Lemma forEach_inv env prefix : ∀ vars config config',
  forEach (read_variable env prefix) vars config = inr config' →
  Forall (provided env prefix) vars.
Proof.
  induction vars as [| v vars IH]; intros config config' Hrun; [constructor |].
  simpl in Hrun.
  destruct (read_variable env prefix v config) as [e | config1] eqn:Hread; [done |].
  constructor; [by eapply read_variable_inv | by eapply IH].
Qed.

Lemma forEach_first_missing env prefix v post : ∀ pre config,
  Forall (provided env prefix) pre →
  ¬ provided env prefix v →
  forEach (read_variable env prefix) (pre ++ v :: post) config
  = inl (missing_variable (envVar prefix v)).
Proof.
  induction pre as [| u pre IH]; intros config Hpre Hno; simpl.
  - by rewrite read_variable_missing.
  - apply Forall_cons in Hpre as [Hu Hpre].
    destruct (read_variable_provided env prefix u config Hu) as (value & _ & _ & ->).
    by apply IH.
Qed.

Lemma getDbConfig_provided env prefix :
  (∃ config, getDbConfig env prefix = inr config)
  ↔ Forall (provided env prefix) requiredVars.
Proof.
  unfold getDbConfig. split.
  - intros [config Hrun].
    destruct (forEach (read_variable env prefix) requiredVars []) as [e | c] eqn:Hfor;
      [done |].
    by eapply forEach_inv.
  - intros Hall.
    destruct (forEach_provided env prefix requiredVars [] Hall) as [c ->].
    by eexists.
Qed.

(** X14: [getDbConfig] returns a settings object exactly when each of
    <prefix>_DB_HOST, _USER, _PASSWORD, _DATABASE and _PORT is set to a text
    that is not empty; a variable set to the empty text counts as missing. *)
Theorem getDbConfig_succeeds_iff env prefix :
  (∃ config, getDbConfig env prefix = inr config)
  ↔ Forall (provided env prefix) requiredVars.
Proof. apply getDbConfig_provided. Qed.

(** X15: when a variable is missing, the error names the first missing one
    in the order HOST, USER, PASSWORD, DATABASE, PORT, whatever the later
    ones are. *)
Theorem getDbConfig_names_first_missing env prefix pre v post :
  requiredVars = pre ++ v :: post →
  Forall (provided env prefix) pre →
  ¬ provided env prefix v →
  getDbConfig env prefix
  = inl (mkError ("Missing required environment variable: " +:+ prefix +:+ "_DB_" +:+ v)).
Proof.
  intros Hsplit Hpre Hno. unfold getDbConfig.
  by rewrite Hsplit, forEach_first_missing.
Qed.

Lemma getDbConfig_names_first_missing_witness :
  requiredVars = ["HOST"] ++ "USER" :: ["PASSWORD"; "DATABASE"; "PORT"] ∧
  Forall (provided source_env "TARGET") ["HOST"] ∧
  ¬ provided source_env "TARGET" "USER" ∧
  getDbConfig source_env "TARGET"
  = inl (mkError "Missing required environment variable: TARGET_DB_USER").
Proof.
  assert (Hpre : Forall (provided source_env "TARGET") ["HOST"]).
  { constructor; [| constructor]. by exists "localhost". }
  assert (Hno : ¬ provided source_env "TARGET" "USER").
  { intros (value & Hl & Hne). vm_compute in Hl. congruence. }
  split; [reflexivity |]. split; [exact Hpre |]. split; [exact Hno |].
  exact (getDbConfig_names_first_missing source_env "TARGET" ["HOST"] "USER"
           ["PASSWORD"; "DATABASE"; "PORT"] eq_refl Hpre Hno).
Defined.

(** X16: the settings object returned: the five values under the lower-case
    names, host, user, password and database as the texts of the
    environment, the port through [parseInt], followed by the four fixed
    pool settings. *)
Theorem getDbConfig_settings env prefix host user password database port :
  env !! envVar prefix "HOST" = Some host → host ≠ "" →
  env !! envVar prefix "USER" = Some user → user ≠ "" →
  env !! envVar prefix "PASSWORD" = Some password → password ≠ "" →
  env !! envVar prefix "DATABASE" = Some database → database ≠ "" →
  env !! envVar prefix "PORT" = Some port → port ≠ "" →
  getDbConfig env prefix
  = inr [("host", Text host); ("user", Text user); ("password", Text password);
         ("database", Text database); ("port", ParseInt port);
         ("connectionLimit", Number 10); ("connectTimeout", Number 10000);
         ("waitForConnections", Boolean true); ("queueLimit", Number 0)].
Proof.
  intros Hh Hh' Hu Hu' Hp Hp' Hd Hd' Hn Hn'.
  unfold getDbConfig, requiredVars. cbn [forEach]. unfold read_variable.
  rewrite Hh, Hu, Hp, Hd, Hn. by rewrite !decide_False by done.
Qed.

Lemma getDbConfig_settings_witness :
  getDbConfig source_env "SOURCE"
  = inr [("host", Text "db.internal"); ("user", Text "app");
         ("password", Text "s3cret"); ("database", Text "shop");
         ("port", ParseInt "3306");
         ("connectionLimit", Number 10); ("connectTimeout", Number 10000);
         ("waitForConnections", Boolean true); ("queueLimit", Number 0)].
Proof.
  apply (getDbConfig_settings source_env "SOURCE"
           "db.internal" "app" "s3cret" "shop" "3306");
    first [reflexivity | discriminate].
Defined.

(** X17: the constructor of [DatabaseMigrator] reads the settings of the
    source before those of the target: it succeeds exactly when the ten
    variables are provided. *)
Theorem DatabaseMigrator_new_succeeds_iff env :
  (∃ configs, DatabaseMigrator_new env = inr configs)
  ↔ Forall (provided env "SOURCE") requiredVars
    ∧ Forall (provided env "TARGET") requiredVars.
Proof.
  rewrite <- !getDbConfig_provided. unfold DatabaseMigrator_new. split.
  - intros [configs Hrun].
    destruct (getDbConfig env "SOURCE") as [e | sc]; [done |].
    destruct (getDbConfig env "TARGET") as [e | tc]; [done |].
    split; by eexists.
  - intros [[sc ->] [tc ->]]. by eexists.
Qed.

(** ** The flags of a run *)

Lemma migrateTables_from_steps fuel o (P : Event → Prop) :
  (∀ t ev, issued t o (ev_pool ev) (ev_statement ev) → P ev) →
  ∀ tbls acc w out w',
    migrateTables_from fuel tbls o acc w = Some (out, w') →
    (dryRun o = true → target w' = target w) ∧
    ∃ evs, trace w' = trace w ++ evs ∧ Forall P evs.
Proof.
  intros HP.
  assert (Hone : ∀ t w out w', migrateTable fuel t o w = Some (out, w') →
            (dryRun o = true → target w' = target w) ∧
            ∃ evs, trace w' = trace w ++ evs ∧ Forall P evs).
  { intros t w out w' Hrun.
    pose proof (migrateTable_steps _ _ _ _ _ _ Hrun) as Hsteps. split.
    - intros Hdry. by eapply steps_target_dry.
    - destruct (steps_trace _ _ _ Hsteps) as (evs & Htr & Hall).
      exists evs. split; [done |]. eapply Forall_impl; [exact Hall |].
      intros ev Hev. exact (HP t ev Hev). }
  induction tbls as [| t tbls IH]; intros acc w out w'; simpl.
  - intros [= <- <-]. split; [done |]. exists []. by rewrite app_nil_r.
  - destruct (migrateTable fuel t o w) as [[[r | e] w1] |] eqn:Ht; [| | done].
    + intros Hrest. apply IH in Hrest as (Htgt & evs2 & Htr2 & Hall2).
      destruct (Hone _ _ _ _ Ht) as (Htgt1 & evs1 & Htr1 & Hall1). split.
      * intros Hdry. by rewrite Htgt, Htgt1.
      * exists (evs1 ++ evs2). rewrite Htr2, Htr1, <- app_assoc.
        split; [done |]. by apply Forall_app.
    + intros [= <- <-]. by eapply Hone.
Qed.

(** X18: DRY_RUN is not compared with any text: set to any text that is not
    empty, "false" and "0" included, it makes the run a dry run, which
    returns and leaves both databases as they were. *)
Theorem DRY_RUN_any_text_runs_dry env value n ignored fuel tbls w :
  env !! "DRY_RUN" = Some value →
  value ≠ "" →
  row_bound (source w) < fuel →
  ∃ results w',
    migrateTables fuel tbls (migration_options env n ignored) w
      = Some (Return results, w') ∧
    source w' = source w ∧ target w' = target w.
Proof.
  intros Hset Hne Hfuel.
  destruct (migrateTables_from_returns fuel (migration_options env n ignored)
              tbls ∅ w Hfuel) as (results & w' & Hrun & Hsrc & _).
  exists results, w'. split; [done |]. split; [done |].
  destruct (migrateTables_from_steps fuel (migration_options env n ignored)
              (λ _, True) (λ _ _ _, I) _ _ _ _ _ Hrun) as [Htgt _].
  apply Htgt. unfold migration_options. simpl. rewrite Hset. simpl.
  by apply bool_decide_eq_true_2.
Qed.

Lemma DRY_RUN_any_text_runs_dry_witness :
  dry_run_false !! "DRY_RUN" = Some "false" ∧
  "false" ≠ "" ∧
  row_bound (source second_table_fails) < 4 ∧
  ∃ results w',
    migrateTables 4 ["a"; "b"; "c"] (migration_options dry_run_false 2 [])
      second_table_fails = Some (Return results, w') ∧
    source w' = source second_table_fails ∧ target w' = target second_table_fails.
Proof.
  assert (Hfuel : row_bound (source second_table_fails) < 4) by (vm_compute; lia).
  split; [reflexivity |]. split; [discriminate |]. split; [exact Hfuel |].
  apply (DRY_RUN_any_text_runs_dry dry_run_false "false" 2 [] 4 ["a"; "b"; "c"]
           second_table_fails eq_refl); [discriminate | exact Hfuel].
Defined.

(** X19: TRUNCATE_TARGET counts only when it is exactly the text "true":
    unset or spelt otherwise ("TRUE", "1", "yes"), no table is truncated by
    the run, although [migrateTable] on its own truncates by default. *)
Theorem TRUNCATE_TARGET_only_true env n ignored fuel tbls w out w' :
  env !! "TRUNCATE_TARGET" ≠ Some "true" →
  migrateTables fuel tbls (migration_options env n ignored) w = Some (out, w') →
  ∃ evs, trace w' = trace w ++ evs ∧
         Forall (λ ev, stage_of (ev_statement ev) ≠ Truncate) evs.
Proof.
  intros Hother Hrun.
  eapply (migrateTables_from_steps fuel (migration_options env n ignored)
            (λ ev, stage_of (ev_statement ev) ≠ Truncate)); [| exact Hrun].
  intros t [p q err] Hok Hq. simpl in *.
  destruct q; try done. destruct p; [done |]. simpl in Hok.
  destruct Hok as (_ & Htrunc & _).
  by rewrite bool_decide_eq_false_2 in Htrunc.
Qed.

Lemma TRUNCATE_TARGET_only_true_witness :
  truncate_upper !! "TRUNCATE_TARGET" ≠ Some "true" ∧
  migrateTables 4 ["a"; "b"; "c"] (migration_options truncate_upper 2 [])
      second_table_fails
    = Some (Return (results_of (migrateTables 4 ["a"; "b"; "c"]
                      (migration_options truncate_upper 2 []) second_table_fails)),
            worlds_left 4 ["a"; "b"; "c"] (migration_options truncate_upper 2 [])
              second_table_fails) ∧
  ∃ evs, trace (worlds_left 4 ["a"; "b"; "c"] (migration_options truncate_upper 2 [])
                  second_table_fails)
         = trace second_table_fails ++ evs ∧
         Forall (λ ev, stage_of (ev_statement ev) ≠ Truncate) evs.
Proof.
  assert (Hother : truncate_upper !! "TRUNCATE_TARGET" ≠ Some "true")
    by (by vm_compute).
  assert (Hrun : migrateTables 4 ["a"; "b"; "c"] (migration_options truncate_upper 2 [])
      second_table_fails
    = Some (Return (results_of (migrateTables 4 ["a"; "b"; "c"]
                      (migration_options truncate_upper 2 []) second_table_fails)),
            worlds_left 4 ["a"; "b"; "c"] (migration_options truncate_upper 2 [])
              second_table_fails))
    by (by vm_compute).
  split; [exact Hother |]. split; [exact Hrun |].
  exact (TRUNCATE_TARGET_only_true truncate_upper 2 [] 4 ["a"; "b"; "c"]
           second_table_fails
           (Return (results_of (migrateTables 4 ["a"; "b"; "c"]
                      (migration_options truncate_upper 2 []) second_table_fails)))
           (worlds_left 4 ["a"; "b"; "c"] (migration_options truncate_upper 2 [])
              second_table_fails)
           Hother Hrun).
Defined.

End ConfigFacts.
